(** * coro_http: a shallow embedding of the wire codec, the retry policy
      and the redirect loop of the HTTP client, with the properties that
      were checked against it.

    Layout of the development:
    - [Str]          : the [std::string] and [std::istringstream]
                       operations the library relies on;
    - [SseEvent], [Sse] : [struct SseEvent], [parse_sse_stream],
                       [parse_sse_line];
    - [Chunked]      : [decode_chunked];
    - [Double]       : the arithmetic of [double] that [get_delay] uses;
    - [Exception], [RetryPolicy] : [RetryPolicy::should_retry] and
                       [RetryPolicy::get_delay];
    - [StdMap], [IgnoringCase], [HttpResponse] : [strcasecmp_impl] and
                       [HttpResponse::get_header];
    - [HttpMethod], [HttpRequest], [UrlInfo], [ClientConfig], [HttpClient] :
                       [HttpClient::execute], [execute_with_redirects] and
                       [execute_http] over an explicit world;
    - [SseText], [ChunkedWire], [RedirectChain], [ReadLoop], [HttpVerbs] :
                       [SseEvent::to_string], [read_with_timeout],
                       [co_read_response], the verbs of the client, and
                       the shapes of input that the properties speak of.

    The definitions of all modules come first; the lemmas follow in the
    second part, in modules of facts. *)

From Stdlib Require Import ZArith QArith Qround Qpower Qminmax Qabs Lqa Ascii Lia.
From Stdlib Require String.
From stdpp Require Import base option list gmap strings sorting.

Local Open Scope stdpp_scope.

(* ===================================================================== *)
(** * Strings and string streams *)
(* ===================================================================== *)

Module Str.

(** ['\n'], ['\r'] and the space character. *)
Definition LF : ascii := "010"%char.
Definition CR : ascii := "013"%char.
Definition SP : ascii := " "%char.
Definition COLON : ascii := ":"%char.

Definition lf : string := String LF "".
Definition crlf : string := String CR (String LF "").

(** [s.empty()] *)
Definition empty (s : string) : bool :=
  match s with
  | EmptyString => true
  | String _ _ => false
  end.

(** [s.back()]: the last character. On an empty string the C++ call has
    no defined behaviour; the model answers [None] there and every caller
    has to say what it does with it. *)
Fixpoint back (s : string) : option ascii :=
  match s with
  | EmptyString => None
  | String c EmptyString => Some c
  | String _ s' => back s'
  end.

(** [s.pop_back()] *)
Fixpoint pop_back (s : string) : string :=
  match s with
  | EmptyString => EmptyString
  | String _ EmptyString => EmptyString
  | String c s' => String c (pop_back s')
  end.

(** [s[0]] *)
Definition front (s : string) : option ascii :=
  match s with
  | EmptyString => None
  | String c _ => Some c
  end.

(** [!s.empty() && s.back() == c] *)
Definition ends_with (c : ascii) (s : string) : bool :=
  negb (empty s) &&
  match back s with
  | Some d => Ascii.eqb d c
  | None => false
  end.

(** [!s.empty() && s[0] == c] *)
Definition starts_with (c : ascii) (s : string) : bool :=
  negb (empty s) &&
  match front s with
  | Some d => Ascii.eqb d c
  | None => false
  end.

(** [s.find(c)], with [None] for [npos]. *)
Fixpoint find_char (c : ascii) (s : string) : option nat :=
  match s with
  | EmptyString => None
  | String d s' =>
      if Ascii.eqb d c then Some 0
      else match find_char c s' with
           | Some n => Some (S n)
           | None => None
           end
  end.

(** [s.find(needle)], with [None] for [npos]. *)
Definition find (needle s : string) : option nat := String.index 0 needle s.

(** [s.substr(pos)] for [pos <= s.size()]. *)
Fixpoint substr_from (pos : nat) (s : string) : string :=
  match pos, s with
  | 0, _ => s
  | S p, String _ s' => substr_from p s'
  | S _, EmptyString => EmptyString
  end.

(** [s.substr(0, len)] *)
Fixpoint substr_to (len : nat) (s : string) : string :=
  match len, s with
  | 0, _ => EmptyString
  | S n, String c s' => String c (substr_to n s')
  | S _, EmptyString => EmptyString
  end.

(** [a == b] on strings. *)
Definition eqb (a b : string) : bool := String.eqb a b.

(** The characters of a line and what follows its ['\n'] delimiter. When
    the input ends before a delimiter the whole input is the line. *)
Fixpoint read_until_lf (s : string) : string * string :=
  match s with
  | EmptyString => (EmptyString, EmptyString)
  | String c s' =>
      if Ascii.eqb c LF then (EmptyString, s')
      else let '(l, r) := read_until_lf s' in (String c l, r)
  end.

(** An [std::istringstream] is modelled by its unread characters. Its
    [eofbit] and [failbit] are only ever raised by running into the end of
    the buffer, and once one of them is up every later [getline] or [read]
    fails; a stream in that state therefore behaves as the empty suffix,
    and the suffix alone is the state.

    [std::getline(stream, line)]: [None] when the call fails (nothing
    left to extract), else the line and the rest of the stream. *)
Definition getline (s : string) : option (string * string) :=
  match s with
  | EmptyString => None
  | String _ _ => Some (read_until_lf s)
  end.

(** The lines that [while (std::getline(stream, line))] sees, in order. *)
Fixpoint getlines (s : string) : list string :=
  match s with
  | EmptyString => []
  | String c s' =>
      if Ascii.eqb c LF then EmptyString :: getlines s'
      else match getlines s' with
           | [] => [String c EmptyString]
           | l :: ls => String c l :: ls
           end
  end.

(** [stream.read(buf, n)] into a buffer of [n] NUL characters: the buffer
    afterwards and the rest of the stream. A short read leaves the tail of
    the buffer as it was. *)
Fixpoint read_into (n : nat) (s : string) : string * string :=
  match n with
  | 0 => (EmptyString, s)
  | S n' =>
      match s with
      | EmptyString => (String Ascii.zero (fst (read_into n' EmptyString)), EmptyString)
      | String c s' => let '(b, r) := read_into n' s' in (String c b, r)
      end
  end.

(** [msg] contains [needle] as a contiguous substring. *)
Definition contains (needle msg : string) : Prop :=
  ∃ pre post, msg = pre +:+ needle +:+ post.

End Str.

(* ===================================================================== *)
(** * Server-sent events *)
(* ===================================================================== *)

(** [struct SseEvent] *)
Module SseEvent.

Record t : Type := mk {
  type : string;                  (* event field *)
  data : string;                  (* data field (combines all data lines) *)
  id : string;                    (* id field *)
  retry : string;                 (* retry field *)
  fields : gmap string string     (* all raw fields *)
}.

(** [SseEvent{}] *)
Definition init : t := mk "" "" "" "" ∅.

(** [bool empty() const] *)
Definition empty (e : t) : bool :=
  Str.empty (data e) && Str.empty (type e) && Str.empty (id e).

Definition set_type (e : t) (v : string) : t :=
  mk v (data e) (id e) (retry e) (fields e).
Definition set_data (e : t) (v : string) : t :=
  mk (type e) v (id e) (retry e) (fields e).
Definition set_id (e : t) (v : string) : t :=
  mk (type e) (data e) v (retry e) (fields e).
Definition set_retry (e : t) (v : string) : t :=
  mk (type e) (data e) (id e) v (fields e).
(** [e.fields[k] = v] *)
Definition set_field (e : t) (k v : string) : t :=
  mk (type e) (data e) (id e) (retry e) (<[k:=v]> (fields e)).

End SseEvent.

Module Sse.

(** The three pieces of state that both parsers carry from line to line:
    the event under construction, its data lines, the events dispatched. *)
Definition state : Type := SseEvent.t * list string * list SseEvent.t.

Definition events_of (st : state) : list SseEvent.t := snd st.

(** [for (size_t i = 0; i < data_lines.size(); ++i) {
       if (i > 0) data += "\n";
       data += data_lines[i]; }]
    started at index [i] with [data] holding [acc]. *)
Fixpoint join_data_lines (i : nat) (acc : string) (data_lines : list string) : string :=
  match data_lines with
  | [] => acc
  | l :: rest =>
      let acc := if Nat.ltb 0 i then acc +:+ Str.lf else acc in
      join_data_lines (S i) (acc +:+ l) rest
  end.

(** The condition under which a pending event is looked at at all. *)
Definition pending (current_event : SseEvent.t) (data_lines : list string) : bool :=
  negb (match data_lines with [] => true | _ => false end)
  || negb (Str.empty (SseEvent.type current_event))
  || negb (Str.empty (SseEvent.id current_event))
  || negb (Str.empty (SseEvent.retry current_event)).

(** The body of [while (std::getline(stream, line))] in
    [parse_sse_stream], run over the lines of the stream. *)
Fixpoint parse_sse_stream_loop (lines : list string)
    (current_event : SseEvent.t) (data_lines : list string)
    (events : list SseEvent.t) : state :=
  match lines with
  | [] => (current_event, data_lines, events)
  | line :: lines =>
      (* Remove trailing \r if present *)
      let line := if Str.ends_with Str.CR line then Str.pop_back line else line in
      (* Empty line indicates end of event *)
      if Str.empty line then
        if pending current_event data_lines then
          let current_event :=
            SseEvent.set_data current_event
              (join_data_lines 0 (SseEvent.data current_event) data_lines) in
          let events :=
            if negb (SseEvent.empty current_event)
            then events ++ [current_event] else events in
          parse_sse_stream_loop lines SseEvent.init [] events
        else parse_sse_stream_loop lines current_event data_lines events
      (* Line starting with : is a comment *)
      else if match Str.front line with
              | Some c => Ascii.eqb c Str.COLON
              | None => false
              end then
        parse_sse_stream_loop lines current_event data_lines events
      else
        (* Parse field: value *)
        let '(field, value) :=
          match Str.find_char Str.COLON line with
          | None => (line, "")
          | Some colon_pos =>
              let field := Str.substr_to colon_pos line in
              let value := Str.substr_from (colon_pos + 1) line in
              (* Remove leading space if present *)
              let value :=
                if Str.starts_with Str.SP value then Str.substr_from 1 value else value in
              (field, value)
          end in
        (* Process field *)
        if Str.eqb field "event" then
          parse_sse_stream_loop lines (SseEvent.set_type current_event value) data_lines events
        else if Str.eqb field "data" then
          parse_sse_stream_loop lines current_event (data_lines ++ [value]) events
        else if Str.eqb field "id" then
          parse_sse_stream_loop lines (SseEvent.set_id current_event value) data_lines events
        else if Str.eqb field "retry" then
          parse_sse_stream_loop lines (SseEvent.set_retry current_event value) data_lines events
        else
          (* Unknown field - store it anyway *)
          parse_sse_stream_loop lines (SseEvent.set_field current_event field value) data_lines events
  end.

(** What follows the loop of [parse_sse_stream]: the last event is handled
    when the stream does not end with a blank line. *)
Definition flush_last (st : state) : list SseEvent.t :=
  let '(current_event, data_lines, events) := st in
  if pending current_event data_lines then
    let current_event :=
      SseEvent.set_data current_event
        (join_data_lines 0 (SseEvent.data current_event) data_lines) in
    if negb (SseEvent.empty current_event)
    then events ++ [current_event] else events
  else events.

(** [std::vector<SseEvent> parse_sse_stream(const std::string& stream_data)] *)
Definition parse_sse_stream (stream_data : string) : list SseEvent.t :=
  flush_last (parse_sse_stream_loop (Str.getlines stream_data) SseEvent.init [] []).

(** [void parse_sse_line(const std::string& line, SseEvent& current_event,
       std::vector<std::string>& data_lines, std::vector<SseEvent>& events)];
    the three reference arguments come back as the result. *)
Definition parse_sse_line (line : string) (current_event : SseEvent.t)
    (data_lines : list string) (events : list SseEvent.t) : state :=
  let processed_line := line in
  let processed_line :=
    if Str.ends_with Str.CR processed_line then Str.pop_back processed_line
    else processed_line in
  if Str.empty processed_line then
    if pending current_event data_lines then
      let current_event :=
        SseEvent.set_data current_event
          (join_data_lines 0 (SseEvent.data current_event) data_lines) in
      let events :=
        if negb (SseEvent.empty current_event)
        then events ++ [current_event] else events in
      (SseEvent.init, [], events)
    else (current_event, data_lines, events)
  else if match Str.front processed_line with
          | Some c => Ascii.eqb c Str.COLON
          | None => false
          end then
    (current_event, data_lines, events)
  else
    let '(field, value) :=
      match Str.find_char Str.COLON processed_line with
      | None => (processed_line, "")
      | Some colon_pos =>
          let field := Str.substr_to colon_pos processed_line in
          let value := Str.substr_from (colon_pos + 1) processed_line in
          let value :=
            if Str.starts_with Str.SP value then Str.substr_from 1 value else value in
          (field, value)
      end in
    if Str.eqb field "event" then
      (SseEvent.set_type current_event value, data_lines, events)
    else if Str.eqb field "data" then
      (current_event, data_lines ++ [value], events)
    else if Str.eqb field "id" then
      (SseEvent.set_id current_event value, data_lines, events)
    else if Str.eqb field "retry" then
      (SseEvent.set_retry current_event value, data_lines, events)
    else
      (SseEvent.set_field current_event field value, data_lines, events).

(** Line-by-line use of [parse_sse_line]: a caller that keeps one
    [current_event], one [data_lines] and one [events] and hands the parser
    each line as it arrives. *)
Fixpoint feed_lines (lines : list string) (st : state) : state :=
  match lines with
  | [] => st
  | line :: lines =>
      let '(current_event, data_lines, events) := st in
      feed_lines lines (parse_sse_line line current_event data_lines events)
  end.

(** The events dispatched when the stream is split into lines and fed to
    the incremental parser from its initial state. *)
Definition parse_incremental (stream_data : string) : list SseEvent.t :=
  events_of (feed_lines (Str.getlines stream_data) (SseEvent.init, [], [])).

(** The line is blank once its trailing ['\r'] is removed. *)
Definition blank (line : string) : bool :=
  Str.empty (if Str.ends_with Str.CR line then Str.pop_back line else line).

(** The stream has no line at all, or its last line is blank. *)
Definition blank_terminated (stream_data : string) : bool :=
  match last (Str.getlines stream_data) with
  | Some line => blank line
  | None => true
  end.

End Sse.

(* ===================================================================== *)
(** * Chunked transfer decoding *)
(* ===================================================================== *)

Module Chunked.

(** [unsigned long] and [size_t] are 64 bits wide (LP64). *)
Definition ULONG_MAX : N := 2 ^ 64 - 1.

(** [std::string::max_size()], here the libstdc++ value on LP64. A
    [std::string(n, c)] with [n] above it throws [std::length_error]. *)
Definition max_size : N := 2 ^ 62 - 1.

(** [isspace] in the C locale. *)
Definition isspace (c : ascii) : bool :=
  let n := N_of_ascii c in
  N.eqb n 32 || (N.leb 9 n && N.leb n 13).

(** The value of a base-16 digit. *)
Definition hex_digit (c : ascii) : option N :=
  let n := N_of_ascii c in
  if N.leb 48 n && N.leb n 57 then Some (n - 48)%N
  else if N.leb 97 n && N.leb n 102 then Some (n - 87)%N
  else if N.leb 65 n && N.leb n 70 then Some (n - 55)%N
  else None.

Fixpoint skip_spaces (s : string) : string :=
  match s with
  | String c s' => if isspace c then skip_spaces s' else s
  | EmptyString => s
  end.

(** The longest run of base-16 digits at the head of [s], folded into
    [acc]; [None] when [seen] is false and the run is empty. *)
Fixpoint hex_run (acc : N) (seen : bool) (s : string) : option N :=
  match s with
  | String c s' =>
      match hex_digit c with
      | Some d => hex_run (acc * 16 + d)%N true s'
      | None => if seen then Some acc else None
      end
  | EmptyString => if seen then Some acc else None
  end.

(** [std::stoul(s, nullptr, 16)], with [None] when it throws
    ([std::invalid_argument] without a digit, [std::out_of_range] above
    [ULONG_MAX]). As [strtoul] does, it skips leading white space, takes
    an optional sign and an optional [0x] prefix, stops at the first
    character that is no digit, and negates modulo [2^64] after a minus
    sign. *)
Definition stoul16 (s : string) : option N :=
  let s := skip_spaces s in
  let '(neg, s) :=
    match s with
    | String "-"%char s' => (true, s')
    | String "+"%char s' => (false, s')
    | _ => (false, s)
    end in
  let s :=
    match s with
    | String "0"%char (String x (String d s')) =>
        if (Ascii.eqb x "x"%char || Ascii.eqb x "X"%char)
           && bool_decide (is_Some (hex_digit d))
        then String d s' else s
    | _ => s
    end in
  match hex_run 0 false s with
  | None => None
  | Some v =>
      if N.ltb ULONG_MAX v then None
      else Some (if neg then ((2 ^ 64 - v) mod 2 ^ 64)%N else v)
  end.

(** How a call of [decode_chunked] ends. *)
Inductive outcome : Type :=
| Returned (result : string)
    (* the function returns [result] *)
| BackOfEmptyLine
    (* [line.back()] was evaluated on an empty [line]: a read outside the
       string, with no defined behaviour *)
| LengthError
    (* [std::string chunk_data(chunk_size, 0)] threw [std::length_error]:
       [chunk_size] is above [max_size]; the exception leaves the function *)
| BadAlloc.
    (* [std::string chunk_data(chunk_size, 0)] threw [std::bad_alloc]: the
       allocator has no block of [chunk_size] bytes; the exception leaves
       the function *)

(** The [while (std::getline(stream, line))] loop of [decode_chunked], with
    [fuel] bounding the number of iterations; [None] when it runs out.
    [available] is the size of the largest block that the allocator
    gives. *)
Fixpoint decode_loop (available : N) (fuel : nat) (stream : string) (result : string)
    : option outcome :=
  match fuel with
  | 0 => None
  | S fuel =>
      match Str.getline stream with
      | None => Some (Returned result)
      | Some (line, stream) =>
          (* if (line.back() == '\r') line.pop_back(); *)
          match Str.back line with
          | None => Some BackOfEmptyLine
          | Some c =>
              let line := if Ascii.eqb c Str.CR then Str.pop_back line else line in
              if Str.empty line then decode_loop available fuel stream result
              else
                match stoul16 line with
                | None => Some (Returned result)          (* catch (...) { break; } *)
                | Some chunk_size =>
                    if N.eqb chunk_size 0 then Some (Returned result)
                    else if N.ltb max_size chunk_size then Some LengthError
                    else if N.ltb available chunk_size then Some BadAlloc
                    else
                      let '(chunk_data, stream) :=
                        Str.read_into (N.to_nat chunk_size) stream in
                      let result := result +:+ chunk_data in
                      (* std::getline(stream, line); *)
                      let stream :=
                        match Str.getline stream with
                        | None => stream
                        | Some (_, stream') => stream'
                        end in
                      decode_loop available fuel stream result
                end
          end
      end
  end.

(** [std::string decode_chunked(const std::string& data)]. Every iteration
    of the loop consumes at least one character, so [length data + 1]
    iterations are always enough (see [decode_loop_fuel]).

    The heap is taken to hold a block as large as [data] itself, and
    [headroom] bytes more: a chunk of up to [length data + headroom] bytes
    is allocated, a larger one is not. The strings that hold parts of
    [data] and of the result are taken to be allocated. *)
Definition decode_chunked (headroom : N) (data : string) : option outcome :=
  decode_loop (N.of_nat (String.length data) + headroom)
              (S (String.length data)) data "".


(** The bytes of all chunks, in order. *)
Fixpoint chunk_bytes (chunks : list (string * string)) : string :=
  match chunks with
  | [] => ""
  | (_, bytes) :: rest => bytes +:+ chunk_bytes rest
  end.

(** A chunk as the wire format asks for it (again after the spec, not
    the code): the size line holds no
    ['\n'] and reads, in base 16, as the number of bytes of the chunk; the
    chunk is not empty and fits in a string. *)
Definition well_formed_chunk (c : string * string) : bool :=
  let '(size_line, bytes) := c in
  match Str.find_char Str.LF size_line with None => true | Some _ => false end
  && match stoul16 size_line with
     | Some n => N.eqb n (N.of_nat (String.length bytes))
     | None => false
     end
  && negb (Str.empty bytes)
  && N.leb (N.of_nat (String.length bytes)) max_size.

End Chunked.

(* ===================================================================== *)
(** * Exceptions *)
(* ===================================================================== *)

Module Exception.

(** The dynamic class of a thrown object: the only tag a [std::exception]
    carries besides its message. *)
Inductive class : Type :=
| runtime_error
| system_error
| other_exception.

(** A thrown [std::exception]: its class and the text of [what()]. *)
Record t : Type := mk { cls : class; what : string }.

End Exception.

(* ===================================================================== *)
(** * Binary floating point *)
(* ===================================================================== *)

(** [double]: IEEE 754 binary64, rounding to nearest with ties to even.
    A finite value is the rational it denotes, so the two zeros are one
    value; the infinities and the NaNs are one value too, [NonFinite]: no
    operation used here leads from them back to a finite value, and their
    conversion to an integer is undefined in each case. *)
Module Double.

Local Open Scope Q_scope.

Inductive t : Type :=
| Finite (value : Q)
| NonFinite.

Definition two_pow (e : Z) : Q := 2 ^ e.

(** The exponent of the binade of [q > 0]: [2^(ilog2 q) <= q < 2^(ilog2 q + 1)]. *)
Definition ilog2 (q : Q) : Z :=
  let k := (Z.log2 (Qnum q) - Z.log2 (Zpos (Qden q)))%Z in
  if Qle_bool (two_pow k) q then k else (k - 1)%Z.

(** The nearest integer, the even one of two that are equally near. *)
Definition rne (q : Q) : Z :=
  let f := Qfloor q in
  match Qcompare (q - inject_Z f) (1 # 2) with
  | Lt => f
  | Gt => (f + 1)%Z
  | Eq => if Z.even f then f else (f + 1)%Z
  end.

(** The exponent of the unit in the last place of the 53-bit significand
    that holds [q]; [-1074] for the subnormal numbers. *)
Definition ulp_exponent (q : Q) : Z := Z.max (ilog2 (Qabs q) - 52) (-1074).

(** [q] rounded to 53 bits, the exponent not bounded above. *)
Definition nearest (q : Q) : Q :=
  let e := ulp_exponent q in
  inject_Z (rne (q / two_pow e)) * two_pow e.

(** The [double] that an operation with the exact result [q] returns; a
    result that rounds to [2^1024] or beyond in size overflows. *)
Definition round (q : Q) : t :=
  if Qeq_bool q 0 then Finite 0
  else
    let r := nearest q in
    if Qle_bool (two_pow 1024) (Qabs r) then NonFinite else Finite (Qred r).

(** The conversion of a [long long] to [double]. *)
Definition of_int64 (n : Z) : t := round (inject_Z n).

(** [x * y] *)
Definition mul (x y : t) : t :=
  match x, y with
  | Finite a, Finite b => round (a * b)
  | _, _ => NonFinite
  end.

(** [static_cast<long long>(x)]: the fraction is discarded. [None] when
    the integral part does not fit in 64 bits or [x] is not finite: the
    conversion is then undefined. *)
Definition to_long_long (x : t) : option Z :=
  match x with
  | Finite q =>
      let z := Z.quot (Qnum q) (Zpos (Qden q)) in
      if ((- 2 ^ 63 <=? z) && (z <? 2 ^ 63))%Z then Some z else None
  | NonFinite => None
  end.

(** A power function that rounds correctly, as [std::pow] does wherever
    the power is itself a [double]. *)
Definition pow_nearest (x : Q) (k : Z) : t :=
  if Qeq_bool x 0 && (k <? 0)%Z then NonFinite else round (x ^ k).

End Double.

(* ===================================================================== *)
(** * Retry policy *)
(* ===================================================================== *)

(** [class RetryPolicy] *)
Module RetryPolicy.

(** The private members. Durations are counts of milliseconds; the
    [double] [backoff_factor_] is the rational it denotes. *)
Record t : Type := mk {
  max_retries_ : Z;
  initial_delay_ : Z;
  backoff_factor_ : Q;
  max_delay_ : Z;
  retry_on_timeout_ : bool;
  retry_on_connection_error_ : bool;
  retry_on_5xx_ : bool;
  current_attempt_ : Z
}.

(** The constructor: [current_attempt_(0)]. *)
Definition make (max_retries initial_delay : Z) (backoff_factor : Q)
    (max_delay : Z) (retry_on_timeout retry_on_connection_error retry_on_5xx : bool) : t :=
  mk max_retries initial_delay backoff_factor max_delay
     retry_on_timeout retry_on_connection_error retry_on_5xx 0.

(** [error_msg.find(needle) != std::string::npos] *)
Definition found (needle error_msg : string) : bool :=
  match Str.find needle error_msg with
  | Some _ => true
  | None => false
  end.

(** [bool should_retry(const std::exception& e, int status_code = 0) const] *)
Definition should_retry (p : t) (e : Exception.t) (status_code : Z) : bool :=
  if (current_attempt_ p >=? max_retries_ p)%Z then false
  else
    let error_msg := Exception.what e in
    (* Check for timeout errors *)
    if retry_on_timeout_ p &&
       (found "timeout" error_msg || found "Timeout" error_msg
        || found "timed out" error_msg)
    then true
    (* Check for connection errors *)
    else if retry_on_connection_error_ p &&
       (found "Connection" error_msg || found "connection" error_msg
        || found "refused" error_msg || found "reset" error_msg
        || found "broken pipe" error_msg || found "network" error_msg)
    then true
    (* Check for 5xx server errors *)
    else if retry_on_5xx_ p && (status_code >=? 500)%Z && (status_code <? 600)%Z
    then true
    else false.

(** [void increment_attempt()] *)
Definition increment_attempt (p : t) : t :=
  mk (max_retries_ p) (initial_delay_ p) (backoff_factor_ p) (max_delay_ p)
     (retry_on_timeout_ p) (retry_on_connection_error_ p) (retry_on_5xx_ p)
     (current_attempt_ p + 1).

(** [void reset()] *)
Definition reset (p : t) : t :=
  mk (max_retries_ p) (initial_delay_ p) (backoff_factor_ p) (max_delay_ p)
     (retry_on_timeout_ p) (retry_on_connection_error_ p) (retry_on_5xx_ p) 0.

(** The message of [e] is one that the timeout test of [should_retry]
    accepts, resp. the connection test. *)
Definition timeout_text (msg : string) : Prop :=
  Str.contains "timeout" msg ∨ Str.contains "Timeout" msg ∨ Str.contains "timed out" msg.

Definition connection_text (msg : string) : Prop :=
  Str.contains "Connection" msg ∨ Str.contains "connection" msg
  ∨ Str.contains "refused" msg ∨ Str.contains "reset" msg
  ∨ Str.contains "broken pipe" msg ∨ Str.contains "network" msg.

(** The product that the spec writes [initial_delay * factor^k], in exact
    arithmetic. *)
Definition stated_base (p : t) : Q :=
  inject_Z (initial_delay_ p) * backoff_factor_ p ^ current_attempt_ p.

(** The bounds that the spec states for a backoff delay [d] drawn at a
    retry attempt:
    [0.75 * initial * factor^k <= d <= min (1.25 * initial * factor^k) max]. *)
Definition within_stated_bounds (p : t) (d : Z) : Prop :=
  ((3 # 4) * stated_base p <= inject_Z d)%Q
  ∧ (inject_Z d <= Qmin ((5 # 4) * stated_base p) (inject_Z (max_delay_ p)))%Q.

Section GetDelay.

(** [std::pow] of the C library, which [get_delay] calls with the factor
    and the attempt count (an [int], converted to [double] without
    rounding). The C++ standard does not fix the rounding of [std::pow];
    it is a parameter of [get_delay]. *)
Variable pow : Q → Z → Double.t.

(** [double base_delay = initial_delay_.count() *
                          std::pow(backoff_factor_, current_attempt_);] *)
Definition base_delay (p : t) : Double.t :=
  Double.mul (Double.of_int64 (initial_delay_ p))
             (pow (backoff_factor_ p) (current_attempt_ p)).

(** [std::chrono::milliseconds get_delay() const]; [jitter] is the value
    that [dis(gen)] draws from [uniform_real_distribution<>(0.75, 1.25)].
    [None] when [static_cast<long long>(base_delay * jitter)] is
    undefined. *)
Definition get_delay (p : t) (jitter : Q) : option Z :=
  if (current_attempt_ p =? 0)%Z then Some (initial_delay_ p)
  else
    (* Calculate exponential backoff with jitter *)
    match Double.to_long_long
            (Double.mul (base_delay p) (Double.Finite jitter)) with
    | None => None
    | Some delay =>
        (* Cap at max delay *)
        Some (if (delay >? max_delay_ p)%Z then max_delay_ p else delay)
    end.

End GetDelay.

End RetryPolicy.

(* ===================================================================== *)
(** * Responses *)
(* ===================================================================== *)

(** [std::map<std::string, std::string>]: a [gmap], and the order in which
    a range-based [for] visits it. *)
Module StdMap.

(** [std::less<std::string>] on the keys of two entries. *)
Definition key_le (p q : string * string) : Prop :=
  String.le (fst p) (fst q).

Global Instance key_le_dec (p q : string * string) : Decision (key_le p q).
Proof. unfold key_le. apply _. Defined.

(** The entries in increasing order of their keys. *)
Definition items (m : gmap string string) : list (string * string) :=
  merge_sort key_le (map_to_list m).

End StdMap.

(** [std::tolower] in the C locale: the letters [A] to [Z] go to [a] to
    [z], every other character value is returned as it is. *)
Definition tolower (c : ascii) : ascii :=
  let n := N_of_ascii c in
  if N.leb 65 n && N.leb n 90 then ascii_of_N (n + 32) else c.

(** [std::equal(a.begin(), a.end(), b.begin(), pred)] with the predicate of
    [strcasecmp_impl]; only called on strings of one size. *)
Fixpoint equal_tolower (a b : string) : bool :=
  match a, b with
  | String ca a', String cb b' =>
      if Ascii.eqb (tolower ca) (tolower cb) then equal_tolower a' b' else false
  | EmptyString, _ => true
  | String _ _, EmptyString => false
  end.

(** [bool strcasecmp_impl(const std::string& a, const std::string& b)] *)
Definition strcasecmp_impl (a b : string) : bool :=
  Nat.eqb (String.length a) (String.length b) && equal_tolower a b.

(** Names that match case-insensitively, in the words of the claim on
    [get_header] and not of the code: two names of the same length whose
    characters, place by place, are the same or are the upper-case and the
    lower-case form of one letter. *)
Module IgnoringCase.

(** The letters: each upper-case one with its lower-case form. *)
Definition letters : list (ascii * ascii) :=
  zip (String.list_ascii_of_string "ABCDEFGHIJKLMNOPQRSTUVWXYZ")
      (String.list_ascii_of_string "abcdefghijklmnopqrstuvwxyz").

Definition same_letter (x y : ascii) : Prop :=
  x = y ∨ In (x, y) letters ∨ In (y, x) letters.

Inductive matches : string → string → Prop :=
| matches_empty : matches "" ""
| matches_letter (x y : ascii) (a b : string) :
    same_letter x y → matches a b → matches (String x a) (String y b).

(** [same_letter] as a test, and the 256 characters to run it on. *)
Definition same_letterb (x y : ascii) : bool :=
  Ascii.eqb x y
  || existsb (λ p, (Ascii.eqb x (fst p) && Ascii.eqb y (snd p))
                   || (Ascii.eqb y (fst p) && Ascii.eqb x (snd p))) letters.

Definition all_ascii : list ascii := map ascii_of_nat (seq 0 256).

End IgnoringCase.

(** [class HttpResponse] *)
Module HttpResponse.

Record t : Type := mk {
  status_code_ : Z;
  reason_ : string;
  headers_ : gmap string string;
  body_ : string;
  redirect_chain_ : list string
}.

(** [HttpResponse() : status_code_(0) {}] *)
Definition init : t := mk 0 "" ∅ "" [].

Definition set_status_code (r : t) (code : Z) : t :=
  mk code (reason_ r) (headers_ r) (body_ r) (redirect_chain_ r).
Definition set_reason (r : t) (reason : string) : t :=
  mk (status_code_ r) reason (headers_ r) (body_ r) (redirect_chain_ r).
(** [headers_[key] = value;] *)
Definition add_header (r : t) (key value : string) : t :=
  mk (status_code_ r) (reason_ r) (<[key:=value]> (headers_ r)) (body_ r)
     (redirect_chain_ r).
Definition set_body (r : t) (body : string) : t :=
  mk (status_code_ r) (reason_ r) (headers_ r) body (redirect_chain_ r).
(** [redirect_chain_.push_back(url);] *)
Definition add_redirect (r : t) (url : string) : t :=
  mk (status_code_ r) (reason_ r) (headers_ r) (body_ r)
     (redirect_chain_ r ++ [url]).

Definition status_code (r : t) : Z := status_code_ r.
Definition headers (r : t) : gmap string string := headers_ r.
Definition redirect_chain (r : t) : list string := redirect_chain_ r.

(** [for (const auto& [k, v] : headers_) if (strcasecmp_impl(k, key)) return v;]
    over the entries still to visit; [None] when the loop falls through. *)
Fixpoint scan_headers (key : string) (entries : list (string * string)) : option string :=
  match entries with
  | [] => None
  | (k, v) :: rest =>
      if strcasecmp_impl k key then Some v else scan_headers key rest
  end.

(** [std::string get_header(const std::string& key) const] *)
Definition get_header (r : t) (key : string) : string :=
  match headers_ r !! key with
  | Some v => v                                   (* it != headers_.end() *)
  | None =>
      match scan_headers key (StdMap.items (headers_ r)) with
      | Some v => v
      | None => ""
      end
  end.

End HttpResponse.

(* ===================================================================== *)
(** * Requests, URLs, configuration *)
(* ===================================================================== *)

(** [enum class HttpMethod] *)
Module HttpMethod.

Inductive t : Type := GET | POST | PUT | DELETE | HEAD | PATCH | OPTIONS.

End HttpMethod.

(** [class HttpRequest] *)
Module HttpRequest.

(** Modelled from the spec: [http_request.hpp] is not among the sources.
    A request is a method, an absolute URL, a mapping of header name to
    value and a body; the clients construct it from a method and a URL and
    fill it with [add_header], as [HttpResponse] is filled. *)
Record t : Type := mk {
  method_ : HttpMethod.t;
  url_ : string;
  headers_ : gmap string string;
  body_ : string
}.

(** [HttpRequest(method, url)] *)
Definition make (method : HttpMethod.t) (url : string) : t := mk method url ∅ "".

Definition add_header (r : t) (key value : string) : t :=
  mk (method_ r) (url_ r) (<[key:=value]> (headers_ r)) (body_ r).
Definition set_body (r : t) (body : string) : t :=
  mk (method_ r) (url_ r) (headers_ r) body.

Definition method (r : t) : HttpMethod.t := method_ r.
Definition url (r : t) : string := url_ r.
Definition headers (r : t) : gmap string string := headers_ r.
Definition body (r : t) : string := body_ r.

End HttpRequest.

(** [struct UrlInfo] *)
Module UrlInfo.

(** Modelled from the spec: [url_parser.hpp] is not among the sources. The
    members are those the clients read. *)
Record t : Type := mk {
  scheme : string;
  host : string;
  port : string;
  path : string;
  is_https : bool
}.

End UrlInfo.

(** [struct ClientConfig] *)
Module ClientConfig.

(** Modelled from the spec: [client_config.hpp] is not among the sources.
    Of the options the spec lists, the ones that bound redirect traversal
    and size the connection pool. *)
Record t : Type := mk {
  follow_redirects : bool;
  max_redirects : Z;
  enable_connection_pool : bool;
  max_connections_per_host : nat
}.

End ClientConfig.

(* ===================================================================== *)
(** * The client *)
(* ===================================================================== *)

(** [class HttpClient]. [class CoroHttpClient] has the same redirect loop,
    line for line, with [co_await] in front of the calls; its
    [co_execute_http] and [co_execute_https] construct and destroy their
    socket in the same places and have no timers, so the two timeout
    outcomes below do not occur there. *)
Module HttpClient.

(** What the outside world does to one transport exchange. *)
Inductive transport : Type :=
| ResolveFails (what : string)   (* [resolver.resolve] throws *)
| ConnectTimesOut                (* the connect timer fires first *)
| ConnectFails (what : string)   (* [connect_ec] is set (TLS: also by the handshake) *)
| WriteFails (what : string)     (* [asio::write] throws *)
| ReadTimesOut                   (* the read timer fires first *)
| ReadFails (what : string)      (* [read_some] reports an error other than end of file *)
| Receives (response_data : string)
| NeverAnswers.
    (* the peer takes the request, sends nothing and keeps the connection
       open: [read_some] does not return. The handler of the read timer
       would close the socket, but handlers run only inside
       [io_context_.run()], which [HttpClient] never calls. *)

(** The observable state the client acts on. *)
Record world : Type := mkWorld {
  sockets_created : nat;         (* sockets constructed so far *)
  sockets_open : nat;            (* constructed and not yet destroyed *)
  peak_open : nat;               (* the highest value [sockets_open] has had *)
  exchanges : nat;               (* calls of [execute_http] / [execute_https] so far *)
  requested : list HttpRequest.t (* arguments of [execute_with_redirects], oldest first *)
}.

Definition initial_world : world := mkWorld 0 0 0 0 [].

(** How a call ends. *)
Inductive ending (A : Type) : Type :=
| Returns (a : A)             (* it returns [a] *)
| Throws (e : Exception.t)    (* the exception [e] leaves it *)
| Hangs.                      (* it never comes back *)

Arguments Returns {A} a.
Arguments Throws {A} e.
Arguments Hangs {A}.

Definition result : Type := ending HttpResponse.t.

(** The call comes back. *)
Definition comes_back {A : Type} (r : ending A) : bool :=
  match r with
  | Hangs => false
  | _ => true
  end.

(** [asio::ip::tcp::socket socket(io_context_);] *)
Definition construct_socket (w : world) : world :=
  mkWorld (S (sockets_created w)) (S (sockets_open w))
          (Nat.max (peak_open w) (S (sockets_open w)))
          (exchanges w) (requested w).

(** The destructor of the local [socket], run on every way out. *)
Definition destroy_socket (w : world) : world :=
  mkWorld (sockets_created w) (Nat.pred (sockets_open w)) (peak_open w)
          (exchanges w) (requested w).

Definition count_exchange (w : world) : world :=
  mkWorld (sockets_created w) (sockets_open w) (peak_open w)
          (S (exchanges w)) (requested w).

Definition log_request (request : HttpRequest.t) (w : world) : world :=
  mkWorld (sockets_created w) (sockets_open w) (peak_open w)
          (exchanges w) (requested w ++ [request]).

(** The call did not throw. *)
Definition no_throw {A : Type} (r : Exception.t + A) : bool :=
  match r with
  | inr _ => true
  | inl _ => false
  end.

(** The exchange gets past name resolution, to the point where the socket
    is constructed. *)
Definition resolves (t : transport) : bool :=
  match t with
  | ResolveFails _ => false
  | _ => true
  end.

(** The exchange comes to an end. *)
Definition answers (t : transport) : bool :=
  match t with
  | NeverAnswers => false
  | _ => true
  end.

(** [r] has the form of the request that a redirect of [request]
    produces: method GET, the headers of [request], no body. *)
Definition follow_up_of (request r : HttpRequest.t) : Prop :=
  HttpRequest.method r = HttpMethod.GET
  ∧ HttpRequest.headers r = HttpRequest.headers request
  ∧ HttpRequest.body r = "".

Section Client.

(** The members of the client and the functions of the headers that are
    not among the sources. *)
Variable config_ : ClientConfig.t.
Variable parse_url : string → Exception.t + UrlInfo.t.
Variable parse_response : string → Exception.t + HttpResponse.t.
(** The peer and the network: what happens to the [n]-th exchange. *)
Variable network : nat → HttpRequest.t → UrlInfo.t → transport.

(** What the caller of an exchange gets for each thing the transport can
    do: the exception thrown at that point, or the parsed response, or
    nothing ever. *)
Definition outcome (t : transport) : result :=
  match t with
  | ResolveFails what => Throws (Exception.mk Exception.system_error what)
  | ConnectTimesOut =>
      Throws (Exception.mk Exception.runtime_error "Connection timeout")
  | ConnectFails what => Throws (Exception.mk Exception.system_error what)
  | WriteFails what => Throws (Exception.mk Exception.system_error what)
  | ReadTimesOut =>
      Throws (Exception.mk Exception.runtime_error "Read timeout")
  | ReadFails what => Throws (Exception.mk Exception.system_error what)
  | Receives response_data =>
      match parse_response response_data with
      | inl e => Throws e
      | inr response => Returns response
      end
  | NeverAnswers => Hangs
  end.

(** [HttpResponse execute_http(const HttpRequest& request, const UrlInfo& url_info)].
    The name is resolved first; the local [socket] is constructed next and
    lives to the end of the function, however the function is left. When
    the function is never left, the socket stays open. *)
Definition execute_http (request : HttpRequest.t) (url_info : UrlInfo.t)
    (w : world) : world * result :=
  let t := network (exchanges w) request url_info in
  let w := count_exchange w in
  if resolves t then
    let w := construct_socket w in
    if answers t then (destroy_socket w, outcome t) else (w, outcome t)
  else (w, outcome t).

(** [HttpResponse execute_https(const HttpRequest& request, const UrlInfo& url_info)]:
    the same steps over [asio::ssl::stream<asio::ip::tcp::socket>], the
    handshake included in the connect step. *)
Definition execute_https (request : HttpRequest.t) (url_info : UrlInfo.t)
    (w : world) : world * result :=
  let t := network (exchanges w) request url_info in
  let w := count_exchange w in
  if resolves t then
    let w := construct_socket w in
    if answers t then (destroy_socket w, outcome t) else (w, outcome t)
  else (w, outcome t).

(** The first lines of [execute_with_redirects]: parse the URL and run
    one exchange over the transport it names. *)
Definition exchange_once (request : HttpRequest.t) (w : world)
    : world * ending (UrlInfo.t * HttpResponse.t) :=
  match parse_url (HttpRequest.url request) with
  | inl e => (w, Throws e)
  | inr url_info =>
      let '(w, r) :=
        if UrlInfo.is_https url_info
        then execute_https request url_info w
        else execute_http request url_info w in
      match r with
      | Returns response => (w, Returns (url_info, response))
      | Throws e => (w, Throws e)
      | Hangs => (w, Hangs)
      end
  end.

(** A path-only [Location] is put after the scheme, host and port of the
    URL that answered. *)
Definition resolve_location (url_info : UrlInfo.t) (location : string) : string :=
  if Str.starts_with "/"%char location then
    UrlInfo.scheme url_info +:+ "://" +:+ UrlInfo.host url_info +:+
    (if negb (Str.eqb (UrlInfo.port url_info)
                      (if UrlInfo.is_https url_info then "443" else "80"))
     then ":" +:+ UrlInfo.port url_info else "") +:+
    location
  else location.

(** [HttpRequest redirect_req(HttpMethod::GET, location);
     for (const auto& [key, value] : request.headers())
         redirect_req.add_header(key, value);] *)
Definition make_redirect_req (request : HttpRequest.t) (location : string)
    : HttpRequest.t :=
  foldl (λ redirect_req '(key, value), HttpRequest.add_header redirect_req key value)
        (HttpRequest.make HttpMethod.GET location)
        (StdMap.items (HttpRequest.headers request)).

(** [for (const auto& url : response.redirect_chain())
         redirect_resp.add_redirect(url);] *)
Definition copy_chain (response redirect_resp : HttpResponse.t) : HttpResponse.t :=
  foldl HttpResponse.add_redirect redirect_resp (HttpResponse.redirect_chain response).

(** What the caller of [execute_with_redirects] gets when the call for
    the follow-up request ends with [res]: what that call returns, with
    the chain of [response] copied to it, or what it throws. *)
Definition after_redirect (response : HttpResponse.t) (res : result) : result :=
  match res with
  | Returns redirect_resp =>
      Returns (copy_chain
                 (HttpResponse.add_redirect response
                    (HttpResponse.get_header response "Location"))
                 redirect_resp)
  | Throws e => Throws e
  | Hangs => Hangs
  end.

(** The test that guards the redirect branch. *)
Definition wants_redirect (redirect_count : Z) (response : HttpResponse.t) : bool :=
  ClientConfig.follow_redirects config_
  && (redirect_count <? ClientConfig.max_redirects config_)%Z
  && ((HttpResponse.status_code response >=? 300)%Z
      && (HttpResponse.status_code response <? 400)%Z).

(** [HttpResponse execute_with_redirects(const HttpRequest& request, int redirect_count)],
    with [fuel] bounding the depth of the recursion; [None] when it runs
    out. *)
Fixpoint execute_with_redirects_fuel (fuel : nat) (request : HttpRequest.t)
    (redirect_count : Z) (w : world) : option (world * result) :=
  match fuel with
  | 0 => None
  | S fuel =>
      let w := log_request request w in
      match exchange_once request w with
      | (w, Throws e) => Some (w, Throws e)
      | (w, Hangs) => Some (w, Hangs)
      | (w, Returns (url_info, response)) =>
          if wants_redirect redirect_count response then
            let location := HttpResponse.get_header response "Location" in
            if negb (Str.empty location) then
              let response := HttpResponse.add_redirect response location in
              let location := resolve_location url_info location in
              let redirect_req := make_redirect_req request location in
              match execute_with_redirects_fuel fuel redirect_req
                      (redirect_count + 1) w with
              | None => None
              | Some (w, Throws e) => Some (w, Throws e)
              | Some (w, Hangs) => Some (w, Hangs)
              | Some (w, Returns redirect_resp) =>
                  Some (w, Returns (copy_chain response redirect_resp))
              end
            else Some (w, Returns response)
          else Some (w, Returns response)
      end
  end.

(** The recursion goes one level deeper only while [redirect_count] is
    below [max_redirects], so this much fuel is never used up (see
    [execute_with_redirects_total]). *)
Definition execute_with_redirects (request : HttpRequest.t) (redirect_count : Z)
    (w : world) : option (world * result) :=
  execute_with_redirects_fuel
    (S (Z.to_nat (ClientConfig.max_redirects config_ - redirect_count)))
    request redirect_count w.

(** [HttpResponse execute(const HttpRequest& request)] *)
Definition execute (request : HttpRequest.t) (w : world) : option (world * result) :=
  execute_with_redirects request 0 w.

(** Sequential requests: each [execute] starts when the one before has
    returned or thrown; none starts after one that never comes back. *)
Fixpoint execute_all (requests : list HttpRequest.t) (w : world)
    : option (world * ending unit) :=
  match requests with
  | [] => Some (w, Returns tt)
  | request :: rest =>
      match execute request w with
      | None => None
      | Some (w, Hangs) => Some (w, Hangs)
      | Some (w, _) => execute_all rest w
      end
  end.

(** What a call that comes back may have done to the world between [w]
    and [w'], whatever it returned: every socket it constructed is destroyed again,
    never more than one of them is open at a time, and it constructed one
    socket for each exchange that got past name resolution. *)
Record effect (w w' : world) : Prop := mkEffect {
  eff_open : sockets_open w' = sockets_open w;
  eff_peak : peak_open w' ≤ Nat.max (peak_open w) (S (sockets_open w));
  eff_peak_mono : peak_open w ≤ peak_open w';
  eff_created_lo : sockets_created w ≤ sockets_created w';
  eff_exchanges_lo : exchanges w ≤ exchanges w';
  eff_created_hi :
    sockets_created w' - sockets_created w ≤ exchanges w' - exchanges w;
  eff_created_eq :
    (∀ n r u, resolves (network n r u) = true) →
    sockets_created w' - sockets_created w = exchanges w' - exchanges w
}.

End Client.

End HttpClient.

(** * A peer for the examples *)

(** One origin, [http://a.example], whose server answers every request
    either with [200] or with [302] and [Location: /next]. *)
Module Scenario.

Definition url_info : UrlInfo.t := UrlInfo.mk "http" "a.example" "80" "/" false.

(** Every URL of the scenario is one of the origin. *)
Definition parse_url (url : string) : Exception.t + UrlInfo.t := inr url_info.

Definition ok : HttpResponse.t :=
  HttpResponse.set_status_code HttpResponse.init 200.

Definition found_next : HttpResponse.t :=
  HttpResponse.add_header (HttpResponse.set_status_code HttpResponse.init 302)
    "Location" "/next".

(** The two byte strings the server sends, and what they parse to. *)
Definition parse_response (response_data : string) : Exception.t + HttpResponse.t :=
  if Str.eqb response_data "302" then inr found_next else inr ok.

Definition serves_ok (n : nat) (request : HttpRequest.t) (u : UrlInfo.t)
    : HttpClient.transport :=
  HttpClient.Receives "200".

Definition redirects_always (n : nat) (request : HttpRequest.t) (u : UrlInfo.t)
    : HttpClient.transport :=
  HttpClient.Receives "302".

(** A peer that takes every request and never answers. *)
Definition stays_silent (n : nat) (request : HttpRequest.t) (u : UrlInfo.t)
    : HttpClient.transport :=
  HttpClient.NeverAnswers.

(** Redirects are followed, one hop at most; the pool options of the spec
    are set to five connections per host. *)
Definition config : ClientConfig.t := ClientConfig.mk true 1 true 5.

Definition get_a : HttpRequest.t :=
  HttpRequest.make HttpMethod.GET "http://a.example/".

Definition head_a : HttpRequest.t :=
  HttpRequest.add_header (HttpRequest.make HttpMethod.HEAD "http://a.example/")
    "Accept" "text/html".

End Scenario.

(** * Events as text *)

(** [SseEvent::to_string] and the shapes of stream that the properties of
    the two parsers are stated on. *)
Module SseText.

(** [std::string to_string() const] of [struct SseEvent] *)
Definition to_string (e : SseEvent.t) : string :=
  (if negb (Str.empty (SseEvent.type e))
   then "event: " +:+ SseEvent.type e +:+ Str.lf else "") +:+
  (if negb (Str.empty (SseEvent.id e))
   then "id: " +:+ SseEvent.id e +:+ Str.lf else "") +:+
  (if negb (Str.empty (SseEvent.retry e))
   then "retry: " +:+ SseEvent.retry e +:+ Str.lf else "") +:+
  (if negb (Str.empty (SseEvent.data e))
   then "data: " +:+ SseEvent.data e +:+ Str.lf else "").

(** The text of a line that gives [value] to the field [name]. *)
Definition field_line (name value : string) : string := name +:+ ": " +:+ value.

(** The stream made of the given lines, each closed by [eol]. *)
Fixpoint unlines (eol : string) (lines : list string) : string :=
  match lines with
  | [] => ""
  | l :: rest => l +:+ eol +:+ unlines eol rest
  end.

(** The text can stand on one line and comes back from it unchanged: it
    holds no line feed and does not end with a carriage return. *)
Definition one_line (v : string) : bool :=
  match Str.find_char Str.LF v with None => true | Some _ => false end
  && negb (Str.ends_with Str.CR v).

(** A field name: not empty, without a colon, fit for one line. *)
Definition field_name (name : string) : bool :=
  negb (Str.empty name)
  && match Str.find_char Str.COLON name with None => true | Some _ => false end
  && one_line name.

(** What either parser does with the field [field] and its [value]. *)
Definition store (field value : string) (st : Sse.state) : Sse.state :=
  let '(current_event, data_lines, events) := st in
  if Str.eqb field "event" then
    (SseEvent.set_type current_event value, data_lines, events)
  else if Str.eqb field "data" then
    (current_event, data_lines ++ [value], events)
  else if Str.eqb field "id" then
    (SseEvent.set_id current_event value, data_lines, events)
  else if Str.eqb field "retry" then
    (SseEvent.set_retry current_event value, data_lines, events)
  else
    (SseEvent.set_field current_event field value, data_lines, events).

(** One line for a field that is not empty, none for an empty one. *)
Definition optional_line (name value : string) : list string :=
  if negb (Str.empty value) then [field_line name value] else [].

(** The lines that [to_string] writes. *)
Definition to_lines (e : SseEvent.t) : list string :=
  optional_line "event" (SseEvent.type e) ++ optional_line "id" (SseEvent.id e)
  ++ optional_line "retry" (SseEvent.retry e)
  ++ optional_line "data" (SseEvent.data e).

(** A field name that the parsers do not know: it goes to [fields]. *)
Definition custom_name (name : string) : bool :=
  field_name name
  && negb (Str.eqb name "event") && negb (Str.eqb name "data")
  && negb (Str.eqb name "id") && negb (Str.eqb name "retry").

(** The stream is empty or ends with a line feed: no line is cut short. *)
Definition line_complete (s : string) : bool :=
  match Str.back s with
  | Some c => Ascii.eqb c Str.LF
  | None => true
  end.

End SseText.

(** * Chunked bodies on the wire *)

Module ChunkedWire.

(** Well-formed chunks on the wire, followed by [tail] in place of the
    zero-size chunk. *)
Fixpoint encode_chunks_then (chunks : list (string * string)) (tail : string) : string :=
  match chunks with
  | [] => tail
  | (size_line, bytes) :: rest =>
      size_line +:+ Str.crlf +:+ bytes +:+ Str.crlf +:+ encode_chunks_then rest tail
  end.

(** A size line at which the loop of [decode_chunked] breaks: it reads as
    zero, or it is not empty and [std::stoul] throws on it. *)
Definition stops_decoding (line : string) : bool :=
  match Chunked.stoul16 line with
  | Some n => N.eqb n 0
  | None => negb (Str.empty line)
  end
  && match Str.find_char Str.LF line with None => true | Some _ => false end.

(** [n] NUL characters: [std::string(n, 0)]. *)
Fixpoint nuls (n : nat) : string :=
  match n with
  | 0 => ""
  | S n => String Ascii.zero (nuls n)
  end.

End ChunkedWire.

(** * Redirect chains *)

Module RedirectChain.

Section RedirectChain.

Variable parse_url : string → Exception.t + UrlInfo.t.

(** [r] is a request for the [Location] value [location] of the response
    to [request]: its URL is [location], resolved against the parsed URL
    of [request], the one that answered. *)
Definition issued_for (request : HttpRequest.t) (location : string)
    (r : HttpRequest.t) : Prop :=
  ∃ url_info,
    parse_url (HttpRequest.url request) = inr url_info
    ∧ HttpRequest.url r = HttpClient.resolve_location url_info location.

(** The requests [followups] are issued one after the other for the
    [Location] values [locations]: the first for the response to
    [request], each later one for the response to the one before it. *)
Fixpoint resolved_chain (request : HttpRequest.t) (locations : list string)
    (followups : list HttpRequest.t) : Prop :=
  match locations, followups with
  | [], [] => True
  | location :: locations, r :: followups =>
      issued_for request location r ∧ resolved_chain r locations followups
  | _, _ => False
  end.

End RedirectChain.

(** A [parse_url] that takes the root URL of the scenario's origin and
    throws on every other. *)
Definition only_root (url : string) : Exception.t + UrlInfo.t :=
  if Str.eqb url "http://a.example/" then inr Scenario.url_info
  else inl (Exception.mk Exception.runtime_error "Invalid URL").

End RedirectChain.

(** * Reading a response *)

(** [read_with_timeout] of [HttpClient] and [co_read_response] of
    [CoroHttpClient]. The stream is the list of what its successive
    [read_some] calls give: the bytes put into [buffer], the error code,
    and the value [timeout_occurred] has when the call is back. *)
Module ReadLoop.

(** The values of [std::error_code] that the two loops tell apart. *)
Inductive error_code : Type :=
  | success
  | eof
  | stream_truncated
  | operation_aborted
  | other_error (value : nat).

Record read_some : Type := mkRead {
  bytes : string;
  ec : error_code;
  timeout_occurred : bool
}.

(** [ec == asio::error::eof || ec == asio::ssl::error::stream_truncated] *)
Definition ends_stream (c : error_code) : bool :=
  match c with eof | stream_truncated => true | _ => false end.

(** [if (ec)] *)
Definition is_error (c : error_code) : bool :=
  match c with success => false | _ => true end.

(** [if (len > 0) response_data.append(buffer.data(), len);] *)
Definition append (response_data : string) (r : read_some) : string :=
  if 0 <? String.length (bytes r) then response_data +:+ bytes r else response_data.

Section ReadLoop.

(** [std::system_error(ec).what()] *)
Variable message : error_code → string.

(** The loop of [read_with_timeout]; [None] when the list ends before the
    loop does. *)
Fixpoint read_with_timeout_loop (reads : list read_some) (response_data : string)
    : option (Exception.t + string) :=
  match reads with
  | [] => None
  | r :: reads =>
      let response_data := append response_data r in
      if ends_stream (ec r) then Some (inr response_data)
      else
        match ec r with
        | operation_aborted =>
            if timeout_occurred r
            then Some (inl (Exception.mk Exception.runtime_error "Read timeout"))
            else Some (inl (Exception.mk Exception.system_error (message (ec r))))
        | _ =>
            if is_error (ec r)
            then Some (inl (Exception.mk Exception.system_error (message (ec r))))
            else read_with_timeout_loop reads response_data
        end
  end.

Definition read_with_timeout (reads : list read_some) : option (Exception.t + string) :=
  read_with_timeout_loop reads "".

(** The loop of [co_read_response]. *)
Fixpoint co_read_response_loop (reads : list read_some) (response_data : string)
    : option (Exception.t + string) :=
  match reads with
  | [] => None
  | r :: reads =>
      let response_data := append response_data r in
      if ends_stream (ec r) then Some (inr response_data)
      else if is_error (ec r)
      then Some (inl (Exception.mk Exception.system_error (message (ec r))))
      else co_read_response_loop reads response_data
  end.

Definition co_read_response (reads : list read_some) : option (Exception.t + string) :=
  co_read_response_loop reads "".

End ReadLoop.

(** All the bytes of [reads], in the order read. *)
Definition received (reads : list read_some) : string :=
  String.concat "" (map bytes reads).

End ReadLoop.

(** * The verbs of [HttpClient] *)

Module HttpVerbs.

Section HttpVerbs.

Variable config_ : ClientConfig.t.
Variable parse_url : string → Exception.t + UrlInfo.t.
Variable parse_response : string → Exception.t + HttpResponse.t.
Variable network : nat → HttpRequest.t → UrlInfo.t → HttpClient.transport.

Local Abbreviation execute := (HttpClient.execute config_ parse_url parse_response network).

(** [HttpResponse get(const std::string& url)] *)
Definition get (url : string) :=
  execute (HttpRequest.make HttpMethod.GET url).

(** [HttpResponse post(const std::string& url, const std::string& body)] *)
Definition post (url body : string) :=
  execute (HttpRequest.set_body (HttpRequest.make HttpMethod.POST url) body).

(** [HttpResponse put(const std::string& url, const std::string& body)] *)
Definition put (url body : string) :=
  execute (HttpRequest.set_body (HttpRequest.make HttpMethod.PUT url) body).

(** [HttpResponse del(const std::string& url)] *)
Definition del (url : string) :=
  execute (HttpRequest.make HttpMethod.DELETE url).

(** [HttpResponse head(const std::string& url)] *)
Definition head (url : string) :=
  execute (HttpRequest.make HttpMethod.HEAD url).

(** [HttpResponse patch(const std::string& url, const std::string& body)] *)
Definition patch (url body : string) :=
  execute (HttpRequest.set_body (HttpRequest.make HttpMethod.PATCH url) body).

(** [HttpResponse options(const std::string& url)] *)
Definition options (url : string) :=
  execute (HttpRequest.make HttpMethod.OPTIONS url).

End HttpVerbs.

(** What a call hands to [execute_with_redirects]: first one request
    with [method], [url] and [body] and no header, and after it only
    requests with method GET, no body and no header. The log is written
    when [execute_with_redirects] is entered, before the URL is parsed:
    it tells what the client asks for, not what reaches the peer. *)
Definition asks_for (method : HttpMethod.t) (url body : string)
    (w : HttpClient.world) (call : option (HttpClient.world * HttpClient.result))
    : Prop :=
  ∃ w' res followups,
    call = Some (w', res)
    ∧ HttpClient.requested w'
      = HttpClient.requested w ++ HttpRequest.mk method url ∅ body :: followups
    ∧ Forall (λ r, HttpRequest.method r = HttpMethod.GET
                   ∧ HttpRequest.headers r = ∅
                   ∧ HttpRequest.body r = "") followups.

End HttpVerbs.

(* ===================================================================== *)
(** * Part II: properties *)
(* ===================================================================== *)

(** ** Strings and string streams *)

Module StrFacts.

Lemma app_nil_l (s : string) : "" +:+ s = s.
Proof. reflexivity. Qed.

Lemma app_cons (c : ascii) (s t : string) : String c s +:+ t = String c (s +:+ t).
Proof. reflexivity. Qed.

Lemma app_nil_r (s : string) : s +:+ "" = s.
Proof.
  induction s as [|c s IH]; [reflexivity|].
  rewrite app_cons, IH. reflexivity.
Qed.

Lemma app_assoc (s t u : string) : (s +:+ t) +:+ u = s +:+ (t +:+ u).
Proof.
  induction s as [|c s IH]; [reflexivity|].
  rewrite !app_cons, IH. reflexivity.
Qed.

Lemma length_app (s t : string) :
  String.length (s +:+ t) = String.length s + String.length t.
Proof.
  induction s as [|c s IH]; [reflexivity|].
  rewrite app_cons. cbn [String.length]. rewrite IH. reflexivity.
Qed.

Lemma empty_true (s : string) : Str.empty s = true ↔ s = "".
Proof. destruct s; cbn; split; congruence. Qed.

(** [getlines] lists what repeated calls of [getline] return. *)
Lemma getlines_unfold (s : string) :
  Str.getlines s = match Str.getline s with
                   | None => []
                   | Some (l, r) => l :: Str.getlines r
                   end.
Proof.
  induction s as [|c s IH]; [reflexivity|].
  cbn [Str.getlines Str.getline Str.read_until_lf].
  destruct (Ascii.eqb c Str.LF); [reflexivity|].
  rewrite IH. destruct s as [|d s]; [reflexivity|].
  cbn [Str.getline]. destruct (Str.read_until_lf (String d s)); reflexivity.
Qed.

Lemma read_until_lf_length (s : string) :
  String.length (snd (Str.read_until_lf s)) ≤ String.length s.
Proof.
  induction s as [|c s IH]; [cbn; lia|].
  cbn [Str.read_until_lf]. destruct (Ascii.eqb c Str.LF); [cbn; lia|].
  destruct (Str.read_until_lf s) as [l r]. cbn in *. lia.
Qed.

(** A successful [getline] takes at least one character off the stream. *)
Lemma getline_length (s l r : string) :
  Str.getline s = Some (l, r) → String.length r < String.length s.
Proof.
  destruct s as [|c s]; [discriminate|].
  cbn [Str.getline Str.read_until_lf]. intros H.
  destruct (Ascii.eqb c Str.LF).
  - inversion H; subst. cbn. lia.
  - pose proof (read_until_lf_length s) as Hl.
    destruct (Str.read_until_lf s) as [l' r']. inversion H; subst.
    cbn in *. lia.
Qed.

(** A line without ['\n'], followed by ['\n'], is what [getline] returns. *)
Lemma read_until_lf_app (l r : string) :
  Str.find_char Str.LF l = None →
  Str.read_until_lf (l +:+ String Str.LF r) = (l, r).
Proof.
  induction l as [|c l IH]; intros H.
  - reflexivity.
  - rewrite app_cons. cbn [Str.read_until_lf Str.find_char] in *.
    destruct (Ascii.eqb c Str.LF); [discriminate|].
    destruct (Str.find_char Str.LF l); [discriminate|].
    rewrite IH by reflexivity. reflexivity.
Qed.

Lemma getline_app (l r : string) :
  Str.find_char Str.LF l = None →
  Str.getline (l +:+ String Str.LF r) = Some (l, r).
Proof.
  intros H. pose proof (read_until_lf_app l r H) as E.
  destruct l; [reflexivity|]. rewrite app_cons in *. cbn [Str.getline].
  rewrite E. reflexivity.
Qed.

Lemma back_snoc (s : string) (c : ascii) : Str.back (s +:+ String c "") = Some c.
Proof.
  induction s as [|d s IH]; [reflexivity|].
  rewrite app_cons. cbn [Str.back]. rewrite IH.
  destruct (s +:+ String c "") eqn:E; [|reflexivity].
  destruct s; discriminate.
Qed.

Lemma pop_back_snoc (s : string) (c : ascii) : Str.pop_back (s +:+ String c "") = s.
Proof.
  induction s as [|d s IH]; [reflexivity|].
  rewrite app_cons. cbn [Str.pop_back]. rewrite IH.
  destruct (s +:+ String c "") eqn:E; [|reflexivity].
  destruct s; discriminate.
Qed.

(** Reading exactly the bytes that are there. *)
Lemma read_into_exact (b r : string) :
  Str.read_into (String.length b) (b +:+ r) = (b, r).
Proof.
  induction b as [|c b IH]; [reflexivity|].
  rewrite app_cons. cbn [String.length Str.read_into]. rewrite IH. reflexivity.
Qed.

Lemma read_into_length (n : nat) (s : string) :
  String.length (snd (Str.read_into n s)) ≤ String.length s.
Proof.
  revert s. induction n as [|n IH]; intros s; [cbn; lia|].
  destruct s as [|c s]; [cbn; lia|].
  cbn [Str.read_into]. specialize (IH s).
  destruct (Str.read_into n s) as [b r]. cbn in *. lia.
Qed.

(** *** Substring search *)

Lemma substring_0_prefix (s1 s2 : string) :
  String.substring 0 (String.length s1) s2 = s1 → ∃ post, s2 = s1 +:+ post.
Proof.
  revert s2. induction s1 as [|c s1 IH]; intros s2 H.
  - exists s2. reflexivity.
  - destruct s2 as [|d s2]; [discriminate|].
    cbn [String.length String.substring] in H. inversion H; subst.
    destruct (IH s2) as [post Hp]; [congruence|].
    exists post. rewrite app_cons. rewrite H2. congruence.
Qed.

Lemma substring_at (m : nat) (s1 s2 : string) :
  String.substring m (String.length s1) s2 = s1 →
  s1 ≠ "" → ∃ pre post, s2 = pre +:+ s1 +:+ post.
Proof.
  revert s2. induction m as [|m IH]; intros s2 H Hne.
  - destruct (substring_0_prefix s1 s2 H) as [post ->]. exists "", post. reflexivity.
  - destruct s2 as [|d s2].
    + destruct s1; [congruence|discriminate].
    + cbn [String.substring] in H. destruct (IH s2 H Hne) as (pre & post & ->).
      exists (String d pre), post. reflexivity.
Qed.

Lemma substring_prefix_app (s1 post : string) :
  String.substring 0 (String.length s1) (s1 +:+ post) = s1.
Proof.
  induction s1 as [|c s1 IH].
  - destruct post; reflexivity.
  - rewrite app_cons. cbn [String.length String.substring]. rewrite IH. reflexivity.
Qed.

Lemma substring_middle (pre s1 post : string) :
  String.substring (String.length pre) (String.length s1) (pre +:+ s1 +:+ post) = s1.
Proof.
  induction pre as [|c pre IH].
  - rewrite app_nil_l. cbn [String.length]. apply substring_prefix_app.
  - rewrite app_cons. cbn [String.length String.substring]. exact IH.
Qed.

(** [find] answers a position exactly when the needle occurs. *)
Lemma find_contains (needle msg : string) :
  needle ≠ "" →
  (Str.find needle msg ≠ None ↔ Str.contains needle msg).
Proof.
  intros Hne. unfold Str.find, Str.contains. split.
  - destruct (String.index 0 needle msg) as [m|] eqn:E; [intros _|congruence].
    apply String.index_correct1 in E. eapply substring_at; eauto.
  - intros (pre & post & ->) E.
    eapply (String.index_correct3 0 (String.length pre)) in E; [|exact Hne|lia].
    apply E, substring_middle.
Qed.

End StrFacts.

(** ** Server-sent events *)

Module SseFacts.

(** The loop of [parse_sse_stream] does to the three state variables what
    [parse_sse_line] does, line after line. *)
Lemma loop_feed_lines (lines : list string) :
  ∀ current_event data_lines events,
    Sse.parse_sse_stream_loop lines current_event data_lines events
    = Sse.feed_lines lines (current_event, data_lines, events).
Proof.
  induction lines as [|line lines IH]; intros current_event data_lines events.
  - reflexivity.
  - cbn [Sse.parse_sse_stream_loop Sse.feed_lines]. unfold Sse.parse_sse_line.
    repeat case_match; simplify_eq; rewrite ?IH; reflexivity.
Qed.

Lemma feed_lines_app (l1 l2 : list string) (st : Sse.state) :
  Sse.feed_lines (l1 ++ l2) st = Sse.feed_lines l2 (Sse.feed_lines l1 st).
Proof.
  revert st. induction l1 as [|l l1 IH]; intros [[current_event data_lines] events].
  - reflexivity.
  - cbn [app Sse.feed_lines]. apply IH.
Qed.

(** Nothing is pending right after a blank line. *)
Lemma blank_line_clears (line : string) current_event data_lines events :
  Sse.blank line = true →
  let '(current_event', data_lines', _) :=
    Sse.parse_sse_line line current_event data_lines events in
  Sse.pending current_event' data_lines' = false.
Proof.
  unfold Sse.blank, Sse.parse_sse_line. intros ->.
  destruct (Sse.pending current_event data_lines) eqn:Hp; [reflexivity|exact Hp].
Qed.

(** The flush at the end of [parse_sse_stream] appends at most one event. *)
Lemma flush_last_tail (st : Sse.state) :
  ∃ tail, Sse.flush_last st = Sse.events_of st ++ tail
          ∧ length tail ≤ 1
          ∧ (Sse.pending (fst (fst st)) (snd (fst st)) = false → tail = []).
Proof.
  destruct st as [[current_event data_lines] events].
  unfold Sse.flush_last, Sse.events_of. cbn [fst snd].
  destruct (Sse.pending current_event data_lines).
  - case_match.
    + eexists [_]. split; [reflexivity|]. cbn. split; [lia|discriminate].
    + exists []. rewrite app_nil_r. cbn. split; [reflexivity|]. split; [lia|reflexivity].
  - exists []. rewrite app_nil_r. cbn. split; [reflexivity|]. split; [lia|reflexivity].
Qed.

(** C8, as amended. For every input stream, the events that
    [parse_sse_stream] returns are the events dispatched by feeding the
    lines of the stream one at a time to [parse_sse_line], followed by at
    most one more event: the one that the end-of-stream step of
    [parse_sse_stream] takes from the state still pending. When the stream
    has no lines or its last line is blank, nothing is pending and the two
    sequences are equal. *)
Theorem incremental_matches_stream_up_to_flush (stream_data : string) :
  ∃ tail,
    Sse.parse_sse_stream stream_data = Sse.parse_incremental stream_data ++ tail
    ∧ length tail ≤ 1
    ∧ (Sse.blank_terminated stream_data = true → tail = []).
Proof.
  unfold Sse.parse_sse_stream, Sse.parse_incremental, Sse.blank_terminated.
  rewrite loop_feed_lines.
  destruct (flush_last_tail
              (Sse.feed_lines (Str.getlines stream_data) (SseEvent.init, [], [])))
    as (tail & E & Hlen & Hclear).
  exists tail. split; [exact E|]. split; [exact Hlen|].
  intros Hb. apply Hclear. clear E Hlen Hclear.
  destruct (Str.getlines stream_data) as [|l ls] using rev_ind.
  - reflexivity.
  - rewrite last_snoc in Hb. rewrite feed_lines_app.
    destruct (Sse.feed_lines ls (SseEvent.init, [], []))
      as [[current_event data_lines] events].
    cbn [Sse.feed_lines].
    pose proof (blank_line_clears l current_event data_lines events Hb) as Hp.
    destruct (Sse.parse_sse_line l current_event data_lines events)
      as [[current_event' data_lines'] events'].
    exact Hp.
Qed.

(** C8, as stated, fails: on a stream that ends inside an event the
    whole-stream parser returns that event and the line-by-line parser
    does not. *)
Lemma incremental_differs_on_unterminated_event :
  ¬ (∀ stream_data : string,
       Sse.parse_incremental stream_data = Sse.parse_sse_stream stream_data).
Proof.
  intros H. specialize (H "data: a"). vm_compute in H. discriminate H.
Qed.

(** The event under construction holds no data before it is dispatched:
    the data lines are kept apart and joined at the dispatch. *)
Lemma feed_lines_data (lines : list string) :
  ∀ current_event data_lines events,
    SseEvent.data current_event = "" →
    SseEvent.data (fst (fst (Sse.feed_lines lines (current_event, data_lines, events))))
    = "".
Proof.
  induction lines as [|line lines IH]; intros current_event data_lines events Hd.
  - exact Hd.
  - cbn [Sse.feed_lines].
    destruct (Sse.parse_sse_line line current_event data_lines events)
      as [[current_event' data_lines'] events'] eqn:E.
    apply IH. unfold Sse.parse_sse_line in E.
    repeat case_match; simplify_eq; try reflexivity; exact Hd.
Qed.

(** What a blank line and the end of the stream do with the state. *)
Lemma blank_line_step (line : string) current_event data_lines events :
  Sse.blank line = true →
  SseEvent.data current_event = "" →
  let e := SseEvent.set_data current_event (Sse.join_data_lines 0 "" data_lines) in
  Sse.events_of (Sse.parse_sse_line line current_event data_lines events)
  = events ++ (if SseEvent.empty e then [] else [e])
  ∧ Sse.flush_last (current_event, data_lines, events)
    = events ++ (if SseEvent.empty e then [] else [e]).
Proof.
  unfold Sse.blank, Sse.parse_sse_line, Sse.flush_last, Sse.events_of.
  intros -> Hd. rewrite Hd. cbv zeta.
  destruct (Sse.pending current_event data_lines) eqn:Hp.
  - cbn [snd]. destruct (SseEvent.empty _); cbn [negb];
      rewrite ?app_nil_r; split; reflexivity.
  - cbn [snd]. unfold Sse.pending in Hp.
    destruct data_lines; [|discriminate]. cbn [negb orb] in Hp.
    apply orb_false_iff in Hp as [Hp _]. apply orb_false_iff in Hp as [Ht Hi].
    apply negb_false_iff in Ht, Hi.
    unfold SseEvent.empty. cbn. rewrite Ht, Hi, app_nil_r. split; reflexivity.
Qed.

(** C6, as amended. On every blank line, and at the end of a stream that
    stops inside an event, the event under construction is dispatched
    exactly when it is not empty as [SseEvent::empty] tests it: when the
    joined data, the type or the id is not empty. The retry hint is not
    looked at: an event that has nothing but a retry hint is not
    dispatched. *)
Theorem dispatch_needs_data_type_or_id (lines : list string) (line : string)
    (Hblank : Sse.blank line = true) :
  ∃ current_event data_lines events,
    Sse.feed_lines lines (SseEvent.init, [], []) = (current_event, data_lines, events)
    ∧ let joined := Sse.join_data_lines 0 "" data_lines in
      let dispatched :=
        if Str.empty joined && Str.empty (SseEvent.type current_event)
           && Str.empty (SseEvent.id current_event)
        then []
        else [SseEvent.set_data current_event joined] in
      Sse.events_of (Sse.feed_lines (lines ++ [line]) (SseEvent.init, [], []))
      = events ++ dispatched
      ∧ Sse.events_of
          (Sse.parse_sse_stream_loop (lines ++ [line]) SseEvent.init [] [])
        = events ++ dispatched
      ∧ Sse.flush_last (Sse.parse_sse_stream_loop lines SseEvent.init [] [])
        = events ++ dispatched.
Proof.
  pose proof (feed_lines_data lines SseEvent.init [] [] eq_refl) as Hd.
  rewrite !loop_feed_lines, feed_lines_app.
  destruct (Sse.feed_lines lines (SseEvent.init, [], []))
    as [[current_event data_lines] events].
  cbn [fst] in Hd. exists current_event, data_lines, events.
  split; [reflexivity|]. cbn [Sse.feed_lines].
  destruct (blank_line_step line current_event data_lines events Hblank Hd) as [H1 H2].
  cbv zeta. unfold SseEvent.empty in H1, H2. cbn [SseEvent.set_data SseEvent.data
    SseEvent.type SseEvent.id] in H1, H2.
  split; [exact H1|]. split; [exact H1|exact H2].
Qed.

(** An event with a type and a retry hint, and the blank line after it. *)
Lemma dispatch_needs_data_type_or_id_witness :
  ∃ current_event data_lines events,
    Sse.feed_lines ["event: tick"; "retry: 100"] (SseEvent.init, [], [])
    = (current_event, data_lines, events)
    ∧ let joined := Sse.join_data_lines 0 "" data_lines in
      let dispatched :=
        if Str.empty joined && Str.empty (SseEvent.type current_event)
           && Str.empty (SseEvent.id current_event)
        then []
        else [SseEvent.set_data current_event joined] in
      Sse.events_of
        (Sse.feed_lines (["event: tick"; "retry: 100"] ++ [""]) (SseEvent.init, [], []))
      = events ++ dispatched
      ∧ Sse.events_of
          (Sse.parse_sse_stream_loop (["event: tick"; "retry: 100"] ++ [""])
             SseEvent.init [] [])
        = events ++ dispatched
      ∧ Sse.flush_last
          (Sse.parse_sse_stream_loop ["event: tick"; "retry: 100"] SseEvent.init [] [])
        = events ++ dispatched.
Proof.
  apply (dispatch_needs_data_type_or_id ["event: tick"; "retry: 100"] "").
  reflexivity.
Defined.

(** C6, as stated, fails: the stream made of the line [retry: 100] and a
    blank line gives no event. *)
Lemma retry_only_block_gives_no_event :
  ¬ (∃ e, Sse.parse_sse_stream ("retry: 100" +:+ Str.lf +:+ Str.lf) = [e]).
Proof. intros (e & H). vm_compute in H. discriminate H. Qed.

(** The events of that stream, for either parser. *)
Example retry_only_event_not_dispatched :
  Sse.parse_sse_stream ("retry: 100" +:+ Str.lf +:+ Str.lf) = [].
Proof. vm_compute. reflexivity. Qed.

Example incremental_drops_retry_only_event :
  Sse.parse_incremental ("retry: 100" +:+ Str.lf +:+ Str.lf) = [].
Proof. vm_compute. reflexivity. Qed.

(** With a data line next to it the retry hint does reach the caller. *)
Example retry_with_data_dispatched :
  Sse.parse_sse_stream ("retry: 100" +:+ Str.lf +:+ "data: x" +:+ Str.lf +:+ Str.lf)
  = [SseEvent.mk "" "x" "" "100" ∅].
Proof. vm_compute. reflexivity. Qed.

End SseFacts.

(** ** Chunked transfer decoding *)

Module ChunkedFacts.

Import Chunked.

Lemma decode_loop_step (available : N) (fuel : nat) (stream result : string) :
  decode_loop available (S fuel) stream result =
  match Str.getline stream with
  | None => Some (Returned result)
  | Some (line, stream) =>
      match Str.back line with
      | None => Some BackOfEmptyLine
      | Some c =>
          let line := if Ascii.eqb c Str.CR then Str.pop_back line else line in
          if Str.empty line then decode_loop available fuel stream result
          else
            match stoul16 line with
            | None => Some (Returned result)
            | Some chunk_size =>
                if N.eqb chunk_size 0 then Some (Returned result)
                else if N.ltb max_size chunk_size then Some LengthError
                else if N.ltb available chunk_size then Some BadAlloc
                else
                  let '(chunk_data, stream) :=
                    Str.read_into (N.to_nat chunk_size) stream in
                  let result := result +:+ chunk_data in
                  let stream :=
                    match Str.getline stream with
                    | None => stream
                    | Some (_, stream') => stream'
                    end in
                  decode_loop available fuel stream result
            end
      end
  end.
Proof. reflexivity. Qed.

(** The loop ends within as many iterations as the stream has characters. *)
Lemma decode_loop_fuel (available : N) (fuel : nat) :
  ∀ stream result,
    String.length stream < fuel →
    ∃ o, decode_loop available fuel stream result = Some o.
Proof.
  induction fuel as [|fuel IH]; intros stream result Hlen; [lia|].
  rewrite decode_loop_step.
  destruct (Str.getline stream) as [[line rest]|] eqn:Hg; [|eauto].
  apply StrFacts.getline_length in Hg.
  destruct (Str.back line) as [c|]; [|eauto].
  cbv zeta. case_match; [apply IH; lia|].
  destruct (stoul16 _) as [chunk_size|]; [|eauto].
  destruct (N.eqb chunk_size 0); [eauto|].
  destruct (N.ltb max_size chunk_size); [eauto|].
  destruct (N.ltb available chunk_size); [eauto|].
  pose proof (StrFacts.read_into_length (N.to_nat chunk_size) rest) as Hr.
  destruct (Str.read_into (N.to_nat chunk_size) rest) as [chunk_data rest'].
  cbn [snd] in Hr.
  destruct (Str.getline rest') as [[l' rest'']|] eqn:Hg'.
  - apply StrFacts.getline_length in Hg'. apply IH. lia.
  - apply IH. lia.
Qed.

(** [decode_chunked] always ends: by returning, by throwing, or at the
    read outside the string. *)
Lemma decode_chunked_ends (headroom : N) (data : string) :
  ∃ o, decode_chunked headroom data = Some o.
Proof. apply decode_loop_fuel. lia. Qed.

Lemma find_char_snoc (c d : ascii) (s : string) :
  Str.find_char c s = None → Ascii.eqb d c = false →
  Str.find_char c (s +:+ String d "") = None.
Proof.
  intros Hs Hd. induction s as [|e s IH].
  - rewrite StrFacts.app_nil_l. cbn [Str.find_char]. rewrite Hd. reflexivity.
  - rewrite StrFacts.app_cons. cbn [Str.find_char] in *.
    destruct (Ascii.eqb e c); [discriminate|].
    destruct (Str.find_char c s); [discriminate|].
    rewrite IH by reflexivity. reflexivity.
Qed.

(** [std::stoul] throws on the empty string. *)
Lemma stoul16_nonempty (s : string) (n : N) : stoul16 s = Some n → Str.empty s = false.
Proof. destruct s; [discriminate|reflexivity]. Qed.

(** One iteration of the loop on a well-formed chunk that is no larger
    than the allocator's largest block. *)
Lemma decode_loop_chunk (available : N) (fuel : nat)
    (size_line bytes rest result : string) :
  well_formed_chunk (size_line, bytes) = true →
  (N.of_nat (String.length bytes) <= available)%N →
  decode_loop available (S fuel)
    (size_line +:+ Str.crlf +:+ bytes +:+ Str.crlf +:+ rest) result
  = decode_loop available fuel rest (result +:+ bytes).
Proof.
  intros Hc Hfit. unfold well_formed_chunk in Hc.
  repeat (apply andb_true_iff in Hc as [Hc ?]).
  destruct (Str.find_char Str.LF size_line) eqn:Hlf; [discriminate|].
  destruct (stoul16 size_line) as [n|] eqn:Hn; [|discriminate].
  match goal with H : N.eqb _ _ = true |- _ => apply N.eqb_eq in H; subst n end.
  assert (E : ∀ X, size_line +:+ Str.crlf +:+ X
                   = (size_line +:+ String Str.CR "") +:+ String Str.LF X)
    by (intros X; rewrite StrFacts.app_assoc; reflexivity).
  rewrite E, decode_loop_step.
  rewrite StrFacts.getline_app
    by (apply find_char_snoc; [exact Hlf|reflexivity]).
  rewrite StrFacts.back_snoc. cbv zeta.
  rewrite Ascii.eqb_refl, StrFacts.pop_back_snoc.
  rewrite (stoul16_nonempty _ _ Hn), Hn.
  assert (Hpos : String.length bytes ≠ 0)
    by (destruct bytes; [discriminate|cbn; lia]).
  destruct (N.eqb_spec (N.of_nat (String.length bytes)) 0) as [Hz|_]; [lia|].
  match goal with H : N.leb _ _ = true |- _ => apply N.leb_le in H end.
  destruct (N.ltb_spec max_size (N.of_nat (String.length bytes))) as [Hgt|_]; [lia|].
  destruct (N.ltb_spec available (N.of_nat (String.length bytes))) as [Hgt|_]; [lia|].
  rewrite Nat2N.id, StrFacts.read_into_exact.
  assert (Eg : Str.getline (Str.crlf +:+ rest) = Some (String Str.CR "", rest))
    by reflexivity.
  rewrite Eg. reflexivity.
Qed.





(** C10: the check for a trailing ['\r'] is made on every line, empty or
    not. On any input that starts with ['\n'] the first line is empty and
    [line.back()] reads outside it. *)
Theorem decode_chunked_back_of_empty_line (headroom : N) (rest : string) :
  decode_chunked headroom (String Str.LF rest) = Some BackOfEmptyLine.
Proof. reflexivity. Qed.

(** An empty line in the middle of the body does the same: here the one
    between the two ['\n'] after the first chunk. *)
Example decode_chunked_double_newline :
  decode_chunked 0 ("5" +:+ Str.crlf +:+ "Hello" +:+ Str.crlf +:+ Str.lf +:+
                    "0" +:+ Str.crlf +:+ Str.crlf)
  = Some BackOfEmptyLine.
Proof. vm_compute. reflexivity. Qed.

(** A size line that reads as a number above [max_size] makes the
    function throw: [-1] is [2^64 - 1] to [std::stoul]. *)
Example decode_chunked_length_error :
  decode_chunked 0 ("-1" +:+ Str.crlf) = Some LengthError.
Proof. vm_compute. reflexivity. Qed.

(** A size line that announces [2^61] bytes where the heap has a
    gigabyte to spare makes the function throw [std::bad_alloc]. *)
Example decode_chunked_bad_alloc :
  decode_chunked (2 ^ 30) ("2000000000000000" +:+ Str.crlf) = Some BadAlloc.
Proof. vm_compute. reflexivity. Qed.

(** A chunk cut short by the end of the input is filled up with NUL
    characters. *)
Example decode_chunked_short_chunk :
  decode_chunked 0 ("5" +:+ Str.crlf +:+ "Hel")
  = Some (Returned ("Hel" +:+ String Ascii.zero (String Ascii.zero ""))).
Proof. vm_compute. reflexivity. Qed.

End ChunkedFacts.

(** ** Retry decisions *)

Module RetryFacts.

Import RetryPolicy.

(** [found] is true exactly when the needle occurs in the message. *)
Lemma found_contains (needle msg : string) :
  needle ≠ "" → (found needle msg = true ↔ Str.contains needle msg).
Proof.
  intros Hne. rewrite <- (StrFacts.find_contains needle msg Hne).
  unfold found. destruct (Str.find needle msg); split; congruence.
Qed.

Lemma timeout_text_found (msg : string) :
  found "timeout" msg || found "Timeout" msg || found "timed out" msg = true
  ↔ timeout_text msg.
Proof.
  unfold timeout_text. rewrite !orb_true_iff, !found_contains by discriminate.
  tauto.
Qed.

Lemma connection_text_found (msg : string) :
  found "Connection" msg || found "connection" msg || found "refused" msg
  || found "reset" msg || found "broken pipe" msg || found "network" msg = true
  ↔ connection_text msg.
Proof.
  unfold connection_text. rewrite !orb_true_iff, !found_contains by discriminate.
  tauto.
Qed.

(** C2, as amended. [should_retry] answers true exactly when the attempt
    count is below [max_retries] and one of these holds: [retry_on_timeout]
    is set and the message of the error contains [timeout], [Timeout] or
    [timed out]; [retry_on_connection_error] is set and the message
    contains [Connection], [connection], [refused], [reset], [broken pipe]
    or [network]; [retry_on_5xx] is set and the status is in [500, 600).
    The decision depends on the error through the text of its message
    only: two errors with the same message get the same decision. *)
Theorem should_retry_by_message (p : t) (e : Exception.t) (status_code : Z) :
  (should_retry p e status_code = true ↔
     (current_attempt_ p < max_retries_ p)%Z
     ∧ ((retry_on_timeout_ p = true ∧ timeout_text (Exception.what e))
        ∨ (retry_on_connection_error_ p = true
           ∧ connection_text (Exception.what e))
        ∨ (retry_on_5xx_ p = true ∧ (500 ≤ status_code < 600)%Z)))
  ∧ (∀ e' : Exception.t,
       Exception.what e' = Exception.what e →
       should_retry p e' status_code = should_retry p e status_code).
Proof.
  split.
  - unfold should_retry.
    rewrite <- timeout_text_found, <- connection_text_found.
    destruct (Z.geb_spec (current_attempt_ p) (max_retries_ p)) as [Hge|Hlt].
    { split; [discriminate|]. intros [? _]. lia. }
    generalize (found "timeout" (Exception.what e)
                || found "Timeout" (Exception.what e)
                || found "timed out" (Exception.what e)).
    generalize (found "Connection" (Exception.what e)
                || found "connection" (Exception.what e)
                || found "refused" (Exception.what e)
                || found "reset" (Exception.what e)
                || found "broken pipe" (Exception.what e)
                || found "network" (Exception.what e)).
    intros conn tmo.
    destruct (retry_on_timeout_ p), (retry_on_connection_error_ p),
      (retry_on_5xx_ p), tmo, conn;
      destruct (Z.geb_spec status_code 500), (Z.ltb_spec status_code 600);
      cbn [andb orb]; intuition (try discriminate; try lia).
  - intros e' He. unfold should_retry. rewrite He. reflexivity.
Qed.

(** C2, as stated, fails: two errors of one class whose messages differ
    are not decided alike. *)
Lemma should_retry_reads_the_message :
  ¬ (∀ (p : t) (e1 e2 : Exception.t) (status_code : Z),
       Exception.cls e1 = Exception.cls e2 →
       should_retry p e1 status_code = should_retry p e2 status_code).
Proof.
  intros H.
  specialize (H (make 3 1000 2 30000 true false false)
                (Exception.mk Exception.runtime_error "Read timeout")
                (Exception.mk Exception.runtime_error "Read deadline expired")
                0%Z eq_refl).
  vm_compute in H. discriminate H.
Qed.

(** The timeout that [execute_http] throws is retried as a connection
    error when only [retry_on_connection_error] is set: its message starts
    with [Connection]. *)
Example connection_timeout_is_retried_as_connection_error :
  should_retry (make 3 1000 2 30000 false true false)
    (Exception.mk Exception.runtime_error "Connection timeout") 0 = true.
Proof. vm_compute. reflexivity. Qed.

End RetryFacts.

(** ** Rounding to [double] *)

Module DoubleFacts.

Import Double.

Local Open Scope Q_scope.

Lemma two_pow_pos (e : Z) : 0 < two_pow e.
Proof. apply Qpower_0_lt. reflexivity. Qed.

Lemma two_pow_add (a b : Z) : two_pow (a + b) == two_pow a * two_pow b.
Proof. apply Qpower_plus. discriminate. Qed.

Lemma two_pow_succ (e : Z) : two_pow (e + 1) == 2 * two_pow e.
Proof. rewrite two_pow_add. change (two_pow 1) with 2. ring. Qed.

Lemma two_pow_le (a b : Z) : (a <= b)%Z -> two_pow a <= two_pow b.
Proof. intros H. apply Qpower_le_compat_l; [exact H|discriminate]. Qed.

Lemma two_pow_lt_inv (a b : Z) : two_pow a < two_pow b -> (a < b)%Z.
Proof. intros H. apply (Qpower_lt_compat_l_inv 2); [exact H|reflexivity]. Qed.

Lemma two_pow_Z (n : Z) : (0 <= n)%Z -> inject_Z (2 ^ n) == two_pow n.
Proof. intros H. apply Zpower_Qpower, H. Qed.

(** [ilog2 q] is the exponent of the binade of [q]. *)
Lemma ilog2_spec (q : Q) :
  0 < q -> two_pow (ilog2 q) <= q /\ q < two_pow (ilog2 q + 1).
Proof.
  intros Hq. unfold ilog2.
  destruct q as [n d]. cbn [Qnum Qden].
  assert (Hn : (0 < n)%Z) by (unfold Qlt in Hq; cbn in Hq; lia).
  set (a := Z.log2 n). set (b := Z.log2 (Zpos d)).
  destruct (Z.log2_spec n Hn) as [Ha1 Ha2]. fold a in Ha1, Ha2.
  destruct (Z.log2_spec (Zpos d) ltac:(lia)) as [Hb1 Hb2]. fold b in Hb1, Hb2.
  assert (Ha0 : (0 <= a)%Z) by apply Z.log2_nonneg.
  assert (Hb0 : (0 <= b)%Z) by apply Z.log2_nonneg.
  rewrite Zle_Qle, two_pow_Z in Ha1, Hb1 by lia.
  replace (Z.succ a) with (a + 1)%Z in Ha2 by lia.
  replace (Z.succ b) with (b + 1)%Z in Hb2 by lia.
  rewrite Zlt_Qlt, two_pow_Z, two_pow_succ in Ha2, Hb2 by lia.
  pose proof (two_pow_pos a) as Pa. pose proof (two_pow_pos b) as Pb.
  assert (Hk : two_pow (a - b) * two_pow b == two_pow a).
  { rewrite <- two_pow_add. replace (a - b + b)%Z with a by lia. reflexivity. }
  pose proof (two_pow_pos (a - b)) as Pk.
  assert (Hq' : (n # d) * inject_Z (Zpos d) == inject_Z n).
  { rewrite Qmake_Qdiv. field. discriminate. }
  set (x := n # d) in *.
  assert (Hd : 0 < inject_Z (Z.pos d)) by reflexivity.
  destruct (Qle_bool (two_pow (a - b)) x) eqn:E.
  - apply Qle_bool_iff in E. split; [exact E|].
    rewrite two_pow_succ.
    generalize dependent (two_pow (a - b)). generalize dependent (two_pow a).
    generalize dependent (two_pow b). generalize dependent (inject_Z n).
    generalize dependent (inject_Z (Z.pos d)). intros. nra.
  - assert (E' : x < two_pow (a - b)).
    { apply Qnot_le_lt. intros H. apply Qle_bool_iff in H. congruence. }
    replace (a - b - 1 + 1)%Z with (a - b)%Z by lia. split; [|exact E'].
    assert (H2 : two_pow (a - b) == 2 * two_pow (a - b - 1)).
    { rewrite <- two_pow_succ. replace (a - b - 1 + 1)%Z with (a - b)%Z by lia. reflexivity. }
    pose proof (two_pow_pos (a - b - 1)) as Pk1.
    generalize dependent (two_pow (a - b - 1)).
    generalize dependent (two_pow (a - b)). generalize dependent (two_pow a).
    generalize dependent (two_pow b). generalize dependent (inject_Z n).
    generalize dependent (inject_Z (Z.pos d)). intros. nra.
Qed.

Lemma ilog2_mono (p q : Q) : 0 < p -> p <= q -> (ilog2 p <= ilog2 q)%Z.
Proof.
  intros Hp Hpq.
  destruct (ilog2_spec p Hp) as [H1 _].
  destruct (ilog2_spec q (Qlt_le_trans _ _ _ Hp Hpq)) as [_ H2].
  assert (H : two_pow (ilog2 p) < two_pow (ilog2 q + 1)).
  { eapply Qle_lt_trans; [exact H1|]. eapply Qle_lt_trans; [exact Hpq|exact H2]. }
  apply two_pow_lt_inv in H. lia.
Qed.

(** Rounding to the nearest integer. *)
Lemma rne_cases (q : Q) :
  (rne q = Qfloor q /\ q - inject_Z (Qfloor q) <= 1 # 2)
  \/ (rne q = (Qfloor q + 1)%Z /\ (1 # 2) <= q - inject_Z (Qfloor q)).
Proof.
  unfold rne. destruct (Qcompare_spec (q - inject_Z (Qfloor q)) (1 # 2)) as [H|H|H].
  - destruct (Z.even (Qfloor q)); [left|right]; split; try reflexivity; rewrite H; apply Qle_refl.
  - left. split; [reflexivity|]. apply Qlt_le_weak, H.
  - right. split; [reflexivity|]. apply Qlt_le_weak, H.
Qed.

Lemma rne_mono (p q : Q) : p <= q -> (rne p <= rne q)%Z.
Proof.
  intros Hpq. pose proof (Qfloor_resp_le _ _ Hpq) as Hf.
  destruct (Z.eq_dec (Qfloor p) (Qfloor q)) as [E|E].
  - unfold rne. rewrite E.
    assert (Hr : p - inject_Z (Qfloor q) <= q - inject_Z (Qfloor q)) by lra.
    destruct (Qcompare_spec (p - inject_Z (Qfloor q)) (1 # 2)) as [H1|H1|H1];
      destruct (Qcompare_spec (q - inject_Z (Qfloor q)) (1 # 2)) as [H2|H2|H2];
      try destruct (Z.even (Qfloor q)); try lia; try lra.
  - destruct (rne_cases p) as [[-> _]|[-> _]], (rne_cases q) as [[-> _]|[-> _]]; lia.
Qed.

Lemma rne_Z (n : Z) : rne (inject_Z n) = n.
Proof.
  unfold rne. rewrite Qfloor_Z.
  destruct (Qcompare_spec (inject_Z n - inject_Z n) (1 # 2)) as [H|H|H]; [lra|reflexivity|lra].
Qed.

Lemma rne_ge (n : Z) (q : Q) : inject_Z n <= q -> (n <= rne q)%Z.
Proof. intros H. rewrite <- (rne_Z n). apply rne_mono, H. Qed.

Lemma rne_le (n : Z) (q : Q) : q <= inject_Z n -> (rne q <= n)%Z.
Proof. intros H. rewrite <- (rne_Z n). apply rne_mono, H. Qed.


Lemma Qabs_pos_eq (x : Q) : 0 < x -> Qabs x = x.
Proof.
  destruct x as [n d]. unfold Qlt. cbn. intros H.
  rewrite Z.abs_eq by lia. reflexivity.
Qed.

Lemma ulp_exponent_mono (p q : Q) :
  0 < p -> p <= q -> (ulp_exponent p <= ulp_exponent q)%Z.
Proof.
  intros Hp Hpq. unfold ulp_exponent.
  rewrite !Qabs_pos_eq by (try assumption; eapply Qlt_le_trans; eassumption).
  pose proof (ilog2_mono p q Hp Hpq). lia.
Qed.

(** A positive [x] lies below [2^53] units of its last place, and, when
    it is normal, at or above [2^52] of them. *)
Lemma below_ulps (x : Q) :
  0 < x -> x < two_pow (ulp_exponent x + 53).
Proof.
  intros Hx. destruct (ilog2_spec x Hx) as [_ H].
  eapply Qlt_le_trans; [exact H|]. apply two_pow_le.
  unfold ulp_exponent. rewrite Qabs_pos_eq by assumption. lia.
Qed.

Lemma above_ulps (x : Q) :
  0 < x -> (-1074 < ulp_exponent x)%Z -> two_pow (ulp_exponent x + 52) <= x.
Proof.
  intros Hx He. destruct (ilog2_spec x Hx) as [H _].
  eapply Qle_trans; [|exact H]. apply two_pow_le.
  unfold ulp_exponent in *. rewrite Qabs_pos_eq in * by assumption. lia.
Qed.

Lemma scale_le (e : Z) (x y : Q) : x <= y -> x / two_pow e <= y / two_pow e.
Proof.
  intros H. unfold Qdiv. apply Qmult_le_compat_r; [exact H|].
  apply Qlt_le_weak, Qinv_lt_0_compat, two_pow_pos.
Qed.

Lemma scale_two_pow (a e : Z) : two_pow (e + a) / two_pow e == two_pow a.
Proof.
  rewrite two_pow_add. field. apply Qnot_eq_sym, Qlt_not_eq, two_pow_pos.
Qed.

Lemma nearest_nonneg (x : Q) : 0 <= x -> 0 <= nearest x.
Proof.
  intros Hx. unfold nearest.
  apply Qmult_le_0_compat; [|apply Qlt_le_weak, two_pow_pos].
  change 0 with (inject_Z 0). rewrite <- Zle_Qle. apply rne_ge.
  change (inject_Z 0) with 0. unfold Qdiv.
  apply Qmult_le_0_compat; [exact Hx|].
  apply Qlt_le_weak, Qinv_lt_0_compat, two_pow_pos.
Qed.

Lemma nearest_upper (x : Q) : 0 < x -> nearest x <= two_pow (ulp_exponent x + 53).
Proof.
  intros Hx. unfold nearest. set (e := ulp_exponent x).
  rewrite Z.add_comm, two_pow_add.
  apply Qmult_le_compat_r; [|apply Qlt_le_weak, two_pow_pos].
  rewrite <- (two_pow_Z 53) by lia. rewrite <- Zle_Qle. apply rne_le.
  rewrite (two_pow_Z 53) by lia. rewrite <- (scale_two_pow 53 e).
  apply scale_le, Qlt_le_weak, below_ulps, Hx.
Qed.

Lemma nearest_lower (x : Q) :
  0 < x -> (-1074 < ulp_exponent x)%Z -> two_pow (ulp_exponent x + 52) <= nearest x.
Proof.
  intros Hx He. unfold nearest. set (e := ulp_exponent x) in *.
  rewrite Z.add_comm, two_pow_add.
  apply Qmult_le_compat_r; [|apply Qlt_le_weak, two_pow_pos].
  rewrite <- (two_pow_Z 52) by lia. rewrite <- Zle_Qle. apply rne_ge.
  rewrite (two_pow_Z 52) by lia. rewrite <- (scale_two_pow 52 e).
  apply scale_le, above_ulps; assumption.
Qed.

(** Rounding to nearest keeps the order of positive reals. *)
Lemma nearest_mono (p q : Q) : 0 < p -> p <= q -> nearest p <= nearest q.
Proof.
  intros Hp Hpq.
  assert (Hq : 0 < q) by (eapply Qlt_le_trans; eassumption).
  pose proof (ulp_exponent_mono p q Hp Hpq) as He.
  destruct (Z.eq_dec (ulp_exponent p) (ulp_exponent q)) as [E|E].
  - unfold nearest. rewrite E.
    apply Qmult_le_compat_r; [|apply Qlt_le_weak, two_pow_pos].
    rewrite <- Zle_Qle. apply rne_mono, scale_le, Hpq.
  - eapply Qle_trans; [apply nearest_upper, Hp|].
    eapply Qle_trans; [|apply nearest_lower; [exact Hq|]].
    + apply two_pow_le. lia.
    + unfold ulp_exponent in *. lia.
Qed.

Lemma round_nonneg_mono (p q r : Q) :
  0 <= p -> p <= q -> round q = Finite r ->
  exists s, round p = Finite s /\ 0 <= s /\ s <= r.
Proof.
  intros Hp Hpq Hq.
  assert (Hr : 0 <= r /\ (~ q == 0 -> r == nearest q /\ nearest q < two_pow 1024)).
  { unfold round in Hq. destruct (Qeq_bool q 0) eqn:E.
    - injection Hq as <-. split; [apply Qle_refl|].
      intros H. apply Qeq_bool_iff in E. contradiction.
    - destruct (Qle_bool (two_pow 1024) (Qabs (nearest q))) eqn:O; [discriminate|].
      injection Hq as <-.
      pose proof (Qred_correct (nearest q)) as Hred.
      pose proof (nearest_nonneg q (Qle_trans _ _ _ Hp Hpq)) as Hn.
      split; [rewrite Hred; exact Hn|]. intros _. split; [exact Hred|].
      apply Qnot_le_lt. intros H. rewrite <- (Qabs_pos (nearest q) Hn) in H.
      apply Qle_bool_iff in H. congruence. }
  destruct Hr as [Hr0 Hr].
  unfold round. destruct (Qeq_bool p 0) eqn:E.
  - exists 0. split; [reflexivity|]. split; [apply Qle_refl|exact Hr0].
  - apply Qeq_bool_neq in E.
    assert (Hp' : 0 < p).
    { destruct (Qle_lt_or_eq _ _ Hp) as [H|H]; [exact H|]. symmetry in H. contradiction. }
    assert (Hq0 : ~ q == 0).
    { intros H. rewrite H in Hpq. apply (Qlt_irrefl 0). eapply Qlt_le_trans; eassumption. }
    destruct (Hr Hq0) as [Hrq Hfin].
    pose proof (nearest_mono p q Hp' Hpq) as Hm.
    pose proof (nearest_nonneg p Hp) as Hn.
    destruct (Qle_bool (two_pow 1024) (Qabs (nearest p))) eqn:O.
    + apply Qle_bool_iff in O. rewrite (Qabs_pos _ Hn) in O.
      exfalso. apply (Qlt_irrefl (two_pow 1024)).
      eapply Qle_lt_trans; [exact O|]. eapply Qle_lt_trans; [exact Hm|exact Hfin].
    + exists (Qred (nearest p)). split; [reflexivity|].
      pose proof (Qred_correct (nearest p)) as Hred.
      split; [rewrite Hred; exact Hn|]. rewrite Hred, Hrq. exact Hm.
Qed.

(** The conversion discards the fraction; on values that are not
    negative it is the floor. *)
Lemma to_long_long_mono (p q : Q) (hi : Z) :
  0 <= p -> p <= q -> to_long_long (Finite q) = Some hi ->
  exists lo, to_long_long (Finite p) = Some lo /\ (0 <= lo <= hi)%Z.
Proof.
  intros Hp Hpq. unfold to_long_long.
  assert (F : forall x, 0 <= x -> Z.quot (Qnum x) (Zpos (Qden x)) = Qfloor x).
  { intros [n d] H. unfold Qle in H. cbn in *. apply Z.quot_div_nonneg; lia. }
  rewrite (F p Hp), (F q (Qle_trans _ _ _ Hp Hpq)).
  pose proof (Qfloor_resp_le _ _ Hpq) as Hf.
  pose proof (Qfloor_resp_le _ _ Hp) as Hf0.
  change (Qfloor 0) with 0%Z in Hf0.
  destruct ((- 2 ^ 63 <=? Qfloor q)%Z && (Qfloor q <? 2 ^ 63)%Z) eqn:E; [|discriminate].
  intros [= <-]. apply andb_true_iff in E as [_ E]. apply Z.ltb_lt in E.
  exists (Qfloor p).
  destruct (Z.leb_spec (- 2 ^ 63) (Qfloor p)); [|lia].
  destruct (Z.ltb_spec (Qfloor p) (2 ^ 63)); [|lia].
  split; [reflexivity|lia].
Qed.

End DoubleFacts.

(** ** Backoff delays *)

Module BackoffFacts.

Import RetryPolicy.

Local Open Scope Q_scope.

(** A product with a smaller factor converts whenever the product with
    the larger one does, to an integer that is not larger. *)
Lemma scaled_le (x j1 j2 : Q) (hi : Z) :
  0 <= x → 0 <= j1 → j1 <= j2 →
  Double.to_long_long (Double.mul (Double.Finite x) (Double.Finite j2)) = Some hi →
  ∃ lo, Double.to_long_long (Double.mul (Double.Finite x) (Double.Finite j1)) = Some lo
        ∧ (0 <= lo <= hi)%Z.
Proof.
  intros Hx Hj1 Hj Hhi. cbn [Double.mul] in *.
  destruct (Double.round (x * j2)) as [r2|] eqn:E2; [|discriminate].
  assert (H0 : 0 <= x * j1) by (apply Qmult_le_0_compat; assumption).
  assert (Hle : x * j1 <= x * j2).
  { rewrite !(Qmult_comm x). apply Qmult_le_compat_r; assumption. }
  destruct (DoubleFacts.round_nonneg_mono _ _ _ H0 Hle E2) as (r1 & -> & Hr1 & Hr12).
  apply (DoubleFacts.to_long_long_mono r1 r2 hi Hr1 Hr12 Hhi).
Qed.

Section BackoffFacts.

Variable pow : Q → Z → Double.t.

Lemma get_delay_retry (p : t) (jitter : Q) :
  current_attempt_ p ≠ 0%Z →
  get_delay pow p jitter
  = match Double.to_long_long
            (Double.mul (base_delay pow p) (Double.Finite jitter)) with
    | None => None
    | Some delay => Some (Z.min delay (max_delay_ p))
    end.
Proof.
  intros Hk. unfold get_delay.
  destruct (Z.eqb_spec (current_attempt_ p) 0) as [|_]; [contradiction|].
  destruct (Double.to_long_long _) as [delay|]; [|reflexivity].
  destruct (Z.gtb_spec delay (max_delay_ p)); f_equal; lia.
Qed.

(** C5, as amended. At a retry attempt, let [x] be the [double]
    [base_delay], finite and not negative, and let the product of [x] and
    [1.25], rounded to [double], convert to the integer [hi]. Then for
    every jitter in [0.75, 1.25] the delay [d] is defined, the product of
    [x] and [0.75] converts to an integer [lo], and
    [min lo max_delay <= d <= min hi max_delay]. At attempt 0 the delay is
    [initial_delay] exactly. *)
Theorem get_delay_bounds (p : t) (jitter x : Q) (hi : Z)
    (Hk : current_attempt_ p ≠ 0%Z)
    (Hj : (3 # 4) <= jitter ∧ jitter <= (5 # 4))
    (Hbase : base_delay pow p = Double.Finite x)
    (Hx : 0 <= x)
    (Hhi : Double.to_long_long
             (Double.mul (Double.Finite x) (Double.Finite (5 # 4))) = Some hi) :
  ∃ lo d,
    Double.to_long_long (Double.mul (Double.Finite x) (Double.Finite (3 # 4)))
    = Some lo
    ∧ get_delay pow p jitter = Some d
    ∧ (Z.min lo (max_delay_ p) <= d <= Z.min hi (max_delay_ p))%Z
    ∧ get_delay pow (reset p) jitter = Some (initial_delay_ p).
Proof.
  destruct Hj as [Hj1 Hj2].
  destruct (scaled_le x jitter (5 # 4) hi Hx ltac:(lra) Hj2 Hhi) as (v & Hv & Hv0 & Hvhi).
  destruct (scaled_le x (3 # 4) jitter v Hx ltac:(lra) Hj1 Hv) as (lo & Hlo & Hlo0 & Hlov).
  exists lo, (Z.min v (max_delay_ p)).
  split; [exact Hlo|]. split; [|split; [lia|reflexivity]].
  rewrite (get_delay_retry p jitter Hk), Hbase, Hv. reflexivity.
Qed.

End BackoffFacts.

(** The bounds at attempt 2 with 100 ms, factor 2 and a cap of 10 s: the
    base is 400 ms, the delay lies between 300 ms and 500 ms. *)
Lemma get_delay_bounds_witness :
  ∃ lo d,
    Double.to_long_long (Double.mul (Double.Finite 400) (Double.Finite (3 # 4)))
    = Some lo
    ∧ get_delay Double.pow_nearest (mk 3 100 2 10000 true true false 2) (3 # 4)
      = Some d
    ∧ (Z.min lo 10000 <= d <= Z.min 500 10000)%Z
    ∧ get_delay Double.pow_nearest (reset (mk 3 100 2 10000 true true false 2))
        (3 # 4) = Some 100%Z.
Proof.
  apply (get_delay_bounds Double.pow_nearest (mk 3 100 2 10000 true true false 2)
           (3 # 4) 400 500).
  - cbn. lia.
  - split; discriminate.
  - vm_compute. reflexivity.
  - discriminate.
  - vm_compute. reflexivity.
Defined.

(** C5, as stated, fails: once [initial * factor^k] has grown past
    [max_delay / 0.75] the delay is [max_delay], below the stated lower
    bound. With 100 ms, factor 2 and a cap of 10 s, attempt 8 has base
    25600 ms and delay 10000 ms; [std::pow(2.0, 8)] is 256. *)
Lemma get_delay_below_stated_lower_bound :
  ¬ (∀ (pow : Q → Z → Double.t) (p : t) (jitter : Q) (d : Z),
       (1 <= current_attempt_ p)%Z →
       (3 # 4) <= jitter ∧ jitter <= (5 # 4) →
       pow (backoff_factor_ p) (current_attempt_ p)
       = Double.round (backoff_factor_ p ^ current_attempt_ p) →
       get_delay pow p jitter = Some d →
       within_stated_bounds p d).
Proof.
  intros H.
  destruct (H Double.pow_nearest (mk 10 100 2 10000 true true false 8) 1 10000%Z)
    as [Hlow _].
  - cbn. lia.
  - split; discriminate.
  - reflexivity.
  - vm_compute. reflexivity.
  - vm_compute in Hlow. apply Hlow. reflexivity.
Qed.

(** The arithmetic is that of [double]: with an initial delay of 3 ms, the
    factor [0x1.5555555555555p+0] (the [double] next below 4/3), attempt 1
    and jitter 1.25, the base rounds up to 4 and the delay is 5 ms, above
    [1.25 * 3 * factor]. *)
Example get_delay_rounds_up :
  get_delay Double.pow_nearest
    (mk 3 3 (6004799503160661 # 4503599627370496) 10000 true true false 1) (5 # 4)
  = Some 5%Z
  ∧ (5 # 4) * stated_base
                (mk 3 3 (6004799503160661 # 4503599627370496) 10000 true true false 1)
    < 5.
Proof. split; vm_compute; reflexivity. Qed.

(** Past the range of [long long] the conversion is undefined: 100 ms
    doubled 57 times and more. *)
Example get_delay_undefined :
  get_delay Double.pow_nearest (mk 100 100 2 10000 true true false 57) (3 # 4) = None
  ∧ get_delay Double.pow_nearest (mk 100 100 2 10000 true true false 56) (3 # 4)
    = Some 10000%Z.
Proof. split; vm_compute; reflexivity. Qed.

End BackoffFacts.

(** ** Iteration over a map *)

Module StdMapFacts.

Lemma elem_of_items (m : gmap string string) (k v : string) :
  (k, v) ∈ StdMap.items m ↔ m !! k = Some v.
Proof.
  unfold StdMap.items. rewrite merge_sort_Permutation. apply elem_of_map_to_list.
Qed.

Lemma items_Permutation (m : gmap string string) : StdMap.items m ≡ₚ map_to_list m.
Proof. apply merge_sort_Permutation. Qed.

Global Instance key_le_total : Total StdMap.key_le.
Proof. intros p q. unfold StdMap.key_le. apply (total String.le). Qed.

Lemma items_sorted (m : gmap string string) : Sorted StdMap.key_le (StdMap.items m).
Proof.
  unfold StdMap.items. apply (Sorted_merge_sort StdMap.key_le).
Qed.

Lemma NoDup_fst_items (m : gmap string string) : NoDup (StdMap.items m).*1.
Proof.
  unfold StdMap.items. rewrite merge_sort_Permutation. apply NoDup_fst_map_to_list.
Qed.

End StdMapFacts.

(** ** Names that match case-insensitively *)

Module IgnoringCaseFacts.

Import IgnoringCase.

Lemma all_ascii_complete (x : ascii) : In x all_ascii.
Proof.
  unfold all_ascii. rewrite <- (ascii_nat_embedding x).
  apply in_map, in_seq. pose proof (nat_ascii_bounded x). lia.
Qed.

Lemma same_letterb_spec (x y : ascii) : same_letterb x y = true ↔ same_letter x y.
Proof.
  unfold same_letterb, same_letter.
  rewrite orb_true_iff, Ascii.eqb_eq, existsb_exists.
  split.
  - intros [H|((u & l) & Hin & H)]; [left; exact H|right].
    cbn [fst snd] in H. apply orb_true_iff in H as [H|H];
      apply andb_true_iff in H as [H1 H2];
      apply Ascii.eqb_eq in H1, H2; subst; [left|right]; exact Hin.
  - intros [H|[H|H]]; [left; exact H| |]; right.
    + exists (x, y). split; [exact H|]. cbn [fst snd].
      rewrite !Ascii.eqb_refl. reflexivity.
    + exists (y, x). split; [exact H|]. cbn [fst snd].
      rewrite !Ascii.eqb_refl. apply orb_true_r.
Qed.

(** [std::tolower] sends two characters to the same one exactly when they
    are the same letter: checked on all pairs of characters. *)
Lemma tolower_same_letter (x y : ascii) :
  Ascii.eqb (tolower x) (tolower y) = true ↔ same_letter x y.
Proof.
  rewrite <- same_letterb_spec.
  assert (H : forallb (λ x, forallb (λ y,
                 Bool.eqb (Ascii.eqb (tolower x) (tolower y)) (same_letterb x y))
               all_ascii) all_ascii = true) by (vm_compute; reflexivity).
  rewrite forallb_forall in H. specialize (H x (all_ascii_complete x)).
  rewrite forallb_forall in H. specialize (H y (all_ascii_complete y)).
  apply Bool.eqb_prop in H. rewrite H. reflexivity.
Qed.

(** [strcasecmp_impl] decides [matches]. *)
Lemma strcasecmp_impl_matches (a b : string) :
  strcasecmp_impl a b = true ↔ matches a b.
Proof.
  unfold strcasecmp_impl. split.
  - revert b. induction a as [|x a IH]; intros [|y b] H;
      apply andb_true_iff in H as [Hlen Heq]; try discriminate.
    + constructor.
    + cbn [equal_tolower] in Heq.
      destruct (Ascii.eqb (tolower x) (tolower y)) eqn:E; [|discriminate].
      constructor; [apply tolower_same_letter, E|].
      apply IH. rewrite Heq, andb_true_r. exact Hlen.
  - induction 1 as [|x y a b Hxy _ IH]; [reflexivity|].
    apply andb_true_iff in IH as [Hlen Heq].
    cbn [String.length equal_tolower]. apply tolower_same_letter in Hxy.
    rewrite Hxy, Heq, andb_true_r. exact Hlen.
Qed.

Lemma strcasecmp_impl_no_match (a b : string) :
  strcasecmp_impl a b = false ↔ ¬ matches a b.
Proof.
  rewrite <- strcasecmp_impl_matches. destruct (strcasecmp_impl a b).
  - split; [discriminate|]. intros H. contradiction H. reflexivity.
  - split; [intros _; discriminate|reflexivity].
Qed.

End IgnoringCaseFacts.

(** ** Header lookup *)

Module ResponseFacts.

Import HttpResponse StdMapFacts.

Lemma scan_headers_Some (key : string) (entries : list (string * string)) (v : string) :
  scan_headers key entries = Some v →
  ∃ k, (k, v) ∈ entries ∧ strcasecmp_impl k key = true.
Proof.
  induction entries as [|[k' v'] entries IH]; [discriminate|].
  cbn [scan_headers]. destruct (strcasecmp_impl k' key) eqn:E.
  - intros [= ->]. exists k'. split; [left|exact E].
  - intros H. destruct (IH H) as (k & Hin & Hk). exists k. split; [right; exact Hin|exact Hk].
Qed.

Lemma scan_headers_None (key : string) (entries : list (string * string)) :
  scan_headers key entries = None →
  ∀ k v, (k, v) ∈ entries → strcasecmp_impl k key = false.
Proof.
  induction entries as [|[k' v'] entries IH]; intros H k v Hin.
  - inversion Hin.
  - cbn [scan_headers] in H. destruct (strcasecmp_impl k' key) eqn:E; [discriminate|].
    apply elem_of_cons in Hin as [[= -> ->]|Hin]; [exact E|].
    eapply IH; eauto.
Qed.

(** C9. [get_header] returns the value stored under the key itself when
    there is one; else the value of a header whose name matches the key
    case-insensitively, when there is one; and the empty string when no
    header name matches even so. It never fails. *)
Theorem get_header_lookup (r : t) (key : string) :
  (∀ v, headers r !! key = Some v → get_header r key = v)
  ∧ (headers r !! key = None →
     (∃ k v, headers r !! k = Some v ∧ IgnoringCase.matches k key) →
     ∃ k v, headers r !! k = Some v ∧ IgnoringCase.matches k key
            ∧ get_header r key = v)
  ∧ ((∀ k v, headers r !! k = Some v → ¬ IgnoringCase.matches k key) →
     get_header r key = "").
Proof.
  unfold get_header, headers. split; [|split].
  - intros v ->. reflexivity.
  - intros -> (k & v & Hk & Hci).
    apply IgnoringCaseFacts.strcasecmp_impl_matches in Hci.
    destruct (scan_headers key (StdMap.items (headers_ r))) as [v'|] eqn:Hs.
    + apply scan_headers_Some in Hs as (k' & Hin & Hci').
      apply elem_of_items in Hin.
      apply IgnoringCaseFacts.strcasecmp_impl_matches in Hci'. eauto.
    + apply elem_of_items in Hk.
      rewrite (scan_headers_None _ _ Hs _ _ Hk) in Hci. discriminate.
  - intros Hnone.
    destruct (headers_ r !! key) as [v|] eqn:Hk.
    + contradiction (Hnone key v Hk).
      apply IgnoringCaseFacts.strcasecmp_impl_matches.
      unfold strcasecmp_impl. rewrite Nat.eqb_refl. cbn [andb].
      clear. induction key as [|c key IH]; [reflexivity|].
      cbn [equal_tolower]. rewrite Ascii.eqb_refl. exact IH.
    + destruct (scan_headers key (StdMap.items (headers_ r))) as [v'|] eqn:Hs; [|reflexivity].
      apply scan_headers_Some in Hs as (k' & Hin & Hci').
      apply elem_of_items in Hin.
      apply IgnoringCaseFacts.strcasecmp_impl_matches in Hci'.
      contradiction (Hnone _ _ Hin).
Qed.

(** The three cases on a response with one header. *)
Lemma get_header_lookup_witness :
  get_header (add_header init "location" "/a") "location" = "/a"
  ∧ (∃ k v, headers (add_header init "location" "/a") !! k = Some v
            ∧ IgnoringCase.matches k "Location"
            ∧ get_header (add_header init "location" "/a") "Location" = v)
  ∧ get_header (add_header init "location" "/a") "Server" = "".
Proof.
  split; [|split].
  - apply (proj1 (get_header_lookup (add_header init "location" "/a") "location")).
    reflexivity.
  - apply (proj1 (proj2 (get_header_lookup (add_header init "location" "/a") "Location"))).
    + reflexivity.
    + exists "location", "/a". split; [reflexivity|].
      apply IgnoringCaseFacts.strcasecmp_impl_matches. reflexivity.
  - apply (proj2 (proj2 (get_header_lookup (add_header init "location" "/a") "Server"))).
    intros k v Hk. cbn in Hk.
    apply lookup_insert_Some in Hk as [[<- _]|[_ Hk]].
    + apply IgnoringCaseFacts.strcasecmp_impl_no_match. reflexivity.
    + rewrite lookup_empty in Hk. discriminate.
Defined.

(** A header whose name differs from the key in more than case is not
    taken for it. *)
Example get_header_other_name :
  get_header (add_header init "Set-Cookie" "a=1") "Connection" = "".
Proof. vm_compute. reflexivity. Qed.

End ResponseFacts.

(** ** The client *)

Module ClientFacts.

Import HttpClient StdMapFacts.

Section ClientFacts.

Variable config_ : ClientConfig.t.
Variable parse_url : string → Exception.t + UrlInfo.t.
Variable parse_response : string → Exception.t + HttpResponse.t.
Variable network : nat → HttpRequest.t → UrlInfo.t → transport.

Local Abbreviation outcome := (outcome parse_response).
Local Abbreviation execute_http := (execute_http parse_response network).
Local Abbreviation execute_https := (execute_https parse_response network).
Local Abbreviation exchange_once := (exchange_once parse_url parse_response network).
Local Abbreviation execute_with_redirects_fuel :=
  (execute_with_redirects_fuel config_ parse_url parse_response network).
Local Abbreviation execute_with_redirects :=
  (execute_with_redirects config_ parse_url parse_response network).
Local Abbreviation execute := (execute config_ parse_url parse_response network).
Local Abbreviation execute_all := (execute_all config_ parse_url parse_response network).

Local Abbreviation effect := (HttpClient.effect network).

Lemma effect_refl (w : world) : effect w w.
Proof. split; intros; lia. Qed.

Lemma effect_trans (w1 w2 w3 : world) : effect w1 w2 → effect w2 w3 → effect w1 w3.
Proof.
  intros [] []. split; intros; try lia.
  specialize (eff_created_eq0 H). specialize (eff_created_eq1 H). lia.
Qed.

Lemma effect_log (request : HttpRequest.t) (w : world) :
  effect w (log_request request w).
Proof. split; intros; cbn; lia. Qed.

(** One exchange over either transport: it comes back exactly when the
    transport answers, and then it has destroyed the socket it
    constructed. *)
Lemma execute_http_effect request url_info w :
  (comes_back (snd (execute_http request url_info w)) = true →
   effect w (fst (execute_http request url_info w)))
  ∧ comes_back (snd (execute_http request url_info w))
    = answers (network (exchanges w) request url_info)
  ∧ exchanges (fst (execute_http request url_info w)) = S (exchanges w)
  ∧ requested (fst (execute_http request url_info w)) = requested w.
Proof.
  unfold HttpClient.execute_http.
  assert (Hres : (∀ n r u, resolves (network n r u) = true) →
                 resolves (network (exchanges w) request url_info) = true)
    by (intros H; apply H).
  destruct (network (exchanges w) request url_info);
    cbn [resolves answers fst snd HttpClient.outcome comes_back] in *;
    try destruct (parse_response response_data); cbn [comes_back];
    (split; [|repeat split]); try discriminate;
    intros _; split; intros; cbn; try lia.
  match goal with H : ∀ n r u, _ |- _ => specialize (Hres H); discriminate end.
Qed.

Lemma execute_https_effect request url_info w :
  (comes_back (snd (execute_https request url_info w)) = true →
   effect w (fst (execute_https request url_info w)))
  ∧ comes_back (snd (execute_https request url_info w))
    = answers (network (exchanges w) request url_info)
  ∧ exchanges (fst (execute_https request url_info w)) = S (exchanges w)
  ∧ requested (fst (execute_https request url_info w)) = requested w.
Proof. exact (execute_http_effect request url_info w). Qed.

Lemma exchange_once_effect request w :
  (comes_back (snd (exchange_once request w)) = true →
   effect w (fst (exchange_once request w)))
  ∧ ((∀ n r u, answers (network n r u) = true) →
     comes_back (snd (exchange_once request w)) = true)
  ∧ requested (fst (exchange_once request w)) = requested w
  ∧ exchanges w ≤ exchanges (fst (exchange_once request w)) ≤ S (exchanges w)
  ∧ (no_throw (parse_url (HttpRequest.url request)) = true →
     exchanges (fst (exchange_once request w)) = S (exchanges w)).
Proof.
  unfold HttpClient.exchange_once.
  destruct (parse_url (HttpRequest.url request)) as [e|url_info].
  - cbn [fst snd]. split; [intros _; apply effect_refl|].
    split; [reflexivity|]. split; [reflexivity|]. split; [lia|discriminate].
  - assert (H : ∀ run : world * result,
        (comes_back (snd run) = true → effect w (fst run))
        ∧ comes_back (snd run) = answers (network (exchanges w) request url_info)
        ∧ exchanges (fst run) = S (exchanges w)
        ∧ requested (fst run) = requested w →
        ∀ r, r = (let '(w, r) := run in
                  match r with
                  | Returns response => (w, Returns (url_info, response))
                  | Throws e => (w, Throws e)
                  | Hangs => (w, Hangs)
                  end) →
        (comes_back (snd r) = true → effect w (fst r))
        ∧ ((∀ n r u, answers (network n r u) = true) → comes_back (snd r) = true)
        ∧ requested (fst r) = requested w
        ∧ exchanges w ≤ exchanges (fst r) ≤ S (exchanges w)
        ∧ (no_throw (inr url_info : Exception.t + UrlInfo.t) = true →
           exchanges (fst r) = S (exchanges w))).
    { intros [w' r] (He & Ha & Hx & Hr) r' ->. cbn [fst snd] in *.
      destruct r; cbn [fst snd comes_back] in *;
        (split; [exact He|]);
        (split; [intros Hn; specialize (Hn (exchanges w) request url_info);
                 congruence|]);
        (split; [exact Hr|]); (split; [lia|intros _; exact Hx]). }
    destruct (UrlInfo.is_https url_info).
    + apply (H _ (execute_https_effect request url_info w)). reflexivity.
    + apply (H _ (execute_http_effect request url_info w)). reflexivity.
Qed.

(** The URL information that comes with a response is that of the
    request's own URL. *)
Lemma exchange_once_url request w w' url_info response :
  exchange_once request w = (w', Returns (url_info, response)) →
  parse_url (HttpRequest.url request) = inr url_info.
Proof.
  unfold HttpClient.exchange_once.
  destruct (parse_url (HttpRequest.url request)) as [e|u]; [discriminate|].
  destruct (if UrlInfo.is_https u then _ else _) as [w1 [r|e|]]; intros [= _ -> _].
  reflexivity.
Qed.

(** *** The follow-up request *)

Lemma foldl_insert_list_to_map (l : list (string * string)) :
  foldl (λ (m : gmap string string) '(k, v), <[k:=v]> m) ∅ l
  = list_to_map (reverse l).
Proof.
  induction l as [|[k v] l IH] using rev_ind; [reflexivity|].
  rewrite foldl_snoc, reverse_snoc, list_to_map_cons, IH. reflexivity.
Qed.

Lemma foldl_insert_items (m : gmap string string) :
  foldl (λ (m : gmap string string) '(k, v), <[k:=v]> m) ∅ (StdMap.items m) = m.
Proof.
  rewrite foldl_insert_list_to_map.
  rewrite <- (list_to_map_to_list m) at 2.
  apply list_to_map_proper.
  - rewrite reverse_Permutation. apply StdMapFacts.NoDup_fst_items.
  - rewrite reverse_Permutation. apply StdMapFacts.items_Permutation.
Qed.

Lemma foldl_add_header (l : list (string * string)) (r : HttpRequest.t) :
  foldl (λ redirect_req '(key, value), HttpRequest.add_header redirect_req key value) r l
  = HttpRequest.mk (HttpRequest.method_ r) (HttpRequest.url_ r)
      (foldl (λ (m : gmap string string) '(k, v), <[k:=v]> m) (HttpRequest.headers_ r) l)
      (HttpRequest.body_ r).
Proof.
  revert r. induction l as [|[k v] l IH]; intros r; [destruct r; reflexivity|].
  cbn [foldl]. rewrite IH. reflexivity.
Qed.

Lemma make_redirect_req_eq (request : HttpRequest.t) (location : string) :
  make_redirect_req request location
  = HttpRequest.mk HttpMethod.GET location (HttpRequest.headers request) "".
Proof.
  unfold make_redirect_req. rewrite foldl_add_header. cbn.
  rewrite foldl_insert_items. reflexivity.
Qed.

(** *** The redirect loop *)

(** One level of the recursion that follows a redirect. *)
Lemma execute_with_redirects_fuel_step (fuel : nat) request redirect_count w w1
    url_info response :
  exchange_once request (log_request request w) = (w1, Returns (url_info, response)) →
  wants_redirect config_ redirect_count response = true →
  Str.empty (HttpResponse.get_header response "Location") = false →
  execute_with_redirects_fuel (S fuel) request redirect_count w
  = match execute_with_redirects_fuel fuel
            (HttpRequest.mk HttpMethod.GET
               (resolve_location url_info (HttpResponse.get_header response "Location"))
               (HttpRequest.headers request) "")
            (redirect_count + 1) w1 with
    | None => None
    | Some (w', res) => Some (w', after_redirect response res)
    end.
Proof.
  intros Hex Hw Hl. cbn [HttpClient.execute_with_redirects_fuel].
  rewrite Hex, Hw, Hl. cbn [negb]. rewrite make_redirect_req_eq.
  destruct (execute_with_redirects_fuel fuel _ _ w1) as [[w' [r|e|]]|]; reflexivity.
Qed.

(** The level at which the recursion ends: the exchange does not return a
    response, or the response is not to be followed. *)
Lemma execute_with_redirects_fuel_stop (fuel : nat) request redirect_count w w1 r :
  exchange_once request (log_request request w) = (w1, r) →
  match r with
  | Returns (_, response) =>
      wants_redirect config_ redirect_count response = false
      ∨ Str.empty (HttpResponse.get_header response "Location") = true
  | _ => True
  end →
  execute_with_redirects_fuel (S fuel) request redirect_count w
  = Some (w1, match r with
              | Returns (_, response) => Returns response
              | Throws e => Throws e
              | Hangs => Hangs
              end).
Proof.
  intros Hex Hstop. cbn [HttpClient.execute_with_redirects_fuel]. rewrite Hex.
  destruct r as [[url_info response]|e|]; try reflexivity.
  destruct Hstop as [->| ->]; [reflexivity|].
  destruct (wants_redirect _ _ _); reflexivity.
Qed.

Lemma wants_redirect_hops redirect_count response :
  wants_redirect config_ redirect_count response = true →
  (redirect_count < ClientConfig.max_redirects config_)%Z.
Proof.
  unfold wants_redirect. intros Hw.
  apply andb_true_iff in Hw as [Hw _]. apply andb_true_iff in Hw as [_ Hw].
  apply Z.ltb_lt, Hw.
Qed.

Lemma execute_with_redirects_fuel_spec (fuel : nat) :
  ∀ request redirect_count w,
    Z.to_nat (ClientConfig.max_redirects config_ - redirect_count) < fuel →
    ∃ w' res,
      execute_with_redirects_fuel fuel request redirect_count w = Some (w', res)
      ∧ (comes_back res = true → effect w w')
      ∧ ((∀ n r u, answers (network n r u) = true) → comes_back res = true)
      ∧ (∃ followups,
           requested w' = requested w ++ request :: followups
           ∧ Forall (follow_up_of request) followups)
      ∧ exchanges w ≤ exchanges w'
      ∧ (no_throw (parse_url (HttpRequest.url request)) = true →
         exchanges w < exchanges w').
Proof.
  induction fuel as [|fuel IH]; intros request redirect_count w Hfuel; [lia|].
  destruct (exchange_once_effect request (log_request request w))
    as (He & Ha & Hr & Hxle & Hx).
  pose proof (effect_log request w) as Hl.
  destruct (exchange_once request (log_request request w)) as [w1 r] eqn:Hex.
  cbn [fst snd] in *. cbn in Hxle.
  assert (Hstop :
    execute_with_redirects_fuel (S fuel) request redirect_count w
    = Some (w1, match r with
                | Returns (_, response) => Returns response
                | Throws e => Throws e
                | Hangs => Hangs
                end) →
    ∃ w' res,
      execute_with_redirects_fuel (S fuel) request redirect_count w = Some (w', res)
      ∧ (comes_back res = true → effect w w')
      ∧ ((∀ n r u, answers (network n r u) = true) → comes_back res = true)
      ∧ (∃ followups,
           requested w' = requested w ++ request :: followups
           ∧ Forall (follow_up_of request) followups)
      ∧ exchanges w ≤ exchanges w'
      ∧ (no_throw (parse_url (HttpRequest.url request)) = true →
         exchanges w < exchanges w')).
  { intros ->. eexists _, _. split; [reflexivity|].
    split; [intros Hc; eapply effect_trans; [exact Hl|apply He];
            destruct r as [[? ?]| |]; exact Hc|].
    split; [intros Hn; specialize (Ha Hn); destruct r as [[? ?]| |]; exact Ha|].
    split; [exists []; split; [rewrite Hr; reflexivity|constructor]|].
    split; [lia|]. intros Hp. specialize (Hx Hp). cbn in Hx. lia. }
  destruct r as [[url_info response]|e|].
  2, 3: apply Hstop, (execute_with_redirects_fuel_stop _ _ _ _ _ _ Hex I).
  destruct (wants_redirect config_ redirect_count response) eqn:Hw.
  2: { apply Hstop, (execute_with_redirects_fuel_stop _ _ _ _ _ _ Hex). left. exact Hw. }
  destruct (Str.empty (HttpResponse.get_header response "Location")) eqn:Hloc.
  { apply Hstop, (execute_with_redirects_fuel_stop _ _ _ _ _ _ Hex). right. exact Hloc. }
  clear Hstop.
  rewrite (execute_with_redirects_fuel_step fuel _ _ _ _ _ _ Hex Hw Hloc).
  apply wants_redirect_hops in Hw.
  set (redirect_req := HttpRequest.mk HttpMethod.GET _ _ _).
  destruct (IH redirect_req (redirect_count + 1)%Z w1)
    as (w2 & res & -> & He2 & Ha2 & Hf & Hx2 & _); [lia|].
  destruct Hf as (followups & Hreq & Hall).
  exists w2, (after_redirect response res).
  split; [reflexivity|].
  split.
  { intros Hc. eapply effect_trans; [|apply He2; destruct res; exact Hc].
    eapply effect_trans; [exact Hl|apply He; reflexivity]. }
  split; [intros Hn; specialize (Ha2 Hn); destruct res; exact Ha2|].
  split.
  - exists (redirect_req :: followups). split.
    + rewrite Hreq, Hr. cbn. rewrite <- app_assoc. reflexivity.
    + constructor; [repeat split|].
      eapply Forall_impl; [exact Hall|].
      intros r (Hm & Hh & Hb). repeat split; assumption.
  - split; [lia|]. intros Hp. specialize (Hx Hp). cbn in Hx. lia.
Qed.

Lemma execute_with_redirects_spec request redirect_count w :
  ∃ w' res,
    execute_with_redirects request redirect_count w = Some (w', res)
    ∧ (comes_back res = true → effect w w')
    ∧ ((∀ n r u, answers (network n r u) = true) → comes_back res = true)
    ∧ (∃ followups,
         requested w' = requested w ++ request :: followups
         ∧ Forall (follow_up_of request) followups)
    ∧ exchanges w ≤ exchanges w'
    ∧ (no_throw (parse_url (HttpRequest.url request)) = true →
       exchanges w < exchanges w').
Proof. apply execute_with_redirects_fuel_spec. lia. Qed.

(** The recursion of [execute_with_redirects] is bounded by the hops that
    are left: the call returns, throws, or stays in an exchange that never
    comes back. *)
Lemma execute_with_redirects_total request redirect_count w :
  ∃ res, execute_with_redirects request redirect_count w = Some res.
Proof.
  destruct (execute_with_redirects_spec request redirect_count w) as (w' & res & H & _).
  exists (w', res). exact H.
Qed.

(** C3. When [redirect_count] has reached [max_redirects],
    [execute_with_redirects] returns the response of its one exchange as
    it is, a 3xx response with a [Location] header included; it raises no
    error of its own. *)
Theorem redirect_limit_returns_response
    (request : HttpRequest.t) (redirect_count : Z) (w w' : world)
    (url_info : UrlInfo.t) (response : HttpResponse.t)
    (Hlimit : (ClientConfig.max_redirects config_ ≤ redirect_count)%Z)
    (Hexchange : exchange_once request (log_request request w)
                 = (w', Returns (url_info, response))) :
  execute_with_redirects request redirect_count w = Some (w', Returns response).
Proof.
  unfold HttpClient.execute_with_redirects.
  replace (Z.to_nat (ClientConfig.max_redirects config_ - redirect_count)) with 0 by lia.
  cbn [HttpClient.execute_with_redirects_fuel]. rewrite Hexchange.
  unfold wants_redirect.
  destruct (Z.ltb_spec redirect_count (ClientConfig.max_redirects config_)); [lia|].
  rewrite andb_false_r. reflexivity.
Qed.

(** C4, as amended. When a response is to be followed, the request that
    is synthesized has method GET, whatever the method of the original
    request, HEAD included; its URL is the [Location] value, resolved
    against the URL of the request that was answered; its headers are
    exactly those of the original request, and it has no body. It is the
    next request issued, the call ends as the call for it ends, and every
    request issued after it has method GET, the same headers and no
    body. *)
Theorem follow_up_request_is_get
    (request : HttpRequest.t) (redirect_count : Z) (w w1 : world)
    (url_info : UrlInfo.t) (response : HttpResponse.t)
    (Hexchange : exchange_once request (log_request request w)
                 = (w1, Returns (url_info, response)))
    (Hwants : wants_redirect config_ redirect_count response = true)
    (Hlocation : Str.empty (HttpResponse.get_header response "Location") = false) :
  parse_url (HttpRequest.url request) = inr url_info
  ∧ ∃ w' res followups,
      execute_with_redirects
        (HttpRequest.mk HttpMethod.GET
           (resolve_location url_info (HttpResponse.get_header response "Location"))
           (HttpRequest.headers request) "")
        (redirect_count + 1) w1
      = Some (w', res)
      ∧ execute_with_redirects request redirect_count w
        = Some (w', after_redirect response res)
      ∧ requested w'
        = requested w
          ++ request
          :: HttpRequest.mk HttpMethod.GET
               (resolve_location url_info (HttpResponse.get_header response "Location"))
               (HttpRequest.headers request) ""
          :: followups
      ∧ Forall (follow_up_of request) followups.
Proof.
  split; [exact (exchange_once_url _ _ _ _ _ Hexchange)|].
  set (redirect_req := HttpRequest.mk HttpMethod.GET _ _ _).
  destruct (execute_with_redirects_spec redirect_req (redirect_count + 1) w1)
    as (w' & res & Hrun & _ & _ & (followups & Hreq & Hall) & _).
  exists w', res, followups. split; [exact Hrun|].
  pose proof (wants_redirect_hops _ _ Hwants) as Hlt.
  pose proof (exchange_once_effect request (log_request request w)) as (_ & _ & Hr & _).
  rewrite Hexchange in Hr. cbn in Hr.
  split; [|split].
  - unfold HttpClient.execute_with_redirects in *.
    replace (Z.to_nat (ClientConfig.max_redirects config_ - redirect_count))
      with (S (Z.to_nat (ClientConfig.max_redirects config_ - (redirect_count + 1))))
      by lia.
    rewrite (execute_with_redirects_fuel_step _ _ _ _ _ _ _ Hexchange Hwants Hlocation).
    fold redirect_req. rewrite Hrun. reflexivity.
  - rewrite Hreq, Hr. rewrite <- app_assoc. reflexivity.
  - eapply Forall_impl; [exact Hall|].
    intros r (Hm & Hh & Hb). repeat split; assumption.
Qed.

Lemma execute_all_spec (requests : list HttpRequest.t) :
  ∀ w,
    (∀ r, r ∈ requests → no_throw (parse_url (HttpRequest.url r)) = true) →
    (∀ n r u, answers (network n r u) = true) →
    ∃ w', execute_all requests w = Some (w', Returns tt)
          ∧ effect w w'
          ∧ exchanges w + length requests ≤ exchanges w'.
Proof.
  induction requests as [|request requests IH]; intros w Hurl Hans.
  - exists w. split; [reflexivity|]. split; [apply effect_refl|cbn; lia].
  - cbn [HttpClient.execute_all]. unfold HttpClient.execute.
    destruct (execute_with_redirects_spec request 0 w)
      as (w1 & res & -> & He & Hc & _ & _ & Hx).
    specialize (Hc Hans). specialize (He Hc).
    destruct (IH w1) as (w2 & Hrun & He2 & Hn); [|exact Hans|].
    { intros r Hr. apply Hurl. right. exact Hr. }
    exists w2. split; [destruct res; [exact Hrun..|discriminate Hc]|].
    split; [eapply effect_trans; eauto|].
    specialize (Hx (Hurl request ltac:(left))). cbn [length]. lia.
Qed.

(** C1. [execute] keeps no connection from one request to the next:
    each exchange that gets past name resolution constructs a socket of
    its own and, when it comes back, has destroyed it. When the URLs
    parse, the names resolve and every exchange comes back, [n] sequential
    requests therefore construct at least [n] sockets, one for each
    exchange, whatever [max_connections_per_host] is; all of them are
    closed at the end and no two of them are ever open together. *)
Theorem sockets_opened_by_sequential_requests
    (requests : list HttpRequest.t) (w : world)
    (Hurl : ∀ r, r ∈ requests → no_throw (parse_url (HttpRequest.url r)) = true)
    (Hnet : ∀ n r u, resolves (network n r u) = true)
    (Hans : ∀ n r u, answers (network n r u) = true) :
  ∃ w',
    execute_all requests w = Some (w', Returns tt)
    ∧ sockets_created w + length requests ≤ sockets_created w'
    ∧ sockets_created w' - sockets_created w = exchanges w' - exchanges w
    ∧ sockets_open w' = sockets_open w
    ∧ peak_open w' ≤ Nat.max (peak_open w) (S (sockets_open w)).
Proof.
  destruct (execute_all_spec requests w Hurl Hans) as (w' & Hrun & He & Hn).
  exists w'. destruct He as [Ho Hp _ Hlo Hxlo _ Heq].
  specialize (Heq Hnet). repeat split; try assumption; lia.
Qed.

End ClientFacts.

(** One hop is allowed and taken; the second [302] is what the caller
    gets. *)
Lemma redirect_limit_returns_response_witness :
  (ClientConfig.max_redirects Scenario.config ≤ 1)%Z
  ∧ execute_with_redirects Scenario.config Scenario.parse_url
      Scenario.parse_response Scenario.redirects_always
      Scenario.get_a 1 initial_world
    = Some (mkWorld 1 0 1 1 [Scenario.get_a], Returns Scenario.found_next).
Proof.
  split; [cbn; lia|].
  apply (redirect_limit_returns_response Scenario.config Scenario.parse_url
           Scenario.parse_response Scenario.redirects_always
           Scenario.get_a 1 initial_world (mkWorld 1 0 1 1 [Scenario.get_a])
           Scenario.url_info Scenario.found_next).
  - cbn. lia.
  - reflexivity.
Defined.

(** With the hop budget used up, a [302] that names a [Location] comes
    back as a response, not as an error. *)
Lemma redirect_limit_is_not_an_error :
  ¬ (∀ (config_ : ClientConfig.t) parse_url parse_response network
       (request : HttpRequest.t) (redirect_count : Z) (w w' : world)
       (url_info : UrlInfo.t) (response : HttpResponse.t),
       ClientConfig.follow_redirects config_ = true →
       (ClientConfig.max_redirects config_ ≤ redirect_count)%Z →
       exchange_once parse_url parse_response network request
         (log_request request w) = (w', Returns (url_info, response)) →
       (300 ≤ HttpResponse.status_code response < 400)%Z →
       Str.empty (HttpResponse.get_header response "Location") = false →
       ∃ w'' e,
         execute_with_redirects config_ parse_url parse_response network
           request redirect_count w = Some (w'', Throws e)).
Proof.
  intros H.
  destruct (H Scenario.config Scenario.parse_url Scenario.parse_response
              Scenario.redirects_always Scenario.get_a 1%Z initial_world
              (mkWorld 1 0 1 1 [Scenario.get_a])
              Scenario.url_info Scenario.found_next)
    as (w'' & e & He).
  - reflexivity.
  - cbn. lia.
  - reflexivity.
  - cbn. lia.
  - reflexivity.
  - vm_compute in He. discriminate He.
Qed.

(** The whole run of [execute]: the first [302] is followed, the second is
    returned with the chain of the one hop made. *)
Example redirect_limit_run :
  ∃ w' response,
    execute Scenario.config Scenario.parse_url Scenario.parse_response
      Scenario.redirects_always Scenario.get_a initial_world
    = Some (w', Returns response)
    ∧ HttpResponse.status_code response = 302%Z
    ∧ HttpResponse.get_header response "Location" = "/next"
    ∧ HttpResponse.redirect_chain response = ["/next"]
    ∧ exchanges w' = 2.
Proof.
  eexists _, _. split; [vm_compute; reflexivity|].
  repeat split; vm_compute; reflexivity.
Qed.

(** A HEAD request answered with a [302]: the request for [/next] on the
    origin that answered is a GET with the header of the HEAD request. *)
Lemma follow_up_request_is_get_witness :
  Scenario.parse_url (HttpRequest.url Scenario.head_a) = inr Scenario.url_info
  ∧ ∃ w' res followups,
      execute_with_redirects Scenario.config Scenario.parse_url
        Scenario.parse_response Scenario.redirects_always
        (HttpRequest.mk HttpMethod.GET "http://a.example/next"
           {["Accept" := "text/html"]} "")
        (0 + 1) (mkWorld 1 0 1 1 [Scenario.head_a])
      = Some (w', res)
      ∧ execute_with_redirects Scenario.config Scenario.parse_url
          Scenario.parse_response Scenario.redirects_always
          Scenario.head_a 0 initial_world
        = Some (w', after_redirect Scenario.found_next res)
      ∧ requested w'
        = requested initial_world
          ++ Scenario.head_a
          :: HttpRequest.mk HttpMethod.GET "http://a.example/next"
               {["Accept" := "text/html"]} ""
          :: followups
      ∧ Forall (follow_up_of Scenario.head_a) followups.
Proof.
  apply (follow_up_request_is_get Scenario.config Scenario.parse_url
           Scenario.parse_response Scenario.redirects_always
           Scenario.head_a 0 initial_world (mkWorld 1 0 1 1 [Scenario.head_a])
           Scenario.url_info Scenario.found_next); reflexivity.
Defined.

(** C4, as stated, fails: the follow-up of a HEAD request is a GET. *)
Lemma follow_up_of_head_is_get :
  ¬ (∀ (request : HttpRequest.t) (location : string),
       HttpRequest.method request = HttpMethod.HEAD →
       HttpRequest.method (make_redirect_req request location) = HttpMethod.HEAD).
Proof.
  intros H. specialize (H Scenario.head_a "/next" eq_refl).
  vm_compute in H. discriminate H.
Qed.

(** The requests issued for a HEAD that is redirected once. *)
Example head_redirect_run :
  ∃ w' res,
    execute Scenario.config Scenario.parse_url Scenario.parse_response
      Scenario.redirects_always Scenario.head_a initial_world
    = Some (w', res)
    ∧ requested w'
      = [Scenario.head_a;
         HttpRequest.add_header
           (HttpRequest.make HttpMethod.GET "http://a.example/next")
           "Accept" "text/html"].
Proof.
  eexists _, _. split; vm_compute; reflexivity.
Qed.

(** Ten requests to the one origin, each answered with [200]. *)
Lemma sockets_opened_by_sequential_requests_witness :
  ∃ w',
    execute_all Scenario.config Scenario.parse_url Scenario.parse_response
      Scenario.serves_ok (replicate 10 Scenario.get_a) initial_world
    = Some (w', Returns tt)
    ∧ sockets_created initial_world + length (replicate 10 Scenario.get_a)
      ≤ sockets_created w'
    ∧ sockets_created w' - sockets_created initial_world
      = exchanges w' - exchanges initial_world
    ∧ sockets_open w' = sockets_open initial_world
    ∧ peak_open w'
      ≤ Nat.max (peak_open initial_world) (S (sockets_open initial_world)).
Proof.
  apply (sockets_opened_by_sequential_requests Scenario.config Scenario.parse_url
           Scenario.parse_response Scenario.serves_ok
           (replicate 10 Scenario.get_a) initial_world).
  - intros r _. reflexivity.
  - intros n r u. reflexivity.
  - intros n r u. reflexivity.
Defined.

(** Ten sequential requests to one origin construct ten sockets where
    five connections per host are allowed. *)
Lemma ten_requests_construct_ten_sockets :
  ∃ w',
    execute_all Scenario.config Scenario.parse_url Scenario.parse_response
      Scenario.serves_ok (replicate 10 Scenario.get_a) initial_world
    = Some (w', Returns tt)
    ∧ ClientConfig.max_connections_per_host Scenario.config = 5
    ∧ sockets_created w' = 10
    ∧ ¬ (sockets_created w' ≤ ClientConfig.max_connections_per_host Scenario.config).
Proof.
  eexists. split; [vm_compute; reflexivity|].
  split; [reflexivity|]. split; [reflexivity|]. cbn. lia.
Qed.

(** A peer that takes the request and stays silent: the call never comes
    back, and its socket stays open. *)
Example silent_peer_hangs :
  execute Scenario.config Scenario.parse_url Scenario.parse_response
    Scenario.stays_silent Scenario.get_a initial_world
  = Some (mkWorld 1 1 1 1 [Scenario.get_a], Hangs).
Proof. reflexivity. Qed.

End ClientFacts.

(** ** Events written and read back *)

Module SseTextFacts.
Import SseText.

Lemma find_char_app_l (c : ascii) (s t : string) :
  Str.find_char c s = None →
  Str.find_char c (s +:+ t)
  = match Str.find_char c t with
    | Some n => Some (String.length s + n)
    | None => None
    end.
Proof.
  induction s as [|d s IH]; intros H.
  - rewrite StrFacts.app_nil_l. destruct (Str.find_char c t); reflexivity.
  - rewrite StrFacts.app_cons. cbn [Str.find_char String.length] in *.
    destruct (Ascii.eqb d c); [discriminate|].
    destruct (Str.find_char c s); [discriminate|].
    rewrite IH by reflexivity. destruct (Str.find_char c t); reflexivity.
Qed.

Lemma substr_to_app (s t : string) : Str.substr_to (String.length s) (s +:+ t) = s.
Proof.
  induction s as [|c s IH]; [destruct t; reflexivity|].
  rewrite StrFacts.app_cons. cbn [String.length Str.substr_to]. rewrite IH. reflexivity.
Qed.

Lemma substr_from_app (s t : string) : Str.substr_from (String.length s) (s +:+ t) = t.
Proof.
  induction s as [|c s IH]; [reflexivity|].
  rewrite StrFacts.app_cons. cbn [String.length Str.substr_from]. exact IH.
Qed.

Lemma back_app (s t : string) : t ≠ "" → Str.back (s +:+ t) = Str.back t.
Proof.
  intros Ht. induction s as [|c s IH]; [reflexivity|].
  rewrite StrFacts.app_cons. cbn [Str.back]. rewrite IH.
  destruct (s +:+ t) eqn:E; [|reflexivity].
  destruct s, t; try discriminate; congruence.
Qed.

Lemma empty_app (s t : string) : Str.empty (s +:+ t) = Str.empty s && Str.empty t.
Proof. destruct s; [destruct t; reflexivity|reflexivity]. Qed.

Lemma ends_with_app (c : ascii) (s t : string) :
  t ≠ "" → Str.ends_with c (s +:+ t) = Str.ends_with c t.
Proof.
  intros Ht. unfold Str.ends_with. rewrite empty_app, back_app by exact Ht.
  destruct t; [congruence|]. cbn [Str.empty]. rewrite andb_false_r. reflexivity.
Qed.

Lemma field_line_ends_with_CR (name v : string) :
  Str.ends_with Str.CR (field_line name v) = Str.ends_with Str.CR v.
Proof.
  unfold field_line. destruct v as [|c v].
  - rewrite ends_with_app by discriminate. reflexivity.
  - rewrite ends_with_app by discriminate.
    change (": " +:+ String c v) with (String ":" (String " " "") +:+ String c v).
    rewrite ends_with_app by discriminate. reflexivity.
Qed.

(** A field line is parsed into its name and its value. *)
Lemma parse_field_line (name v : string) current_event data_lines events :
  field_name name = true → Str.ends_with Str.CR v = false →
  Sse.parse_sse_line (field_line name v) current_event data_lines events
  = store name v (current_event, data_lines, events).
Proof.
  unfold field_name. intros Hn Hv.
  apply andb_true_iff in Hn as [Hn _]. apply andb_true_iff in Hn as [Hne Hcolon].
  destruct (Str.find_char Str.COLON name) eqn:Hc; [discriminate|]. clear Hcolon.
  unfold Sse.parse_sse_line, store.
  rewrite field_line_ends_with_CR, Hv.
  unfold field_line. rewrite empty_app.
  destruct name as [|c name]; [discriminate|]. cbn [Str.empty andb].
  assert (Hfront : Ascii.eqb c Str.COLON = false).
  { cbn [Str.find_char] in Hc. destruct (Ascii.eqb c Str.COLON); [discriminate|reflexivity]. }
  rewrite StrFacts.app_cons. cbn [Str.front]. rewrite Hfront.
  rewrite <- StrFacts.app_cons.
  rewrite (find_char_app_l _ _ _ Hc).
  change (Str.find_char Str.COLON (": " +:+ v)) with (Some 0).
  cbv beta iota. rewrite Nat.add_0_r, substr_to_app.
  replace (String.length (String c name) + 1)
    with (String.length (String c name +:+ ":")) by (rewrite StrFacts.length_app; reflexivity).
  change (": " +:+ v) with (":" +:+ String Str.SP v).
  rewrite <- StrFacts.app_assoc, substr_from_app.
  reflexivity.
Qed.

Lemma getlines_line (l rest : string) :
  Str.find_char Str.LF l = None →
  Str.getlines (l +:+ Str.lf +:+ rest) = l :: Str.getlines rest.
Proof.
  intros H. rewrite StrFacts.getlines_unfold.
  change (l +:+ Str.lf +:+ rest) with (l +:+ String Str.LF rest).
  rewrite (StrFacts.getline_app l rest H). reflexivity.
Qed.

Lemma one_line_no_lf (v : string) :
  one_line v = true → Str.find_char Str.LF v = None.
Proof.
  unfold one_line. destruct (Str.find_char Str.LF v); [discriminate|reflexivity].
Qed.

Lemma one_line_no_cr (v : string) :
  one_line v = true → Str.ends_with Str.CR v = false.
Proof.
  unfold one_line. intros H. apply andb_true_iff in H as [_ H].
  apply negb_true_iff in H. exact H.
Qed.

Lemma getlines_unlines_lf (lines : list string) :
  Forall (λ l, Str.find_char Str.LF l = None) lines →
  Str.getlines (unlines Str.lf lines) = lines.
Proof.
  induction 1 as [|l lines Hl _ IH]; [reflexivity|].
  cbn [unlines]. rewrite (getlines_line _ _ Hl), IH. reflexivity.
Qed.

Lemma find_char_snoc_ne (c d : ascii) (s : string) :
  Str.find_char c s = None → Ascii.eqb d c = false →
  Str.find_char c (s +:+ String d "") = None.
Proof.
  intros Hs Hd. rewrite (find_char_app_l _ _ _ Hs).
  cbn [Str.find_char]. rewrite Hd. reflexivity.
Qed.

Lemma getlines_unlines_crlf (lines : list string) :
  Forall (λ l, Str.find_char Str.LF l = None) lines →
  Str.getlines (unlines Str.crlf lines)
  = (λ l, l +:+ String Str.CR "") <$> lines.
Proof.
  induction 1 as [|l lines Hl _ IH]; [reflexivity|].
  cbn [unlines fmap list_fmap].
  replace (l +:+ Str.crlf +:+ unlines Str.crlf lines)
    with ((l +:+ String Str.CR "") +:+ Str.lf +:+ unlines Str.crlf lines)
    by (rewrite StrFacts.app_assoc; reflexivity).
  rewrite getlines_line by (apply find_char_snoc_ne; [exact Hl|reflexivity]).
  rewrite IH. reflexivity.
Qed.

Lemma unlines_app (eol : string) (l1 l2 : list string) :
  unlines eol (l1 ++ l2) = unlines eol l1 +:+ unlines eol l2.
Proof.
  induction l1 as [|l l1 IH]; [reflexivity|].
  cbn [app unlines]. rewrite IH, !StrFacts.app_assoc. reflexivity.
Qed.

(** The whole-stream parser in terms of the line-by-line one. *)
Lemma parse_sse_stream_feed (stream_data : string) :
  Sse.parse_sse_stream stream_data
  = Sse.flush_last
      (Sse.feed_lines (Str.getlines stream_data) (SseEvent.init, [], [])).
Proof. unfold Sse.parse_sse_stream. rewrite SseFacts.loop_feed_lines. reflexivity. Qed.

Lemma feed_lines_cons (line : string) (lines : list string) current_event data_lines events :
  Sse.feed_lines (line :: lines) (current_event, data_lines, events)
  = Sse.feed_lines lines (Sse.parse_sse_line line current_event data_lines events).
Proof. reflexivity. Qed.

(** A carriage return at the end of a line makes no difference. *)
Lemma parse_sse_line_cr (line : string) current_event data_lines events :
  Str.ends_with Str.CR line = false →
  Sse.parse_sse_line (line +:+ String Str.CR "") current_event data_lines events
  = Sse.parse_sse_line line current_event data_lines events.
Proof.
  intros H. unfold Sse.parse_sse_line.
  rewrite ends_with_app by discriminate.
  change (Str.ends_with Str.CR (String Str.CR "")) with true. cbv iota.
  rewrite StrFacts.pop_back_snoc, H. reflexivity.
Qed.

Lemma feed_lines_crlf (lines : list string) (st : Sse.state) :
  Forall (λ l, Str.ends_with Str.CR l = false) lines →
  Sse.feed_lines ((λ l, l +:+ String Str.CR "") <$> lines) st
  = Sse.feed_lines lines st.
Proof.
  intros H. revert st. induction H as [|l lines Hl _ IH];
    intros [[current_event data_lines] events]; [reflexivity|].
  cbn [fmap list_fmap Sse.feed_lines]. rewrite (parse_sse_line_cr _ _ _ _ Hl).
  apply IH.
Qed.

Lemma Forall_one_line_lf (lines : list string) :
  Forall (λ l, one_line l = true) lines →
  Forall (λ l, Str.find_char Str.LF l = None) lines.
Proof. intros H. eapply Forall_impl; [exact H|]. intros l. apply one_line_no_lf. Qed.

Lemma Forall_one_line_cr (lines : list string) :
  Forall (λ l, one_line l = true) lines →
  Forall (λ l, Str.ends_with Str.CR l = false) lines.
Proof. intros H. eapply Forall_impl; [exact H|]. intros l. apply one_line_no_cr. Qed.

(** CRLF and LF line ends give the same events. *)
Theorem crlf_or_lf_same_events (lines : list string)
    (Hlines : Forall (λ l, one_line l = true) lines) :
  Sse.parse_sse_stream (unlines Str.crlf lines)
  = Sse.parse_sse_stream (unlines Str.lf lines).
Proof.
  rewrite !parse_sse_stream_feed.
  rewrite getlines_unlines_crlf, getlines_unlines_lf
    by (apply Forall_one_line_lf, Hlines).
  rewrite feed_lines_crlf by (apply Forall_one_line_cr, Hlines).
  reflexivity.
Qed.

Lemma to_string_unlines (e : SseEvent.t) :
  to_string e = unlines Str.lf (to_lines e).
Proof.
  unfold to_string, to_lines, optional_line. rewrite !unlines_app.
  repeat (f_equal; [destruct (negb _); cbn [unlines];
                    rewrite ?StrFacts.app_nil_r, ?StrFacts.app_assoc; reflexivity|]).
  destruct (negb _); cbn [unlines]; rewrite ?StrFacts.app_nil_r, ?StrFacts.app_assoc; reflexivity.
Qed.

Lemma field_line_no_lf (name v : string) :
  Str.find_char Str.LF name = None → Str.find_char Str.LF v = None →
  Str.find_char Str.LF (field_line name v) = None.
Proof.
  intros Hn Hv. unfold field_line. rewrite (find_char_app_l _ _ _ Hn).
  change (": " +:+ v) with (String ":" (String " " v)).
  cbn [Str.find_char]. change (Ascii.eqb ":" Str.LF) with false.
  change (Ascii.eqb " " Str.LF) with false. cbv iota. rewrite Hv. reflexivity.
Qed.

Lemma optional_line_no_lf (name v : string) :
  Str.find_char Str.LF name = None → one_line v = true →
  Forall (λ l, Str.find_char Str.LF l = None) (optional_line name v).
Proof.
  intros Hn Hv. unfold optional_line. destruct (negb _); [|constructor].
  constructor; [|constructor]. apply field_line_no_lf; [exact Hn|].
  apply one_line_no_lf, Hv.
Qed.

Lemma feed_optional_line (name v : string) (st : Sse.state) :
  field_name name = true → one_line v = true →
  Sse.feed_lines (optional_line name v) st
  = if negb (Str.empty v) then store name v st else st.
Proof.
  intros Hn Hv. unfold optional_line. destruct (negb _); [|reflexivity].
  destruct st as [[current_event data_lines] events]. cbn [Sse.feed_lines].
  apply parse_field_line; [exact Hn|]. apply one_line_no_cr, Hv.
Qed.

(** Printing an event and parsing the text gives the event back. *)
Theorem to_string_round_trip (e : SseEvent.t)
    (Hfields : SseEvent.fields e = ∅)
    (Htype : one_line (SseEvent.type e) = true)
    (Hid : one_line (SseEvent.id e) = true)
    (Hretry : one_line (SseEvent.retry e) = true)
    (Hdata : one_line (SseEvent.data e) = true)
    (Hcontent : SseEvent.empty e = false) :
  Sse.parse_sse_stream (to_string e) = [e].
Proof.
  rewrite to_string_unlines, parse_sse_stream_feed.
  rewrite getlines_unlines_lf.
  2:{ unfold to_lines. rewrite !Forall_app.
      repeat split; apply optional_line_no_lf; (reflexivity || assumption). }
  unfold to_lines. rewrite !SseFacts.feed_lines_app.
  rewrite !feed_optional_line by (reflexivity || assumption).
  destruct e as [ty da i re fs]. cbn [SseEvent.type SseEvent.data SseEvent.id
    SseEvent.retry SseEvent.fields] in *. subst fs.
  unfold SseEvent.empty in Hcontent. cbn [SseEvent.type SseEvent.data SseEvent.id] in Hcontent.
  destruct ty, da, i, re; try discriminate Hcontent; reflexivity.
Qed.

(** *** What the parsers keep *)

(** One line dispatches at most one event and leaves the earlier ones as
    they are. *)
Lemma parse_sse_line_events (line : string) current_event data_lines events :
  ∃ tail,
    Sse.events_of (Sse.parse_sse_line line current_event data_lines events)
    = events ++ tail
    ∧ length tail ≤ 1
    ∧ Forall (λ e, SseEvent.empty e = false) tail.
Proof.
  unfold Sse.parse_sse_line.
  repeat case_match; simplify_eq; unfold Sse.events_of; cbn [snd].
  all: try (exists []; rewrite app_nil_r; split; [reflexivity|]; split; [cbn; lia|constructor]).
  all: eexists [_]; split; [reflexivity|]; split; [cbn; lia|].
  all: constructor; [|constructor].
  all: match goal with
       | H : negb _ = true |- _ => apply negb_true_iff in H; exact H
       end.
Qed.

Lemma feed_lines_events (lines : list string) (st : Sse.state) :
  ∃ tail,
    Sse.events_of (Sse.feed_lines lines st) = Sse.events_of st ++ tail
    ∧ length tail ≤ length lines
    ∧ Forall (λ e, SseEvent.empty e = false) tail.
Proof.
  revert st. induction lines as [|line lines IH];
    intros [[current_event data_lines] events].
  - exists []. rewrite app_nil_r. repeat split; [cbn; lia|constructor].
  - cbn [Sse.feed_lines].
    destruct (parse_sse_line_events line current_event data_lines events)
      as (t1 & E1 & L1 & F1).
    destruct (IH (Sse.parse_sse_line line current_event data_lines events))
      as (t2 & E2 & L2 & F2).
    exists (t1 ++ t2). rewrite E2, E1, app_assoc.
    repeat split; [rewrite length_app; cbn [length]; lia|].
    apply Forall_app. split; assumption.
Qed.

Lemma flush_last_events (st : Sse.state) :
  ∃ tail,
    Sse.flush_last st = Sse.events_of st ++ tail
    ∧ Forall (λ e, SseEvent.empty e = false) tail.
Proof.
  destruct st as [[current_event data_lines] events].
  unfold Sse.flush_last, Sse.events_of. cbn [snd].
  repeat case_match.
  all: try (exists []; rewrite app_nil_r; split; [reflexivity|constructor]).
  all: eexists [_]; split; [reflexivity|].
  all: constructor; [|constructor].
  all: match goal with
       | H : negb _ = true |- _ => apply negb_true_iff in H; exact H
       end.
Qed.

(** No event that [parse_sse_stream] returns is empty, and there are at
    most as many events as the stream has lines, plus one. *)
Theorem dispatched_events_not_empty (stream_data : string) :
  Forall (λ e, SseEvent.empty e = false) (Sse.parse_sse_stream stream_data)
  ∧ length (Sse.parse_sse_stream stream_data)
    ≤ S (length (Str.getlines stream_data)).
Proof.
  rewrite parse_sse_stream_feed.
  destruct (feed_lines_events (Str.getlines stream_data) (SseEvent.init, [], []))
    as (t1 & E1 & L1 & F1).
  destruct (flush_last_events
              (Sse.feed_lines (Str.getlines stream_data) (SseEvent.init, [], [])))
    as (t2 & E2 & F2).
  rewrite E2, E1. cbn [Sse.events_of snd app]. split.
  - apply Forall_app. split; assumption.
  - destruct (SseFacts.flush_last_tail
                (Sse.feed_lines (Str.getlines stream_data) (SseEvent.init, [], [])))
      as (t3 & E3 & L3 & _).
    rewrite E2 in E3. apply app_inv_head in E3. subst t3.
    rewrite length_app. lia.
Qed.

Lemma getlines_app (s1 s2 : string) :
  line_complete s1 = true →
  Str.getlines (s1 +:+ s2) = Str.getlines s1 ++ Str.getlines s2.
Proof.
  unfold line_complete. induction s1 as [|c s1 IH]; intros H; [reflexivity|].
  rewrite StrFacts.app_cons. cbn [Str.getlines].
  destruct (Ascii.eqb c Str.LF) eqn:Ec.
  - destruct s1 as [|d s1]; [reflexivity|].
    rewrite IH by exact H. reflexivity.
  - destruct s1 as [|d s1]; [cbn in H; congruence|].
    rewrite IH by exact H.
    destruct (Str.getlines (String d s1)) eqn:E; [|reflexivity].
    exfalso. clear -E. cbn [Str.getlines] in E.
    destruct (Ascii.eqb d Str.LF); [discriminate|].
    destruct (Str.getlines s1); discriminate.
Qed.

(** Events dispatched from the first part of a stream stay as they are
    when more of the stream is parsed. *)
Theorem incremental_events_only_grow (s1 s2 : string)
    (Hcomplete : line_complete s1 = true) :
  Sse.parse_incremental s1 `prefix_of` Sse.parse_incremental (s1 +:+ s2).
Proof.
  unfold Sse.parse_incremental. rewrite (getlines_app _ _ Hcomplete).
  rewrite SseFacts.feed_lines_app.
  destruct (feed_lines_events (Str.getlines s2)
              (Sse.feed_lines (Str.getlines s1) (SseEvent.init, [], [])))
    as (tail & E & _).
  rewrite E. exists tail. reflexivity.
Qed.

(** *** Comments, data lines, unknown fields *)

Lemma parse_comment_line (c : string) current_event data_lines events :
  Sse.parse_sse_line (String Str.COLON c) current_event data_lines events
  = (current_event, data_lines, events).
Proof.
  unfold Sse.parse_sse_line.
  destruct (Str.ends_with Str.CR (String Str.COLON c)) eqn:E.
  - destruct c as [|d c]; [discriminate E|]. reflexivity.
  - reflexivity.
Qed.

(** A comment line between two lines of a stream changes nothing. *)
Theorem comment_line_ignored (s1 c s2 : string)
    (Hcomplete : line_complete s1 = true)
    (Hc : Str.find_char Str.LF c = None) :
  Sse.parse_sse_stream (s1 +:+ String Str.COLON c +:+ Str.lf +:+ s2)
  = Sse.parse_sse_stream (s1 +:+ s2).
Proof.
  rewrite !parse_sse_stream_feed, !(getlines_app _ _ Hcomplete).
  rewrite getlines_line
    by (cbn [Str.find_char]; change (Ascii.eqb Str.COLON Str.LF) with false;
        cbv iota; rewrite Hc; reflexivity).
  rewrite !SseFacts.feed_lines_app.
  destruct (Sse.feed_lines (Str.getlines s1) (SseEvent.init, [], []))
    as [[current_event data_lines] events].
  rewrite feed_lines_cons, parse_comment_line. reflexivity.
Qed.

Lemma join_data_lines_next (i : nat) (acc : string) (vs : list string) :
  Sse.join_data_lines (S i) acc vs
  = acc +:+ String.concat "" ((λ v, Str.lf +:+ v) <$> vs).
Proof.
  revert i acc. induction vs as [|v vs IH]; intros i acc.
  - cbn. rewrite StrFacts.app_nil_r. reflexivity.
  - cbn [Sse.join_data_lines Nat.ltb Nat.leb fmap list_fmap].
    rewrite IH. rewrite !StrFacts.app_assoc. f_equal. f_equal.
    destruct vs; [cbn; rewrite StrFacts.app_nil_r; reflexivity|reflexivity].
Qed.

(** The loop over [data_lines] joins them with single line feeds. *)
Lemma join_data_lines_concat (vs : list string) :
  Sse.join_data_lines 0 "" vs = String.concat Str.lf vs.
Proof.
  destruct vs as [|v vs]; [reflexivity|].
  cbn [Sse.join_data_lines Nat.ltb Nat.leb]. rewrite StrFacts.app_nil_l.
  rewrite join_data_lines_next.
  revert v. induction vs as [|w vs IH]; intros v.
  - cbn. rewrite StrFacts.app_nil_r. reflexivity.
  - specialize (IH w). cbn [fmap list_fmap] in *.
    change (String.concat Str.lf (v :: w :: vs))
      with (v +:+ Str.lf +:+ String.concat Str.lf (w :: vs)).
    rewrite <- IH. f_equal.
    destruct vs; [cbn; rewrite !StrFacts.app_nil_r; reflexivity|].
    cbn [fmap list_fmap String.concat]. rewrite !StrFacts.app_assoc. reflexivity.
Qed.

Lemma feed_data_lines (vs : list string) current_event data_lines events :
  Forall (λ v, one_line v = true) vs →
  Sse.feed_lines (field_line "data" <$> vs) (current_event, data_lines, events)
  = (current_event, data_lines ++ vs, events).
Proof.
  intros H. revert data_lines. induction H as [|v vs Hv _ IH]; intros data_lines.
  - cbn. rewrite List.app_nil_r. reflexivity.
  - cbn [fmap list_fmap]. rewrite feed_lines_cons.
    rewrite parse_field_line by (reflexivity || apply one_line_no_cr, Hv).
    change (store "data" v (current_event, data_lines, events))
      with (current_event, data_lines ++ [v], events).
    rewrite IH, <- List.app_assoc. reflexivity.
Qed.

(** A block of data lines closed by a blank line is one event whose data
    are the values joined by single line feeds; no event when the joined
    text is empty. *)
Theorem data_lines_joined (vs : list string)
    (Hvs : Forall (λ v, one_line v = true) vs) :
  Sse.parse_sse_stream (unlines Str.lf ((field_line "data" <$> vs) ++ [""]))
  = if Str.empty (String.concat Str.lf vs) then []
    else [SseEvent.mk "" (String.concat Str.lf vs) "" "" ∅].
Proof.
  rewrite parse_sse_stream_feed, getlines_unlines_lf.
  2:{ apply Forall_app. split; [|repeat constructor].
      apply Forall_fmap. eapply Forall_impl; [exact Hvs|].
      intros v Hv. apply field_line_no_lf; [reflexivity|apply one_line_no_lf, Hv]. }
  rewrite SseFacts.feed_lines_app, (feed_data_lines _ _ _ _ Hvs).
  cbn [app Sse.feed_lines]. unfold Sse.parse_sse_line.
  change (Str.ends_with Str.CR "") with false. cbv iota.
  change (Str.empty "") with true. cbv iota.
  destruct vs as [|v vs]; [reflexivity|].
  change (Sse.pending SseEvent.init (v :: vs)) with true. cbv iota.
  change (SseEvent.data SseEvent.init) with "".
  rewrite join_data_lines_concat.
  generalize (String.concat Str.lf (v :: vs)). intros joined.
  unfold SseEvent.empty, SseEvent.set_data, Sse.flush_last. cbn.
  destruct (Str.empty joined); reflexivity.
Qed.

(** A block that holds only an unknown field dispatches nothing, and the
    field is still there when the next event is dispatched. *)
Theorem unknown_field_carried_over (name v d : string)
    (Hname : custom_name name = true)
    (Hv : one_line v = true)
    (Hd : one_line d = true)
    (Hdata : Str.empty d = false) :
  Sse.parse_sse_stream (unlines Str.lf [field_line name v; ""])
  = []
  ∧ Sse.parse_sse_stream
      (unlines Str.lf [field_line name v; ""; field_line "data" d; ""])
    = [SseEvent.mk "" d "" "" {[name := v]}].
Proof.
  unfold custom_name in Hname.
  do 4 (apply andb_true_iff in Hname as [Hname ?]).
  repeat match goal with H : negb _ = true |- _ => apply negb_true_iff in H end.
  assert (Hnlf : Str.find_char Str.LF name = None).
  { pose proof Hname as Hn. unfold field_name in Hn.
    apply andb_true_iff in Hn as [_ Hn]. apply one_line_no_lf, Hn. }
  assert (Hstore : ∀ cur dl ev,
            Sse.parse_sse_line (field_line name v) cur dl ev
            = (SseEvent.set_field cur name v, dl, ev)).
  { intros. rewrite parse_field_line by (assumption || apply one_line_no_cr, Hv).
    unfold store.
    repeat match goal with H : Str.eqb _ _ = false |- _ => rewrite H; clear H end.
    reflexivity. }
  split.
  - rewrite parse_sse_stream_feed, getlines_unlines_lf.
    2:{ repeat constructor. apply field_line_no_lf; [exact Hnlf|apply one_line_no_lf, Hv]. }
    rewrite feed_lines_cons, Hstore. reflexivity.
  - rewrite parse_sse_stream_feed, getlines_unlines_lf.
    2:{ repeat constructor.
        - apply field_line_no_lf; [exact Hnlf|apply one_line_no_lf, Hv].
        - apply field_line_no_lf; [reflexivity|apply one_line_no_lf, Hd]. }
    rewrite feed_lines_cons, Hstore.
    rewrite feed_lines_cons.
    change (Sse.parse_sse_line "" (SseEvent.set_field SseEvent.init name v) [] [])
      with (SseEvent.set_field SseEvent.init name v, @nil string, @nil SseEvent.t).
    rewrite feed_lines_cons.
    rewrite parse_field_line by (reflexivity || apply one_line_no_cr, Hd).
    destruct d as [|c d]; [discriminate|]. reflexivity.
Qed.


(** *** Instances *)

(** An event block with CRLF line ends. *)
Lemma crlf_or_lf_same_events_witness :
  Sse.parse_sse_stream (unlines Str.crlf ["event: tick"; "data: a"; ""])
  = Sse.parse_sse_stream (unlines Str.lf ["event: tick"; "data: a"; ""]).
Proof.
  apply (crlf_or_lf_same_events ["event: tick"; "data: a"; ""]).
  repeat constructor.
Defined.

(** An event with all four fields. *)
Lemma to_string_round_trip_witness :
  Sse.parse_sse_stream (to_string (SseEvent.mk "update" "hello" "7" "3000" ∅))
  = [SseEvent.mk "update" "hello" "7" "3000" ∅].
Proof.
  apply (to_string_round_trip (SseEvent.mk "update" "hello" "7" "3000" ∅));
    reflexivity.
Defined.

(** Two events, the stream cut between them. *)
Lemma incremental_events_only_grow_witness :
  Sse.parse_incremental (unlines Str.lf ["data: a"; ""])
  `prefix_of` Sse.parse_incremental
                (unlines Str.lf ["data: a"; ""] +:+ unlines Str.lf ["data: b"; ""]).
Proof.
  apply (incremental_events_only_grow (unlines Str.lf ["data: a"; ""])
           (unlines Str.lf ["data: b"; ""])).
  reflexivity.
Defined.

(** A keep-alive comment between a data line and the blank line. *)
Lemma comment_line_ignored_witness :
  Sse.parse_sse_stream
    (unlines Str.lf ["data: a"] +:+ String Str.COLON " keep-alive" +:+ Str.lf
     +:+ unlines Str.lf [""])
  = Sse.parse_sse_stream (unlines Str.lf ["data: a"] +:+ unlines Str.lf [""]).
Proof.
  apply (comment_line_ignored (unlines Str.lf ["data: a"]) " keep-alive"
           (unlines Str.lf [""])); reflexivity.
Defined.

(** Two data lines. *)
Lemma data_lines_joined_witness :
  Sse.parse_sse_stream (unlines Str.lf ["data: a"; "data: b"; ""])
  = [SseEvent.mk "" ("a" +:+ Str.lf +:+ "b") "" "" ∅].
Proof.
  apply (data_lines_joined ["a"; "b"]). repeat constructor.
Defined.

(** A field [x-trace] in a block of its own, before a data block. *)
Lemma unknown_field_carried_over_witness :
  Sse.parse_sse_stream (unlines Str.lf ["x-trace: 1"; ""]) = []
  ∧ Sse.parse_sse_stream (unlines Str.lf ["x-trace: 1"; ""; "data: a"; ""])
    = [SseEvent.mk "" "a" "" "" {["x-trace" := "1"]}].
Proof.
  apply (unknown_field_carried_over "x-trace" "1" "a"); reflexivity.
Defined.

End SseTextFacts.

(** ** Chunked bodies that end early or go on *)

Module ChunkedWireFacts.
Import Chunked ChunkedWire.

Lemma encode_chunks_then_length (chunks : list (string * string)) (tail : string) :
  length chunks + String.length tail
  ≤ String.length (encode_chunks_then chunks tail).
Proof.
  induction chunks as [|[size_line bytes] chunks IH]; [cbn; lia|].
  cbn [encode_chunks_then length]. rewrite !StrFacts.length_app.
  change (String.length Str.crlf) with 2. lia.
Qed.

(** The loop takes one iteration for each well-formed chunk and goes on
    with what follows them. *)
Lemma decode_loop_chunks_then (available : N)
    (chunks : list (string * string)) (tail : string) :
  forallb well_formed_chunk chunks = true →
  (N.of_nat (String.length (encode_chunks_then chunks tail)) <= available)%N →
  ∀ fuel result,
    decode_loop available (length chunks + fuel) (encode_chunks_then chunks tail) result
    = decode_loop available fuel tail (result +:+ chunk_bytes chunks).
Proof.
  induction chunks as [|[size_line bytes] chunks IH]; intros Hwf Hfit fuel result.
  - cbn [chunk_bytes length encode_chunks_then Nat.add].
    rewrite StrFacts.app_nil_r. reflexivity.
  - cbn [forallb] in Hwf. apply andb_true_iff in Hwf as [Hc Hrest].
    cbn [encode_chunks_then chunk_bytes length Nat.add] in *.
    rewrite !StrFacts.length_app in Hfit.
    rewrite (ChunkedFacts.decode_loop_chunk available _ _ _ _ _ Hc) by lia.
    rewrite IH by (try exact Hrest; lia).
    rewrite StrFacts.app_assoc. reflexivity.
Qed.

(** More fuel does not change a result. *)
Lemma decode_loop_more_fuel (available : N) (fuel : nat) :
  ∀ stream result o extra,
    decode_loop available fuel stream result = Some o →
    decode_loop available (fuel + extra) stream result = Some o.
Proof.
  induction fuel as [|fuel IH]; intros stream result o extra H; [discriminate|].
  cbn [Nat.add]. rewrite ChunkedFacts.decode_loop_step in *. cbv zeta in *.
  repeat case_match; simplify_eq; try reflexivity; try assumption;
    apply IH; assumption.
Qed.

(** What [decode_chunked] returns for chunks followed by [tail], in terms
    of the loop run on [tail] alone. *)
Lemma decode_chunked_then (headroom : N) (chunks : list (string * string))
    (tail : string) (fuel : nat) (o : outcome) :
  forallb well_formed_chunk chunks = true →
  fuel ≤ S (String.length tail) →
  decode_loop (N.of_nat (String.length (encode_chunks_then chunks tail)) + headroom)
    fuel tail (chunk_bytes chunks) = Some o →
  decode_chunked headroom (encode_chunks_then chunks tail) = Some o.
Proof.
  intros Hwf Hfuel Hrun. unfold decode_chunked.
  pose proof (encode_chunks_then_length chunks tail) as Hlen.
  replace (S (String.length (encode_chunks_then chunks tail)))
    with (length chunks
          + (fuel + (S (String.length (encode_chunks_then chunks tail))
                     - length chunks - fuel))) by lia.
  rewrite (decode_loop_chunks_then _ chunks tail Hwf) by lia.
  cbn [String.append].
  apply decode_loop_more_fuel. exact Hrun.
Qed.

(** The loop on a size line at which it breaks. *)
Lemma decode_loop_stops (available : N) (line tail result : string) (fuel : nat) :
  stops_decoding line = true →
  decode_loop available (S fuel) (line +:+ Str.crlf +:+ tail) result
  = Some (Returned result).
Proof.
  unfold stops_decoding. intros H. apply andb_true_iff in H as [Hstop Hlf].
  destruct (Str.find_char Str.LF line) eqn:Hl; [discriminate|]. clear Hlf.
  replace (line +:+ Str.crlf +:+ tail)
    with ((line +:+ String Str.CR "") +:+ String Str.LF tail)
    by (rewrite StrFacts.app_assoc; reflexivity).
  rewrite ChunkedFacts.decode_loop_step.
  rewrite StrFacts.getline_app
    by (apply ChunkedFacts.find_char_snoc; [exact Hl|reflexivity]).
  rewrite StrFacts.back_snoc. cbv zeta.
  rewrite Ascii.eqb_refl, StrFacts.pop_back_snoc.
  destruct (stoul16 line) as [n|] eqn:Hn.
  - rewrite (ChunkedFacts.stoul16_nonempty _ _ Hn), Hstop. reflexivity.
  - apply negb_true_iff in Hstop. rewrite Hstop. reflexivity.
Qed.

(** Decoding ends at the first size line that reads as zero or does not
    read as a number; what follows it, trailers or anything else, is not
    looked at. *)
Theorem decoding_stops_at_last_chunk (headroom : N)
    (chunks : list (string * string)) (line tail : string)
    (Hwf : forallb well_formed_chunk chunks = true)
    (Hstop : stops_decoding line = true) :
  decode_chunked headroom (encode_chunks_then chunks (line +:+ Str.crlf +:+ tail))
  = Some (Returned (chunk_bytes chunks)).
Proof.
  apply (decode_chunked_then headroom chunks _ 1); [exact Hwf|lia|].
  apply decode_loop_stops, Hstop.
Qed.

(** A body that ends after a chunk, without the zero-size chunk, decodes
    like a complete one. *)
Theorem missing_last_chunk_tolerated (headroom : N)
    (chunks : list (string * string))
    (Hwf : forallb well_formed_chunk chunks = true) :
  decode_chunked headroom (encode_chunks_then chunks "")
  = Some (Returned (chunk_bytes chunks)).
Proof.
  apply (decode_chunked_then headroom chunks "" 1); [exact Hwf|cbn; lia|reflexivity].
Qed.

Lemma read_into_short (n : nat) (s : string) :
  String.length s ≤ n →
  Str.read_into n s = (s +:+ nuls (n - String.length s), "").
Proof.
  revert s. induction n as [|n IH]; intros s H.
  - destruct s; [reflexivity|cbn in H; lia].
  - destruct s as [|c s].
    + cbn [Str.read_into String.length Nat.sub]. rewrite (IH "") by (cbn; lia).
      cbn [fst String.length Nat.sub]. rewrite Nat.sub_0_r. reflexivity.
    + cbn [Str.read_into String.length Nat.sub] in *. rewrite IH by lia.
      reflexivity.
Qed.

(** A last chunk that is shorter than its size line says: when the
    allocator gives a block of the announced size, the chunk is filled up
    with NUL characters to that size and no error is reported; when it
    does not, [std::bad_alloc] leaves the function. *)
Theorem short_chunk_padded (headroom : N)
    (chunks : list (string * string)) (size_line bytes : string) (n : nat)
    (Hwf : forallb well_formed_chunk chunks = true)
    (Hlf : Str.find_char Str.LF size_line = None)
    (Hsize : stoul16 size_line = Some (N.of_nat n))
    (Hshort : String.length bytes < n)
    (Hfits : (N.of_nat n <= max_size)%N) :
  decode_chunked headroom
    (encode_chunks_then chunks (size_line +:+ Str.crlf +:+ bytes))
  = if (N.of_nat (String.length
                    (encode_chunks_then chunks (size_line +:+ Str.crlf +:+ bytes)))
        + headroom <? N.of_nat n)%N
    then Some BadAlloc
    else Some (Returned (chunk_bytes chunks +:+ bytes
                         +:+ nuls (n - String.length bytes))).
Proof.
  set (available := (_ + headroom)%N).
  assert (Hrun :
    decode_loop available 2 (size_line +:+ Str.crlf +:+ bytes) (chunk_bytes chunks)
    = if (available <? N.of_nat n)%N then Some BadAlloc
      else Some (Returned (chunk_bytes chunks +:+ bytes
                           +:+ nuls (n - String.length bytes)))).
  { replace (size_line +:+ Str.crlf +:+ bytes)
      with ((size_line +:+ String Str.CR "") +:+ String Str.LF bytes)
      by (rewrite StrFacts.app_assoc; reflexivity).
    rewrite ChunkedFacts.decode_loop_step.
    rewrite StrFacts.getline_app
      by (apply ChunkedFacts.find_char_snoc; [exact Hlf|reflexivity]).
    rewrite StrFacts.back_snoc. cbv zeta.
    rewrite Ascii.eqb_refl, StrFacts.pop_back_snoc.
    rewrite (ChunkedFacts.stoul16_nonempty _ _ Hsize), Hsize.
    destruct (N.eqb_spec (N.of_nat n) 0) as [Hz|_]; [lia|].
    destruct (N.ltb_spec max_size (N.of_nat n)) as [Hgt|_]; [lia|].
    destruct (N.ltb available (N.of_nat n)); [reflexivity|].
    rewrite Nat2N.id, read_into_short by lia.
    reflexivity. }
  assert (Hfuel : 2 ≤ S (String.length (size_line +:+ Str.crlf +:+ bytes))).
  { rewrite !StrFacts.length_app. change (String.length Str.crlf) with 2. lia. }
  destruct (available <? N.of_nat n)%N;
    exact (decode_chunked_then headroom chunks _ 2 _ Hwf Hfuel Hrun).
Qed.

(** *** Instances *)

(** One chunk, the last chunk, and a trailer. *)
Lemma decoding_stops_at_last_chunk_witness :
  decode_chunked 0
    (encode_chunks_then [("5", "Hello")]
       ("0" +:+ Str.crlf +:+ ("X-Trailer: 1" +:+ Str.crlf +:+ Str.crlf)))
  = Some (Returned "Hello").
Proof.
  apply (decoding_stops_at_last_chunk 0 [("5", "Hello")] "0"
           ("X-Trailer: 1" +:+ Str.crlf +:+ Str.crlf)); reflexivity.
Defined.

(** One chunk and nothing after it. *)
Lemma missing_last_chunk_tolerated_witness :
  decode_chunked 0 (encode_chunks_then [("5", "Hello")] "") = Some (Returned "Hello").
Proof.
  apply (missing_last_chunk_tolerated 0 [("5", "Hello")]). reflexivity.
Defined.

(** Five bytes announced, three sent. *)
Lemma short_chunk_padded_witness :
  decode_chunked 0 (encode_chunks_then [] ("5" +:+ Str.crlf +:+ "Hel"))
  = Some (Returned ("Hel" +:+ nuls 2)).
Proof.
  apply (short_chunk_padded 0 [] "5" "Hel" 5).
  - reflexivity.
  - reflexivity.
  - reflexivity.
  - cbn. lia.
  - vm_compute. discriminate.
Defined.

(** 4096 bytes announced, three sent, in a heap with 1024 bytes to
    spare. *)
Example short_chunk_bad_alloc :
  decode_chunked 1024 ("1000" +:+ Str.crlf +:+ "Hel") = Some BadAlloc.
Proof. vm_compute. reflexivity. Qed.

End ChunkedWireFacts.

(** ** The retry loop *)

Module RetryLoopFacts.
Import RetryPolicy.

Lemma iter_increment_attempt (n : nat) (p : t) :
  Nat.iter n increment_attempt p
  = mk (max_retries_ p) (initial_delay_ p) (backoff_factor_ p) (max_delay_ p)
       (retry_on_timeout_ p) (retry_on_connection_error_ p) (retry_on_5xx_ p)
       (current_attempt_ p + Z.of_nat n).
Proof.
  induction n as [|n IH].
  - cbn [Nat.iter nat_rect]. rewrite Z.add_0_r. destruct p; reflexivity.
  - change (Nat.iter (S n) increment_attempt p)
      with (increment_attempt (Nat.iter n increment_attempt p)).
    rewrite IH. unfold increment_attempt.
    cbn [max_retries_ initial_delay_ backoff_factor_ max_delay_ retry_on_timeout_
         retry_on_connection_error_ retry_on_5xx_ current_attempt_].
    f_equal. lia.
Qed.

(** Once the attempts made have reached [max_retries], [should_retry]
    answers no, whatever the error and the status. *)
Theorem no_retry_after_max_retries (p : t) (n : nat) (e : Exception.t) (status_code : Z)
    (Hn : (max_retries_ p <= current_attempt_ p + Z.of_nat n)%Z) :
  should_retry (Nat.iter n increment_attempt p) e status_code = false.
Proof.
  rewrite iter_increment_attempt. unfold should_retry.
  cbn [max_retries_ current_attempt_].
  destruct (Z.geb_spec (current_attempt_ p + Z.of_nat n) (max_retries_ p)); [reflexivity|lia].
Qed.


(** Three retries allowed and three made: a read timeout with a 503 is
    not retried any more. *)
Lemma no_retry_after_max_retries_witness :
  should_retry (Nat.iter 3 increment_attempt (mk 3 100 2 10000 true true true 0))
    (Exception.mk Exception.runtime_error "Read timeout") 503
  = false.
Proof.
  apply (no_retry_after_max_retries (mk 3 100 2 10000 true true true 0) 3).
  cbn. lia.
Defined.

End RetryLoopFacts.

Module BackoffGrowthFacts.

Import RetryPolicy.

Local Open Scope Q_scope.

Section BackoffGrowthFacts.

Variable pow : Q → Z → Double.t.

(** When [std::pow] gives finite values that are not negative and do not
    shrink from this attempt to the next, and the delay of the next
    attempt is defined, then the delay of this attempt, drawn with the same
    jitter, is defined and not longer: the two multiplications, their
    rounding, the conversion and the cap keep the order. *)
Theorem delay_grows_with_attempt (p : t) (jitter a b : Q) (next : Z)
    (Hk : (1 <= current_attempt_ p)%Z)
    (Hi : (0 <= initial_delay_ p)%Z)
    (Hj : 0 <= jitter)
    (Ha : pow (backoff_factor_ p) (current_attempt_ p) = Double.Finite a)
    (Hb : pow (backoff_factor_ p) (current_attempt_ p + 1) = Double.Finite b)
    (Hab : 0 <= a ∧ a <= b)
    (Hnext : get_delay pow (increment_attempt p) jitter = Some next) :
  ∃ d, get_delay pow p jitter = Some d ∧ (d <= next)%Z.
Proof.
  destruct Hab as [Ha0 Hab].
  rewrite BackoffFacts.get_delay_retry in Hnext by (cbn; lia).
  rewrite BackoffFacts.get_delay_retry by lia.
  unfold base_delay in *.
  cbn [increment_attempt initial_delay_ backoff_factor_ current_attempt_ max_delay_]
    in Hnext.
  rewrite Hb in Hnext. rewrite Ha.
  unfold Double.of_int64 in *.
  destruct (Double.round (inject_Z (initial_delay_ p))) as [i|] eqn:Ei;
    [|discriminate].
  assert (Hi0 : 0 <= i).
  { assert (H0 : 0 <= inject_Z (initial_delay_ p))
      by (change 0 with (inject_Z 0); rewrite <- Zle_Qle; exact Hi).
    destruct (DoubleFacts.round_nonneg_mono 0 _ _ (Qle_refl 0) H0 Ei) as (s & Hs & Hs0 & Hsi).
    change (Double.round 0) with (Double.Finite 0) in Hs.
    injection Hs as <-. exact Hsi. }
  cbn [Double.mul] in *.
  destruct (Double.round (i * b)) as [y|] eqn:Ey; [|discriminate].
  assert (H0 : 0 <= i * a) by (apply Qmult_le_0_compat; assumption).
  assert (Hle : i * a <= i * b).
  { rewrite !(Qmult_comm i). apply Qmult_le_compat_r; assumption. }
  destruct (DoubleFacts.round_nonneg_mono _ _ _ H0 Hle Ey) as (x & -> & Hx0 & Hxy).
  cbn [Double.mul] in *.
  destruct (Double.round (y * jitter)) as [v|] eqn:Ev; [|discriminate].
  assert (H0' : 0 <= x * jitter) by (apply Qmult_le_0_compat; assumption).
  assert (Hle' : x * jitter <= y * jitter) by (apply Qmult_le_compat_r; assumption).
  destruct (DoubleFacts.round_nonneg_mono _ _ _ H0' Hle' Ev) as (u & -> & Hu0 & Huv).
  destruct (Double.to_long_long (Double.Finite v)) as [hi|] eqn:Ehi; [|discriminate].
  destruct (DoubleFacts.to_long_long_mono u v hi Hu0 Huv Ehi) as (lo & -> & Hlo).
  injection Hnext as <-. eexists. split; [reflexivity|]. lia.
Qed.

End BackoffGrowthFacts.

(** 100 ms doubled at each attempt, from the first retry to the second. *)
Lemma delay_grows_with_attempt_witness :
  ∃ d, get_delay Double.pow_nearest (mk 5 100 2 10000 true true false 1) 1 = Some d
       ∧ (d <= 400)%Z.
Proof.
  apply (delay_grows_with_attempt Double.pow_nearest
           (mk 5 100 2 10000 true true false 1) 1 2 4 400).
  - cbn. lia.
  - cbn. lia.
  - discriminate.
  - vm_compute. reflexivity.
  - vm_compute. reflexivity.
  - split; discriminate.
  - vm_compute. reflexivity.
Defined.

End BackoffGrowthFacts.

(** ** Header names *)

Module HeaderFacts.
Import HttpResponse.

(** *** Comparison without case *)

Lemma equal_tolower_refl (a : string) : equal_tolower a a = true.
Proof.
  induction a as [|c a IH]; [reflexivity|].
  cbn [equal_tolower]. rewrite Ascii.eqb_refl. exact IH.
Qed.

Lemma strcasecmp_impl_cons (c d : ascii) (a b : string) :
  strcasecmp_impl (String c a) (String d b)
  = Ascii.eqb (tolower c) (tolower d) && strcasecmp_impl a b.
Proof.
  unfold strcasecmp_impl. cbn [String.length equal_tolower Nat.eqb].
  destruct (Ascii.eqb (tolower c) (tolower d)); [reflexivity|].
  rewrite andb_false_r. reflexivity.
Qed.

Lemma strcasecmp_impl_sym (a b : string) : strcasecmp_impl a b = strcasecmp_impl b a.
Proof.
  revert b. induction a as [|c a IH]; intros [|d b]; try reflexivity.
  rewrite !strcasecmp_impl_cons, IH, Ascii.eqb_sym. reflexivity.
Qed.

Lemma strcasecmp_impl_trans (a b c : string) :
  strcasecmp_impl a b = true → strcasecmp_impl b c = true →
  strcasecmp_impl a c = true.
Proof.
  revert b c. induction a as [|x a IH]; intros [|y b] [|z c]; try discriminate;
    try reflexivity.
  rewrite !strcasecmp_impl_cons, !andb_true_iff, !Ascii.eqb_eq.
  intros [-> Hab] [-> Hbc]. split; [reflexivity|]. eapply IH; eauto.
Qed.

(** [strcasecmp_impl] is an equivalence on strings, and equal strings are
    equivalent. *)
Theorem strcasecmp_impl_equivalence :
  Equivalence (λ a b, strcasecmp_impl a b = true).
Proof.
  split.
  - intros a. unfold strcasecmp_impl. rewrite Nat.eqb_refl. apply equal_tolower_refl.
  - intros a b H. rewrite strcasecmp_impl_sym. exact H.
  - intros a b c. apply strcasecmp_impl_trans.
Qed.

(** *** Which header a lookup without case finds *)

Global Instance key_le_trans : Transitive StdMap.key_le.
Proof. intros p q r. unfold StdMap.key_le. apply (transitivity (R := String.le)). Qed.

Lemma items_strongly_sorted (m : gmap string string) :
  StronglySorted StdMap.key_le (StdMap.items m).
Proof. apply Sorted_StronglySorted; [apply _|apply StdMapFacts.items_sorted]. Qed.

Lemma scan_headers_first (key : string) (entries : list (string * string)) (v : string) :
  StronglySorted StdMap.key_le entries →
  scan_headers key entries = Some v →
  ∃ k, (k, v) ∈ entries ∧ strcasecmp_impl k key = true
       ∧ ∀ k' v', (k', v') ∈ entries → strcasecmp_impl k' key = true →
                  String.le k k'.
Proof.
  induction 1 as [|[k0 v0] entries Hs IH Hall]; [discriminate|].
  cbn [scan_headers]. destruct (strcasecmp_impl k0 key) eqn:E.
  - intros [= ->]. exists k0. split; [left|]. split; [exact E|].
    intros k' v' Hin _. apply elem_of_cons in Hin as [[= -> ->]|Hin]; [reflexivity|].
    rewrite Forall_forall in Hall. exact (Hall _ Hin).
  - intros H. destruct (IH H) as (k & Hin & Hk & Hmin).
    exists k. split; [right; exact Hin|]. split; [exact Hk|].
    intros k' v' Hin' Hci. apply elem_of_cons in Hin' as [[= -> ->]|Hin'].
    + congruence.
    + eapply Hmin; eauto.
Qed.

(** Without an exact match, the header found is the one whose name comes
    first in the order of the map among those equal to the key up to
    case. *)
Theorem get_header_first_match (r : t) (key : string)
    (Hexact : headers r !! key = None)
    (Hsome : ∃ k v, headers r !! k = Some v ∧ strcasecmp_impl k key = true) :
  ∃ k v,
    headers r !! k = Some v ∧ strcasecmp_impl k key = true
    ∧ get_header r key = v
    ∧ ∀ k' v', headers r !! k' = Some v' → strcasecmp_impl k' key = true →
               String.le k k'.
Proof.
  unfold get_header, headers in *. rewrite Hexact.
  destruct Hsome as (k0 & v0 & Hk0 & Hci0).
  destruct (scan_headers key (StdMap.items (headers_ r))) as [v|] eqn:Hs.
  - destruct (scan_headers_first _ _ _ (items_strongly_sorted _) Hs)
      as (k & Hin & Hk & Hmin).
    exists k, v. apply StdMapFacts.elem_of_items in Hin.
    repeat split; try assumption.
    intros k' v' Hk' Hci. apply (Hmin k' v'); [|exact Hci].
    apply StdMapFacts.elem_of_items, Hk'.
  - apply StdMapFacts.elem_of_items in Hk0.
    rewrite (ResponseFacts.scan_headers_None _ _ Hs _ _ Hk0) in Hci0. discriminate.
Qed.

(** *** Storing headers *)

(** A header that was added is found under its name; adding it again
    replaces the value; and a header already stored under another name is
    still found under that name, also when the two names differ in case
    only. *)
Theorem add_header_get_header (r : t) (key value : string) :
  get_header (add_header r key value) key = value
  ∧ (∀ value', add_header (add_header r key value') key value
               = add_header r key value)
  ∧ (∀ key' value', key' ≠ key → headers r !! key' = Some value' →
                    get_header (add_header r key value) key' = value').
Proof.
  split; [|split].
  - unfold get_header, add_header. cbn [headers_]. rewrite lookup_insert_eq. reflexivity.
  - intros value'. unfold add_header. cbn [status_code_ reason_ headers_ body_ redirect_chain_].
    rewrite insert_insert_eq. reflexivity.
  - intros key' value' Hne Hk. unfold get_header, add_header, headers in *.
    cbn [headers_]. rewrite lookup_insert_ne by congruence. rewrite Hk. reflexivity.
Qed.


(** Two headers that differ in case only, asked for in a third
    spelling. *)
Lemma get_header_first_match_witness :
  ∃ k v,
    headers (add_header (add_header init "location" "/a") "LOCATION" "/b") !! k
    = Some v
    ∧ strcasecmp_impl k "Location" = true
    ∧ get_header (add_header (add_header init "location" "/a") "LOCATION" "/b")
        "Location" = v
    ∧ ∀ k' v',
        headers (add_header (add_header init "location" "/a") "LOCATION" "/b") !! k'
        = Some v' →
        strcasecmp_impl k' "Location" = true → String.le k k'.
Proof.
  apply (get_header_first_match
           (add_header (add_header init "location" "/a") "LOCATION" "/b") "Location").
  - reflexivity.
  - exists "location", "/a". split; reflexivity.
Defined.

End HeaderFacts.

(** ** Redirect chains *)

Module RedirectFacts.
Import HttpClient RedirectChain.

Section RedirectFacts.

Variable config_ : ClientConfig.t.
Variable parse_url : string → Exception.t + UrlInfo.t.
Variable parse_response : string → Exception.t + HttpResponse.t.
Variable network : nat → HttpRequest.t → UrlInfo.t → transport.

Local Abbreviation exchange_once := (exchange_once parse_url parse_response network).
Local Abbreviation execute_with_redirects_fuel :=
  (execute_with_redirects_fuel config_ parse_url parse_response network).
Local Abbreviation execute_with_redirects :=
  (execute_with_redirects config_ parse_url parse_response network).

(** The budget of hops that is left at [redirect_count]. *)
Local Abbreviation hops_left redirect_count :=
  (Z.to_nat (ClientConfig.max_redirects config_ - redirect_count)).

Lemma copy_chain_chain (response redirect_resp : HttpResponse.t) :
  HttpResponse.redirect_chain (copy_chain response redirect_resp)
  = HttpResponse.redirect_chain redirect_resp
    ++ HttpResponse.redirect_chain response.
Proof.
  unfold copy_chain. generalize (HttpResponse.redirect_chain response). intros l.
  revert redirect_resp. induction l as [|u l IH]; intros redirect_resp.
  - cbn. rewrite List.app_nil_r. reflexivity.
  - cbn [foldl]. rewrite IH. unfold HttpResponse.add_redirect, HttpResponse.redirect_chain.
    cbn [HttpResponse.redirect_chain_]. rewrite <- List.app_assoc. reflexivity.
Qed.

(** A response that an exchange returns comes from [parse_response]. *)
Lemma exchange_once_parsed request w w' url_info response :
  exchange_once request w = (w', Returns (url_info, response)) →
  ∃ data, parse_response data = inr response.
Proof.
  unfold HttpClient.exchange_once.
  destruct (parse_url (HttpRequest.url request)) as [e|u]; [discriminate|].
  unfold execute_https, execute_http.
  destruct (network (exchanges w) request u);
    destruct (UrlInfo.is_https u); cbn [resolves answers outcome];
    try discriminate.
  all: destruct (parse_response response_data) as [e|r] eqn:Hp; [discriminate|].
  all: intros [= _ _ <-]; eauto.
Qed.

Lemma execute_with_redirects_fuel_chain (fuel : nat) :
  ∀ request redirect_count w w' res,
    execute_with_redirects_fuel fuel request redirect_count w = Some (w', res) →
    exchanges w' ≤ exchanges w + S (hops_left redirect_count)
    ∧ ∃ followups,
        requested w' = requested w ++ request :: followups
        ∧ length followups ≤ hops_left redirect_count
        ∧ ((∀ data response, parse_response data = inr response →
                             HttpResponse.redirect_chain response = []) →
           match res with
           | Returns response =>
               resolved_chain parse_url request
                 (reverse (HttpResponse.redirect_chain response)) followups
           | _ => True
           end).
Proof.
  induction fuel as [|fuel IH]; intros request redirect_count w w' res; [discriminate|].
  destruct (ClientFacts.exchange_once_effect parse_url parse_response network
              request (log_request request w)) as (_ & _ & Hr & Hx & _).
  destruct (exchange_once request (log_request request w)) as [w1 r] eqn:Hex.
  cbn [fst snd] in *. cbn in Hx.
  assert (Hstop :
    execute_with_redirects_fuel (S fuel) request redirect_count w
    = Some (w1, match r with
                | Returns (_, response) => Returns response
                | Throws e => Throws e
                | Hangs => Hangs
                end) →
    execute_with_redirects_fuel (S fuel) request redirect_count w = Some (w', res) →
    exchanges w' ≤ exchanges w + S (hops_left redirect_count)
    ∧ ∃ followups,
        requested w' = requested w ++ request :: followups
        ∧ length followups ≤ hops_left redirect_count
        ∧ ((∀ data response, parse_response data = inr response →
                             HttpResponse.redirect_chain response = []) →
           match res with
           | Returns response =>
               resolved_chain parse_url request
                 (reverse (HttpResponse.redirect_chain response)) followups
           | _ => True
           end)).
  { intros -> [= <- <-]. split; [lia|]. exists []. rewrite Hr.
    split; [reflexivity|]. split; [cbn; lia|].
    intros Hfresh. destruct r as [[url_info response]|e|]; try exact I.
    destruct (exchange_once_parsed _ _ _ _ _ Hex) as (data & Hp).
    rewrite (Hfresh _ _ Hp). exact I. }
  destruct r as [[url_info response]|e|].
  2, 3: apply Hstop, (ClientFacts.execute_with_redirects_fuel_stop _ _ _ _ _ _ _ _ _ _ Hex I).
  destruct (wants_redirect config_ redirect_count response) eqn:Hw.
  2: { apply Hstop, (ClientFacts.execute_with_redirects_fuel_stop _ _ _ _ _ _ _ _ _ _ Hex).
       left. exact Hw. }
  destruct (Str.empty (HttpResponse.get_header response "Location")) eqn:Hloc.
  { apply Hstop, (ClientFacts.execute_with_redirects_fuel_stop _ _ _ _ _ _ _ _ _ _ Hex).
    right. exact Hloc. }
  clear Hstop.
  rewrite (ClientFacts.execute_with_redirects_fuel_step _ _ _ _ _ _ _ _ _ _ _ Hex Hw Hloc).
  apply ClientFacts.wants_redirect_hops in Hw.
  set (redirect_req := HttpRequest.mk HttpMethod.GET _ _ _).
  destruct (execute_with_redirects_fuel fuel redirect_req (redirect_count + 1)%Z w1)
    as [[w2 res2]|] eqn:Hrec; [|discriminate].
  destruct (IH _ _ _ _ _ Hrec) as (Hx2 & followups & Hreq & Hlen & Hchain).
  intros [= <- <-].
  split; [lia|].
  exists (redirect_req :: followups). split.
  { rewrite Hreq, Hr. cbn. rewrite <- List.app_assoc. reflexivity. }
  split; [cbn [length]; lia|].
  intros Hfresh. specialize (Hchain Hfresh).
  destruct res2 as [redirect_resp|e|]; cbn [after_redirect]; try exact I.
  rewrite copy_chain_chain.
  unfold HttpResponse.add_redirect at 1. unfold HttpResponse.redirect_chain at 2.
  cbn [HttpResponse.redirect_chain_].
  change (HttpResponse.redirect_chain_ response)
    with (HttpResponse.redirect_chain response).
  destruct (exchange_once_parsed _ _ _ _ _ Hex) as (data & Hp).
  rewrite (Hfresh _ _ Hp). cbn [app].
  rewrite reverse_app. cbn [reverse rev_append app resolved_chain].
  split; [|exact Hchain].
  exists url_info. split; [|reflexivity].
  exact (ClientFacts.exchange_once_url _ _ _ _ _ _ _ _ Hex).
Qed.

(** One call of [execute_with_redirects] starts at most one exchange more
    than it has hops left, and issues at most that many requests; the
    recursion ends there. The call comes back when every exchange that it
    starts comes back. *)
Theorem exchanges_bounded_by_hops
    (request : HttpRequest.t) (redirect_count : Z) (w : world) :
  ∃ w' res,
    execute_with_redirects request redirect_count w = Some (w', res)
    ∧ exchanges w ≤ exchanges w' ≤ exchanges w + S (hops_left redirect_count)
    ∧ length (requested w')
      ≤ length (requested w) + S (hops_left redirect_count)
    ∧ ((∀ n r u, answers (network n r u) = true) → comes_back res = true).
Proof.
  destruct (ClientFacts.execute_with_redirects_spec config_ parse_url
              parse_response network request redirect_count w)
    as (w' & res & H & _ & Hc & _ & Hlo & _).
  exists w', res. split; [exact H|].
  apply execute_with_redirects_fuel_chain in H as (Hx & followups & Hreq & Hlen & _).
  split; [lia|]. split; [|exact Hc].
  rewrite Hreq, length_app. cbn [length]. lia.
Qed.

(** The redirect chain of the response that comes back lists the
    [Location] values that were followed, the last one followed first.
    Read backwards it goes with the follow-up requests one to one: the
    URL of each is the [Location] value resolved against the URL of the
    request before it, the one that was answered with it. There are no
    more of them than hops were left. *)
Theorem redirect_chain_newest_first
    (request : HttpRequest.t) (redirect_count : Z) (w w' : world)
    (response : HttpResponse.t)
    (Hfresh : ∀ data response, parse_response data = inr response →
                               HttpResponse.redirect_chain response = [])
    (Hrun : execute_with_redirects request redirect_count w
            = Some (w', Returns response)) :
  ∃ followups,
    requested w' = requested w ++ request :: followups
    ∧ resolved_chain parse_url request
        (reverse (HttpResponse.redirect_chain response)) followups
    ∧ length (HttpResponse.redirect_chain response) = length followups
    ∧ length followups ≤ hops_left redirect_count.
Proof.
  apply execute_with_redirects_fuel_chain in Hrun as (_ & followups & Hreq & Hlen & Hchain).
  specialize (Hchain Hfresh). exists followups. split; [exact Hreq|].
  split; [exact Hchain|]. split; [|exact Hlen].
  rewrite <- (length_reverse (HttpResponse.redirect_chain response)).
  clear -Hchain. revert Hchain.
  generalize (reverse (HttpResponse.redirect_chain response)). intros locations.
  revert request followups.
  induction locations as [|l locations IH]; intros request [|r followups] H;
    cbn in *; try contradiction; [reflexivity|].
  destruct H as [_ H]. f_equal. exact (IH _ _ H).
Qed.

(** A 3xx response without a [Location], a response that is no 3xx, and
    any response when redirects are switched off are returned as they
    are. *)
Theorem no_redirect_returns_response
    (request : HttpRequest.t) (redirect_count : Z) (w w' : world)
    (url_info : UrlInfo.t) (response : HttpResponse.t)
    (Hexchange : exchange_once request (log_request request w)
                 = (w', Returns (url_info, response)))
    (Hstay : ClientConfig.follow_redirects config_ = false
             ∨ (HttpResponse.status_code response < 300)%Z
             ∨ (400 ≤ HttpResponse.status_code response)%Z
             ∨ HttpResponse.get_header response "Location" = "") :
  execute_with_redirects request redirect_count w = Some (w', Returns response).
Proof.
  unfold HttpClient.execute_with_redirects.
  cbn [HttpClient.execute_with_redirects_fuel]. rewrite Hexchange.
  unfold wants_redirect.
  destruct Hstay as [-> | [H | [H | H]]].
  - reflexivity.
  - destruct (Z.geb_spec (HttpResponse.status_code response) 300); [lia|].
    rewrite !andb_false_r. reflexivity.
  - destruct (Z.ltb_spec (HttpResponse.status_code response) 400); [lia|].
    rewrite !andb_false_r. reflexivity.
  - rewrite H. cbn [Str.empty negb]. destruct (_ && _); reflexivity.
Qed.

(** When the URL made from [Location] does not parse, the call throws
    what [parse_url] throws; the 3xx response is not returned. *)
Theorem unparsable_location_throws
    (request : HttpRequest.t) (redirect_count : Z) (w w1 : world)
    (url_info : UrlInfo.t) (response : HttpResponse.t) (e : Exception.t)
    (Hexchange : exchange_once request (log_request request w)
                 = (w1, Returns (url_info, response)))
    (Hwants : wants_redirect config_ redirect_count response = true)
    (Hlocation : Str.empty (HttpResponse.get_header response "Location") = false)
    (Hbad : parse_url (resolve_location url_info
                         (HttpResponse.get_header response "Location")) = inl e) :
  ∃ w', execute_with_redirects request redirect_count w = Some (w', Throws e)
        ∧ exchanges w' = exchanges w1.
Proof.
  unfold HttpClient.execute_with_redirects.
  pose proof (ClientFacts.wants_redirect_hops _ _ _ Hwants) as Hlt.
  replace (hops_left redirect_count) with (S (hops_left (redirect_count + 1))) by lia.
  cbn [HttpClient.execute_with_redirects_fuel]. rewrite Hexchange, Hwants, Hlocation.
  cbn [negb]. unfold HttpClient.exchange_once.
  rewrite ClientFacts.make_redirect_req_eq. cbn [HttpRequest.url HttpRequest.url_].
  rewrite Hbad. eexists. split; reflexivity.
Qed.

End RedirectFacts.

(** *** Instances *)

(** One hop allowed, every answer a [302] to [/next]. *)
Lemma redirect_chain_newest_first_witness :
  ∃ followups,
    [Scenario.get_a; HttpRequest.mk HttpMethod.GET "http://a.example/next" ∅ ""]
    = Scenario.get_a :: followups
    ∧ resolved_chain Scenario.parse_url Scenario.get_a (reverse ["/next"]) followups
    ∧ 1 = length followups
    ∧ length followups ≤ Z.to_nat (ClientConfig.max_redirects Scenario.config - 0).
Proof.
  apply (redirect_chain_newest_first Scenario.config Scenario.parse_url
           Scenario.parse_response Scenario.redirects_always
           Scenario.get_a 0 initial_world
           (mkWorld 2 0 1 2
              [Scenario.get_a;
               HttpRequest.mk HttpMethod.GET "http://a.example/next" ∅ ""])
           (HttpResponse.add_redirect Scenario.found_next "/next")).
  - intros data response. unfold Scenario.parse_response.
    destruct (Str.eqb data "302"); intros [= <-]; reflexivity.
  - vm_compute. reflexivity.
Defined.

(** A [200] is returned as it is. *)
Lemma no_redirect_returns_response_witness :
  execute_with_redirects Scenario.config Scenario.parse_url Scenario.parse_response
    Scenario.serves_ok Scenario.get_a 0 initial_world
  = Some (mkWorld 1 0 1 1 [Scenario.get_a], Returns Scenario.ok).
Proof.
  apply (no_redirect_returns_response Scenario.config Scenario.parse_url
           Scenario.parse_response Scenario.serves_ok Scenario.get_a 0
           initial_world (mkWorld 1 0 1 1 [Scenario.get_a])
           Scenario.url_info Scenario.ok).
  - reflexivity.
  - right. left. cbn. lia.
Defined.

(** The URL made from [/next] is one that [only_root] does not take. *)
Lemma unparsable_location_throws_witness :
  ∃ w',
    execute_with_redirects Scenario.config only_root Scenario.parse_response
      Scenario.redirects_always Scenario.get_a 0 initial_world
    = Some (w', Throws (Exception.mk Exception.runtime_error "Invalid URL"))
    ∧ exchanges w' = 1.
Proof.
  apply (unparsable_location_throws Scenario.config only_root
           Scenario.parse_response Scenario.redirects_always Scenario.get_a 0
           initial_world (mkWorld 1 0 1 1 [Scenario.get_a])
           Scenario.url_info Scenario.found_next).
  - reflexivity.
  - reflexivity.
  - reflexivity.
  - reflexivity.
Defined.

End RedirectFacts.

(** ** Read loops and verbs *)

Module ReadLoopFacts.
Import ReadLoop.

Lemma append_eq response_data r : append response_data r = response_data +:+ bytes r.
Proof.
  unfold append. destruct (bytes r) as [|c s]; cbn [String.length].
  - cbn. rewrite StrFacts.app_nil_r. reflexivity.
  - reflexivity.
Qed.

Lemma concat_nil_cons (s : string) (l : list string) :
  String.concat "" (s :: l) = s +:+ String.concat "" l.
Proof.
  destruct l as [|t l]; cbn [String.concat].
  - rewrite StrFacts.app_nil_r. reflexivity.
  - reflexivity.
Qed.

Lemma received_cons r reads : received (r :: reads) = bytes r +:+ received reads.
Proof. unfold received. cbn [map]. apply concat_nil_cons. Qed.

Section ReadLoopFacts.

Variable message : error_code → string.

Lemma read_with_timeout_loop_eof reads :
  ∀ last rest response_data,
    Forall (λ r, ec r = success) reads →
    ends_stream (ec last) = true →
    read_with_timeout_loop message (reads ++ last :: rest) response_data
    = Some (inr (response_data +:+ received (reads ++ [last]))).
Proof.
  induction reads as [|r reads IH]; intros last rest response_data Hok Hlast.
  - cbn [app read_with_timeout_loop]. rewrite Hlast, append_eq, received_cons.
    unfold received. cbn. rewrite StrFacts.app_nil_r. reflexivity.
  - inversion Hok as [|? ? Hr Hrest]; subst.
    cbn [app read_with_timeout_loop]. rewrite Hr. cbn [ends_stream is_error].
    rewrite (IH _ _ _ Hrest Hlast), append_eq, received_cons, StrFacts.app_assoc.
    reflexivity.
Qed.

Lemma read_with_timeout_loop_error reads :
  ∀ bad rest response_data,
    Forall (λ r, ec r = success) reads →
    ends_stream (ec bad) = false →
    is_error (ec bad) = true →
    read_with_timeout_loop message (reads ++ bad :: rest) response_data
    = Some (inl (if timeout_occurred bad
                 then match ec bad with
                      | operation_aborted =>
                          Exception.mk Exception.runtime_error "Read timeout"
                      | _ => Exception.mk Exception.system_error (message (ec bad))
                      end
                 else Exception.mk Exception.system_error (message (ec bad)))).
Proof.
  induction reads as [|r reads IH]; intros bad rest response_data Hok Hends Herr.
  - cbn [app read_with_timeout_loop]. rewrite Hends.
    destruct (ec bad), (timeout_occurred bad); cbn in *; try discriminate; reflexivity.
  - inversion Hok as [|? ? Hr Hrest]; subst.
    cbn [app read_with_timeout_loop]. rewrite Hr. cbn [ends_stream is_error].
    apply IH; assumption.
Qed.

Lemma co_read_response_loop_agrees reads :
  ∀ response_data,
    Forall (λ r, ec r = operation_aborted → timeout_occurred r = false) reads →
    co_read_response_loop message reads response_data
    = read_with_timeout_loop message reads response_data.
Proof.
  induction reads as [|r reads IH]; intros response_data Hok; [reflexivity|].
  inversion Hok as [|? ? Hr Hrest]; subst.
  cbn [co_read_response_loop read_with_timeout_loop].
  destruct (ec r) eqn:Hec; cbn [ends_stream is_error]; try reflexivity.
  - apply IH, Hrest.
  - rewrite Hr; reflexivity.
Qed.

(** What has been read when the stream ends is returned whole and in
    order, the bytes that came with the end included; a truncated TLS
    stream counts as an end; reads after the end are not made. *)
Theorem read_returns_all_bytes_up_to_end
    (reads : list read_some) (last : read_some) (rest : list read_some)
    (Hreads : Forall (λ r, ec r = success) reads)
    (Hlast : ends_stream (ec last) = true) :
  read_with_timeout message (reads ++ last :: rest)
  = Some (inr (received (reads ++ [last]))).
Proof.
  unfold read_with_timeout. rewrite (read_with_timeout_loop_eof _ _ _ _ Hreads Hlast).
  rewrite StrFacts.app_nil_l. reflexivity.
Qed.

(** A read that fails makes the call throw, and the bytes read before it
    are not returned: the result of the call does not depend on them. The
    exception is "Read timeout" only when the error is
    [operation_aborted] and the timer has fired. *)
Theorem read_error_discards_bytes
    (reads : list read_some) (bad : read_some) (rest : list read_some)
    (Hreads : Forall (λ r, ec r = success) reads)
    (Hends : ends_stream (ec bad) = false)
    (Herror : is_error (ec bad) = true) :
  ∃ e, read_with_timeout message (reads ++ bad :: rest) = Some (inl e)
       ∧ read_with_timeout message [bad] = Some (inl e)
       ∧ (Exception.what e = "Read timeout" ∧ Exception.cls e = Exception.runtime_error
          ↔ ec bad = operation_aborted ∧ timeout_occurred bad = true).
Proof.
  eexists. split; [|split].
  - unfold read_with_timeout. apply read_with_timeout_loop_error; assumption.
  - unfold read_with_timeout.
    apply (read_with_timeout_loop_error [] bad [] ""); [constructor|assumption..].
  - destruct (ec bad), (timeout_occurred bad); cbn in *; try discriminate;
      split; intros [H1 H2]; try discriminate; try (split; reflexivity).
Qed.

(** The coroutine client's read loop gives what the blocking client's
    gives on every stream on which no read is aborted by the timer. *)
Theorem co_read_response_agrees
    (reads : list read_some)
    (Hreads : Forall (λ r, ec r = operation_aborted → timeout_occurred r = false) reads) :
  co_read_response message reads = read_with_timeout message reads.
Proof. apply co_read_response_loop_agrees, Hreads. Qed.

End ReadLoopFacts.


(** *** Instances *)

(** Two reads with data, then the end of file with the last bytes. *)
Lemma read_returns_all_bytes_up_to_end_witness :
  read_with_timeout (λ _, "error")
    ([mkRead "HTTP/1.1 200 OK" success false; mkRead " and more" success false]
     ++ mkRead "." eof false :: [])
  = Some (inr "HTTP/1.1 200 OK and more.").
Proof.
  apply (read_returns_all_bytes_up_to_end (λ _, "error")
           [mkRead "HTTP/1.1 200 OK" success false; mkRead " and more" success false]
           (mkRead "." eof false) []).
  - repeat constructor.
  - reflexivity.
Defined.

(** Some bytes, then the timer closes the stream. *)
Lemma read_error_discards_bytes_witness :
  ∃ e,
    read_with_timeout (λ _, "error")
      ([mkRead "HTTP" success false] ++ mkRead "" operation_aborted true :: [])
    = Some (inl e)
    ∧ read_with_timeout (λ _, "error") [mkRead "" operation_aborted true]
      = Some (inl e)
    ∧ (Exception.what e = "Read timeout" ∧ Exception.cls e = Exception.runtime_error
       ↔ operation_aborted = operation_aborted ∧ true = true).
Proof.
  apply (read_error_discards_bytes (λ _, "error") [mkRead "HTTP" success false]
           (mkRead "" operation_aborted true) []).
  - repeat constructor.
  - reflexivity.
  - reflexivity.
Defined.

(** A stream that ends without an error. *)
Lemma co_read_response_agrees_witness :
  co_read_response (λ _, "error")
    [mkRead "HTTP" success false; mkRead "" eof false]
  = read_with_timeout (λ _, "error")
      [mkRead "HTTP" success false; mkRead "" eof false].
Proof.
  apply (co_read_response_agrees (λ _, "error")
           [mkRead "HTTP" success false; mkRead "" eof false]).
  repeat (constructor; [discriminate|]). constructor.
Defined.

End ReadLoopFacts.

Module HttpVerbsFacts.
Import HttpVerbs.

Section HttpVerbsFacts.

Variable config_ : ClientConfig.t.
Variable parse_url : string → Exception.t + UrlInfo.t.
Variable parse_response : string → Exception.t + HttpResponse.t.
Variable network : nat → HttpRequest.t → UrlInfo.t → HttpClient.transport.

Lemma execute_asks_for (method : HttpMethod.t) (url body : string) (w : HttpClient.world) :
  asks_for method url body w
    (HttpClient.execute config_ parse_url parse_response network
       (HttpRequest.mk method url ∅ body) w).
Proof.
  unfold HttpClient.execute.
  destruct (ClientFacts.execute_with_redirects_spec config_ parse_url parse_response
              network (HttpRequest.mk method url ∅ body) 0 w)
    as (w' & res & Hrun & _ & _ & (followups & Hreq & Hall) & _).
  exists w', res, followups. split; [exact Hrun|]. split; [exact Hreq|].
  eapply Forall_impl; [exact Hall|].
  intros r (Hm & Hh & Hb). auto.
Qed.

(** Each verb hands [execute] one request with its own method, the URL
    given and no header; [post], [put] and [patch] put the body into that
    request only. Whatever the redirect loop asks for after it is a GET
    without body. *)
Theorem verbs_build_one_request (url body : string) (w : HttpClient.world) :
  asks_for HttpMethod.GET url "" w (get config_ parse_url parse_response network url w)
  ∧ asks_for HttpMethod.POST url body w
      (post config_ parse_url parse_response network url body w)
  ∧ asks_for HttpMethod.PUT url body w
      (put config_ parse_url parse_response network url body w)
  ∧ asks_for HttpMethod.DELETE url "" w
      (del config_ parse_url parse_response network url w)
  ∧ asks_for HttpMethod.HEAD url "" w
      (head config_ parse_url parse_response network url w)
  ∧ asks_for HttpMethod.PATCH url body w
      (patch config_ parse_url parse_response network url body w)
  ∧ asks_for HttpMethod.OPTIONS url "" w
      (options config_ parse_url parse_response network url w).
Proof. repeat split; apply execute_asks_for. Qed.

End HttpVerbsFacts.

End HttpVerbsFacts.
